(** * DreamStream: orchestrator, typewriter and procedural audio

    A shallow embedding of the parts of the DreamStream single-page
    application that carry behaviour: the game orchestrator of [App.tsx]
    ([handleStartGame], [handleOptionSelect], [resetGame]), the
    [TypewriterText] component of [GameCanvas.tsx], and the [AudioManager]
    of [utils/audio.ts].

    Conventions.
    - A JavaScript string is the list of its UTF-16 code units, so that
      [length], [slice] and [trim] mean what they mean in the browser.
    - Handlers are written in a small state-and-exception monad; an
      [await]ed service call takes its outcome from a [Services] record
      supplied by the environment for that invocation, and events are
      handled one after the other.
    - The Web Audio graph is observed through the log of API calls made on
      the audio context, most recent call first. *)

From Stdlib Require Import List NArith ZArith QArith Lqa String Ascii Lia Bool.
From stdpp Require Import base option list strings gmap.
Import ListNotations.

Local Open Scope nat_scope.

(* ===================================================================== *)
(** ** JavaScript values *)
(* ===================================================================== *)

Module JS.

(** A string as its sequence of UTF-16 code units. *)
Definition jsstring : Type := list N.

(** A source literal (all literals of the program are ASCII). *)
Definition lit (s : string) : jsstring :=
  map N_of_ascii (list_ascii_of_string s).

(** The empty string. *)
Definition empty_string : jsstring := [].

(** ECMAScript [WhiteSpace] and [LineTerminator] code units, the ones
    [String.prototype.trim] strips. *)
Definition isWhiteSpace (c : N) : bool :=
  ((9 <=? c) && (c <=? 13)           (* TAB, LF, VT, FF, CR *)
   || (c =? 32)                      (* SPACE *)
   || (c =? 160)                     (* NBSP *)
   || (c =? 5760)                    (* U+1680 *)
   || ((8192 <=? c) && (c <=? 8202)) (* U+2000 .. U+200A *)
   || (c =? 8232) || (c =? 8233)     (* U+2028, U+2029 *)
   || (c =? 8239) || (c =? 8287)     (* U+202F, U+205F *)
   || (c =? 12288)                   (* U+3000 *)
   || (c =? 65279))%N.               (* U+FEFF *)

Fixpoint trimStart (s : jsstring) : jsstring :=
  match s with
  | c :: s' => if isWhiteSpace c then trimStart s' else s
  | [] => []
  end.

Definition trimEnd (s : jsstring) : jsstring := rev (trimStart (rev s)).

(** [s.trim()] *)
Definition trim (s : jsstring) : jsstring := trimEnd (trimStart s).

(** Truthiness of a string: every string but the empty one. *)
Definition truthy (s : jsstring) : bool :=
  match s with [] => false | _ :: _ => true end.

(** [a.slice(start)] on an array, with the relative-index rule of
    [Array.prototype.slice]: a negative [start] counts from the end and
    is clamped at [0]; a [start] past the end gives the empty array. *)
Definition slice_from {A : Type} (start : Z) (a : list A) : list A :=
  let len := Z.of_nat (length a) in
  let k := if (start <? 0)%Z then Z.max (len + start) 0 else Z.min start len in
  drop (Z.to_nat k) a.

(** [s.slice(0, e)] on a string, for a non-negative [e]. *)
Definition slice0 (e : nat) (s : jsstring) : jsstring := take e s.

(** [a.join(sep)] on an array of strings. *)
Fixpoint join (sep : jsstring) (a : list jsstring) : jsstring :=
  match a with
  | [] => []
  | [x] => x
  | x :: rest => x ++ sep ++ join sep rest
  end.

End JS.
Export JS.

(* ===================================================================== *)
(** ** Sequential code with mutable state and exceptions *)
(* ===================================================================== *)

Module Eff.

(** How a piece of code ends: normally with a value, or by throwing. *)
Inductive Completion (T : Type) : Type :=
| Normal (v : T)
| Thrown.
Arguments Normal {T} v.
Arguments Thrown {T}.

(** A computation over a mutable state [S]. *)
Definition Prog (S T : Type) : Type := S -> Completion T * S.

Definition ret {S T} (v : T) : Prog S T := fun s => (Normal v, s).

Definition bind {S T U} (m : Prog S T) (k : T -> Prog S U) : Prog S U :=
  fun s =>
    match m s with
    | (Normal v, s') => k v s'
    | (Thrown, s') => (Thrown, s')
    end.

Definition throw {S T} : Prog S T := fun s => (Thrown, s).

(** [try { body } catch (e) { handler }] *)
Definition try_catch {S T} (body handler : Prog S T) : Prog S T :=
  fun s =>
    match body s with
    | (Normal v, s') => (Normal v, s')
    | (Thrown, s') => handler s'
    end.

Definition get {S} : Prog S S := fun s => (Normal s, s).
Definition modify {S} (f : S -> S) : Prog S unit := fun s => (Normal tt, f s).

(** The state a computation leaves behind. *)
Definition exec {S T} (m : Prog S T) (s : S) : S := snd (m s).

Declare Scope prog_scope.
Delimit Scope prog_scope with prog.
Notation "x ← y ; z" := (bind y (fun x => z))
  (at level 20, y at level 100, z at level 200, only parsing) : prog_scope.
Notation "x ;; z" := (bind x (fun _ => z))
  (at level 100, z at level 200, only parsing, right associativity) : prog_scope.

End Eff.
Export Eff.

(* ===================================================================== *)
(** ** The data model ([types.ts]) *)
(* ===================================================================== *)

Record ActionOption : Type := mkOption {
label : jsstring;
actionPrompt : jsstring
}.

(** The ambience tag: ['nature' | 'mechanical' | 'eerie' | 'calm' | 'chaos']. *)
Inductive Ambience : Type := nature | mechanical | eerie | calm | chaos.

Global Instance Ambience_eq_dec : EqDecision Ambience.
Proof. solve_decision. Defined.

Record SceneData : Type := mkScene {
id : jsstring;
narrative : jsstring;
visualPrompt : jsstring;
imageUrl : option jsstring;
options : list ActionOption;
ambience : Ambience
}.

(** [Omit<SceneData, "imageUrl" | "id">], the value [generateSceneLogic]
  resolves to. *)
Module Logic.
Record t : Type := mk {
  narrative : jsstring;
  visualPrompt : jsstring;
  options : list ActionOption;
  ambience : Ambience
}.
End Logic.

Record GameState : Type := mkGameState {
isPlaying : bool;
currentScene : option SceneData;
history : list SceneData;
loading : bool;
loadingMessage : jsstring;
error : option jsstring
}.

(* ===================================================================== *)
(** ** The audio engine ([utils/audio.ts]) *)
(* ===================================================================== *)

Module Audio.

(** [AudioContext.state] *)
Inductive ContextState : Type := suspended | running | closed.

Global Instance ContextState_eq_dec : EqDecision ContextState.
Proof. solve_decision. Defined.

(** The kinds of node the engine creates. *)
Inductive NodeKind : Type :=
| GainNode | OscillatorNode | AudioBufferSourceNode | BiquadFilterNode.

Global Instance NodeKind_eq_dec : EqDecision NodeKind.
Proof. solve_decision. Defined.

(** The [AudioParam]s the engine touches. *)
Inductive Param : Type := gain | frequency | Q_factor.

(** What a node is connected to. *)
Inductive Destination : Type :=
| destination                       (* [ctx.destination] *)
| node (n : nat)                    (* another node *)
| param (n : nat) (p : Param).      (* an [AudioParam] of another node *)

(** [OscillatorNode.type] and [BiquadFilterNode.type] values in use. *)
Inductive Shape : Type := sine | sawtooth | lowpass | bandpass | highpass.

(** The Web Audio API calls the engine makes; nodes are named by the order
    of their creation on the context. Numbers are the source's literals,
    read as rationals; times are in seconds. *)
Inductive Call : Type :=
| create (k : NodeKind) (n : nat)
| createBuffer (channels : N) (length sampleRate : Q)
| set_type (n : nat) (s : Shape)
| set_value (n : nat) (p : Param) (v : Q)
| set_buffer (n : nat)
| set_loop (n : nat) (b : bool)
| setValueAtTime (n : nat) (p : Param) (v t : Q)
| exponentialRampToValueAtTime (n : nat) (p : Param) (v t : Q)
| linearRampToValueAtTime (n : nat) (p : Param) (v t : Q)
| setTargetAtTime (n : nat) (p : Param) (v t c : Q)
| cancelScheduledValues (n : nat) (p : Param) (t : Q)
| connect (n : nat) (d : Destination)
| start (n : nat)
| stop (n : nat) (when : option Q)
| ctx_resume
| ctx_suspend.

(** The audio context: its state and clock (both moved by the browser),
    and what has been asked of it so far. *)
Record AudioContext : Type := mkContext {
  state : ContextState;
  currentTime : Q;
  sampleRate : Q;
  calls : list Call;      (* most recent first *)
  nodes : nat             (* number of nodes created *)
}.

(** The fields of [class AudioManager]. *)
Record AudioManager : Type := mkManager {
  ctx : option AudioContext;
  masterGain : option nat;
  ambienceNode : option nat;
  ambienceGain : option nat;
  lfo : option nat;
  currentAmbienceType : option Ambience
}.

(** [new AudioManager()] *)
Definition fresh : AudioManager :=
  {| ctx := None; masterGain := None; ambienceNode := None;
     ambienceGain := None; lfo := None; currentAmbienceType := None |}.

Definition with_ctx (c : option AudioContext) (am : AudioManager) :=
  {| ctx := c; masterGain := masterGain am; ambienceNode := ambienceNode am;
     ambienceGain := ambienceGain am; lfo := lfo am;
     currentAmbienceType := currentAmbienceType am |}.
Definition with_masterGain (g : option nat) (am : AudioManager) :=
  {| ctx := ctx am; masterGain := g; ambienceNode := ambienceNode am;
     ambienceGain := ambienceGain am; lfo := lfo am;
     currentAmbienceType := currentAmbienceType am |}.
Definition with_ambienceNode (n : option nat) (am : AudioManager) :=
  {| ctx := ctx am; masterGain := masterGain am; ambienceNode := n;
     ambienceGain := ambienceGain am; lfo := lfo am;
     currentAmbienceType := currentAmbienceType am |}.
Definition with_ambienceGain (g : option nat) (am : AudioManager) :=
  {| ctx := ctx am; masterGain := masterGain am; ambienceNode := ambienceNode am;
     ambienceGain := g; lfo := lfo am;
     currentAmbienceType := currentAmbienceType am |}.
Definition with_lfo (n : option nat) (am : AudioManager) :=
  {| ctx := ctx am; masterGain := masterGain am; ambienceNode := ambienceNode am;
     ambienceGain := ambienceGain am; lfo := n;
     currentAmbienceType := currentAmbienceType am |}.
Definition with_currentAmbienceType (t : option Ambience) (am : AudioManager) :=
  {| ctx := ctx am; masterGain := masterGain am; ambienceNode := ambienceNode am;
     ambienceGain := ambienceGain am; lfo := lfo am;
     currentAmbienceType := t |}.

(** Code of the audio engine. Its calls to [stop] are wrapped in
    [try/catch]; the context constructor is taken to succeed, so that no
    method lets an exception escape. *)
Definition Act (T : Type) : Type := Prog AudioManager T.

Local Open Scope prog_scope.

(** One call on the context. *)
Definition call (c : Call) : Act unit :=
  modify (fun am =>
    match ctx am with
    | Some x =>
        with_ctx (Some {| state := state x; currentTime := currentTime x;
                          sampleRate := sampleRate x; calls := c :: calls x;
                          nodes := nodes x |}) am
    | None => am
    end).

(** [ctx.createGain()], [ctx.createOscillator()], ...: the new node. *)
Definition createNode (k : NodeKind) : Act nat :=
  fun am =>
    match ctx am with
    | Some x =>
        (Normal (nodes x),
         with_ctx (Some {| state := state x; currentTime := currentTime x;
                           sampleRate := sampleRate x;
                           calls := create k (nodes x) :: calls x;
                           nodes := S (nodes x) |}) am)
    | None => (Normal 0, am)
    end.

(** [this.ctx.currentTime] *)
Definition now : Act Q :=
  fun am => (Normal (match ctx am with Some x => currentTime x | None => 0%Q end), am).

(** Whether [this.ctx.state === 'suspended']. *)
Definition is_suspended (am : AudioManager) : bool :=
  match ctx am with
  | Some x => bool_decide (state x = suspended)
  | None => false
  end.

Section Browser.

(** What the browser decides when a context is constructed: whether it
    starts suspended (no user gesture yet) and its sample rate. A call of
    [ctx.resume()] or [ctx.suspend()] only asks for the change of state:
    the state itself moves later, with [browser_moves]. *)
Variable initialState : ContextState.
Variable deviceSampleRate : Q.

Definition init : Act unit :=
  am ← get;
  (match ctx am with
   | None =>
       modify (with_ctx (Some {| state := initialState; currentTime := 0%Q;
                                 sampleRate := deviceSampleRate;
                                 calls := []; nodes := 0 |}));;
       g ← createNode GainNode;
       modify (with_masterGain (Some g));;
       call (set_value g gain 0.5%Q);;
       call (connect g destination);;
       a ← createNode GainNode;
       modify (with_ambienceGain (Some a));;
       call (connect a (node g))
   | Some _ => ret tt
   end);;
  am ← get;
  if is_suspended am then call ctx_resume else ret tt.

Definition resume : Act unit :=
  am ← get;
  if is_suspended am then
    call ctx_resume;;
    t ← now;
    match masterGain am with
    | Some g => call (setTargetAtTime g gain 0.5%Q t 0.1%Q)
    | None => ret tt
    end
  else ret tt.

Definition stopAmbience : Act unit :=
  am ← get;
  (match ambienceNode am with
   | Some n => call (stop n None);; modify (with_ambienceNode None)
   | None => ret tt
   end);;
  am ← get;
  match lfo am with
  | Some n => call (stop n None);; modify (with_lfo None)
  | None => ret tt
  end.

(** The callback [stop] hands to [setTimeout(..., 200)]. *)
Definition stop_timeout : Act unit :=
  stopAmbience;;
  am ← get;
  (match ctx am with
   | Some x => if bool_decide (state x = closed) then ret tt else call ctx_suspend
   | None => ret tt
   end);;
  modify (with_currentAmbienceType None).

(** [stop()]: the synchronous part; the result tells whether the
    200ms timeout was scheduled. *)
Definition stop_now : Act bool :=
  am ← get;
  match ctx am with
  | Some _ =>
      t ← now;
      (match masterGain am with
       | Some g => call (setTargetAtTime g gain 0%Q t 0.1%Q)
       | None => ret tt
       end);;
      ret true
  | None => ret false
  end.

(** [createNoiseBuffer()]: two seconds of mono noise. The samples come
    from [Math.random] and are not represented. *)
Definition createNoiseBuffer : Act bool :=
  am ← get;
  match ctx am with
  | None => ret false
  | Some x =>
      let bufferSize := (2 * sampleRate x)%Q in
      call (createBuffer 1 bufferSize (sampleRate x));;
      ret true
  end.

Definition playClick : Act unit :=
  init;;
  am ← get;
  match ctx am, masterGain am with
  | Some _, Some mg =>
      osc ← createNode OscillatorNode;
      g ← createNode GainNode;
      call (set_type osc sine);;
      t ← now;
      call (setValueAtTime osc frequency 800%Q t);;
      call (exponentialRampToValueAtTime osc frequency 300%Q (t + 0.1)%Q);;
      call (setValueAtTime g gain 0.1%Q t);;
      call (exponentialRampToValueAtTime g gain 0.01%Q (t + 0.1)%Q);;
      call (connect osc (node g));;
      call (connect g (node mg));;
      call (start osc);;
      call (stop osc (Some (t + 0.1)%Q))
  | _, _ => ret tt
  end.

Definition playTransition : Act unit :=
  init;;
  am ← get;
  match ctx am, masterGain am with
  | Some _, Some mg =>
      buffer ← createNoiseBuffer;
      if negb buffer then ret tt else
      source ← createNode AudioBufferSourceNode;
      call (set_buffer source);;
      filter ← createNode BiquadFilterNode;
      call (set_type filter lowpass);;
      t ← now;
      call (setValueAtTime filter frequency 200%Q t);;
      call (exponentialRampToValueAtTime filter frequency 3000%Q (t + 1)%Q);;
      g ← createNode GainNode;
      call (setValueAtTime g gain 0%Q t);;
      call (linearRampToValueAtTime g gain 0.2%Q (t + 0.5)%Q);;
      call (linearRampToValueAtTime g gain 0%Q (t + 2.0)%Q);;
      call (connect source (node filter));;
      call (connect filter (node g));;
      call (connect g (node mg));;
      call (start source)
  | _, _ => ret tt
  end.

Definition setAmbience (type : Ambience) : Act unit :=
  init;;
  resume;;
  am ← get;
  match ctx am, ambienceGain am with
  | Some _, Some ag =>
      if bool_decide (currentAmbienceType am = Some type) then ret tt else
      modify (with_currentAmbienceType (Some type));;
      stopAmbience;;
      t ← now;
      call (cancelScheduledValues ag gain t);;
      call (setValueAtTime ag gain 0%Q t);;
      call (linearRampToValueAtTime ag gain 0.3%Q (t + 2)%Q);;
      match type with
      | mechanical =>
          osc ← createNode OscillatorNode;
          call (set_type osc sawtooth);;
          call (set_value osc frequency 50%Q);;
          lfo ← createNode OscillatorNode;
          call (set_value lfo frequency 0.5%Q);;
          lfoGain ← createNode GainNode;
          call (set_value lfoGain gain 500%Q);;
          filter ← createNode BiquadFilterNode;
          call (set_type filter lowpass);;
          call (set_value filter frequency 200%Q);;
          call (connect lfo (node lfoGain));;
          call (connect lfoGain (param filter frequency));;
          call (connect osc (node filter));;
          call (connect filter (node ag));;
          call (start osc);;
          call (start lfo);;
          modify (with_ambienceNode (Some osc));;
          modify (with_lfo (Some lfo))
      | eerie =>
          osc1 ← createNode OscillatorNode;
          call (set_type osc1 sine);;
          call (set_value osc1 frequency 150%Q);;
          osc2 ← createNode OscillatorNode;
          call (set_type osc2 sine);;
          call (set_value osc2 frequency 154%Q);;
          g ← createNode GainNode;
          call (set_value g gain 0.1%Q);;
          call (connect osc1 (node g));;
          call (connect osc2 (node g));;
          call (connect g (node ag));;
          call (start osc1);;
          call (start osc2);;
          modify (with_ambienceNode (Some osc1));;
          t ← now;
          call (stop osc2 (Some (t + 600)%Q))
      | _ =>
          buffer ← createNoiseBuffer;
          if negb buffer then ret tt else
          source ← createNode AudioBufferSourceNode;
          call (set_buffer source);;
          call (set_loop source true);;
          filter ← createNode BiquadFilterNode;
          (match type with
           | nature =>
               call (set_type filter bandpass);;
               call (set_value filter frequency 400%Q);;
               call (set_value filter Q_factor 0.5%Q);;
               lfo ← createNode OscillatorNode;
               call (set_value lfo frequency 0.1%Q);;
               lfoGain ← createNode GainNode;
               call (set_value lfoGain gain 200%Q);;
               call (connect lfo (node lfoGain));;
               call (connect lfoGain (param filter frequency));;
               call (start lfo);;
               modify (with_lfo (Some lfo))
           | chaos =>
               call (set_type filter highpass);;
               call (set_value filter frequency 1000%Q)
           | _ =>
               call (set_type filter lowpass);;
               call (set_value filter frequency 300%Q)
           end);;
          call (connect source (node filter));;
          call (connect filter (node ag));;
          call (start source);;
          modify (with_ambienceNode (Some source))
      end
  | _, _ => ret tt
  end.

End Browser.

(** *** Observing the graph through the log *)

(** Node [n] is a sound source: an oscillator or a buffer source. *)
Definition is_source (l : list Call) (n : nat) : bool :=
  existsb (fun c =>
    match c with
    | create OscillatorNode m | create AudioBufferSourceNode m => Nat.eqb n m
    | _ => false
    end) l.

(** [n.start()] was called. *)
Definition started (l : list Call) (n : nat) : bool :=
  existsb (fun c => match c with start m => Nat.eqb n m | _ => false end) l.

(** [n.stop()] was called with no argument: the node is silenced at once. *)
Definition stopped (l : list Call) (n : nat) : bool :=
  existsb (fun c => match c with stop m None => Nat.eqb n m | _ => false end) l.

(** The times [n.stop(when)] was called with, most recent first. *)
Definition scheduled_stops (l : list Call) (n : nat) : list Q :=
  omap (fun c =>
    match c with
    | stop m (Some t) => if Nat.eqb n m then Some t else None
    | _ => None
    end) l.

(** The nodes a call names as the one acted upon. *)
Definition subject (c : Call) : option nat :=
  match c with
  | create _ n | set_type n _ | set_value n _ _ | set_buffer n | set_loop n _
  | setValueAtTime n _ _ _ | exponentialRampToValueAtTime n _ _ _
  | linearRampToValueAtTime n _ _ _ | setTargetAtTime n _ _ _ _
  | cancelScheduledValues n _ _ | connect n _ | start n | stop n _ => Some n
  | createBuffer _ _ _ | ctx_resume | ctx_suspend => None
  end.

(** The node a connection leads into. *)
Definition target (d : Destination) : option nat :=
  match d with
  | destination => None
  | node n | param n _ => Some n
  end.

(** The output of [a] is wired into [b] (its input or one of its params). *)
Definition wired (l : list Call) (a b : nat) : Prop :=
  exists d, In (connect a d) l /\ target d = Some b.

(** Sound or modulation produced at [a] reaches [b]. *)
Inductive feeds (l : list Call) : nat -> nat -> Prop :=
| feeds_here (a : nat) : feeds l a a
| feeds_step (a b c : nat) : wired l a b -> feeds l b c -> feeds l a c.

(** Source [n] is sounding at time [now]: it was created and started, no
    [stop()] without a time was called on it, and every stop scheduled for
    it lies ahead. *)
Definition sounding (l : list Call) (now : Q) (n : nat) : Prop :=
  is_source l n = true /\ started l n = true /\ stopped l n = false /\
  forall t, In t (scheduled_stops l n) -> (now < t)%Q.

(** Node [n] is a sounding source of the ambience graph: its sound or
    modulation goes (through filters and gains) into the shared ambience
    gain. *)
Definition ambience_live (am : AudioManager) (n : nat) : Prop :=
  exists x g,
    ctx am = Some x /\ ambienceGain am = Some g /\
    sounding (calls x) (currentTime x) n /\ feeds (calls x) n g.

(** Whether the context has been constructed. *)
Definition has_ctx (am : AudioManager) : bool :=
  match ctx am with Some _ => true | None => false end.

(** The log of an engine, most recent call first, and oldest call first. *)
Definition log (am : AudioManager) : list Call :=
  match ctx am with Some x => calls x | None => [] end.

Definition chronicle (am : AudioManager) : list Call := rev (log am).

(** Number of nodes created so far. *)
Definition node_count (am : AudioManager) : nat :=
  match ctx am with Some x => nodes x | None => 0 end.

(** Calls that build, start or stop part of the graph (as opposed to
    resuming the context or moving a volume). *)
Definition touches_graph (c : Call) : bool :=
  match c with
  | create _ _ | createBuffer _ _ _ | connect _ _ | start _ | stop _ _
  | set_type _ _ | set_value _ _ _ | set_buffer _ | set_loop _ _ => true
  | _ => false
  end.

(** Every node named in the log has been created on this context, and
    so have the nodes the engine holds on to. *)
Definition below (k : nat) (o : option nat) : Prop :=
  match o with Some n => n < k | None => True end.

Definition call_bounded (k : nat) (c : Call) : Prop :=
  below k (subject c) /\
  match c with connect _ d => below k (target d) | _ => True end.

Record well_formed (am : AudioManager) : Prop := {
  wf_calls : Forall (call_bounded (node_count am)) (log am);
  wf_masterGain : below (node_count am) (masterGain am);
  wf_ambienceGain : below (node_count am) (ambienceGain am);
  wf_ambienceNode : below (node_count am) (ambienceNode am);
  wf_lfo : below (node_count am) (lfo am)
}.

(** [this.ctx.currentTime], read from outside. *)
Definition clock (am : AudioManager) : Q :=
  match ctx am with Some x => currentTime x | None => 0%Q end.

(** The engine as the first half of [init()] leaves it: the context just
    constructed in state [s] with sample rate [r], the master gain [0]
    connected to the destination, the ambience gain [1] connected to it. *)
Definition created (s : ContextState) (r : Q) : AudioManager :=
  {| ctx := Some {| state := s; currentTime := 0%Q; sampleRate := r;
                    calls := [connect 1 (node 0); create GainNode 1;
                              connect 0 destination; set_value 0 gain 0.5%Q;
                              create GainNode 0];
                    nodes := 2 |};
     masterGain := Some 0; ambienceNode := None; ambienceGain := Some 1;
     lfo := None; currentAmbienceType := None |}.

(** What the invariant of the engine says beyond the log: without a
    context nothing else is set either, and with it both gains exist. *)
Record consistent (am : AudioManager) : Prop := {
  cons_well_formed : well_formed am;
  cons_fresh : has_ctx am = false -> am = fresh;
  cons_gains : has_ctx am = true ->
               exists mg g, masterGain am = Some mg /\ ambienceGain am = Some g
}.

(** The nodes the teardown path knows about. *)
Definition tracked (am : AudioManager) (n : nat) : Prop :=
  ambienceNode am = Some n \/ lfo am = Some n.

(** Every sounding source of the ambience graph is one the engine tracks. *)
Definition no_stray_source (am : AudioManager) : Prop :=
  forall n, ambience_live am n -> tracked am n.

(** *** The calls of each phase of [setAmbience], most recent first *)

(** [init(); resume()] on a context that exists. *)
Definition wake_calls (x : AudioContext) (mg : option nat) : list Call :=
  if bool_decide (state x = suspended) then
    match mg with
    | Some g => [setTargetAtTime g gain 0.5%Q (currentTime x) 0.1%Q]
    | None => []
    end ++ [ctx_resume; ctx_resume]
  else [].

(** A context after more calls [new] (most recent first) that created
    [k] nodes. *)
Definition push (new : list Call) (k : nat) (x : AudioContext) : AudioContext :=
  {| state := state x; currentTime := currentTime x; sampleRate := sampleRate x;
     calls := new ++ calls x; nodes := k + nodes x |}.

(** [resume()] *)
Definition unmute_calls (x : AudioContext) (mg : option nat) : list Call :=
  if bool_decide (state x = suspended) then
    match mg with
    | Some g => [setTargetAtTime g gain 0.5%Q (currentTime x) 0.1%Q]
    | None => []
    end ++ [ctx_resume]
  else [].

(** The synchronous part of [stop()]. *)
Definition mute_calls (x : AudioContext) (mg : option nat) : list Call :=
  match mg with
  | Some g => [setTargetAtTime g gain 0%Q (currentTime x) 0.1%Q]
  | None => []
  end.

(** What the timeout of [stop()] does to the context itself. *)
Definition suspend_calls (x : AudioContext) : list Call :=
  if bool_decide (state x = closed) then [] else [ctx_suspend].

(** The second half of [init()]. *)
Definition resume_calls (x : AudioContext) : list Call :=
  if bool_decide (state x = suspended) then [ctx_resume] else [].

(** [playClick()] after its [init()]: the oscillator [n] and its gain
    [S n], into the master gain [mg] at time [t]. *)
Definition click_calls (n mg : nat) (t : Q) : list Call :=
  [stop n (Some (t + 0.1)%Q);
   start n;
   connect (S n) (node mg);
   connect n (node (S n));
   exponentialRampToValueAtTime (S n) gain 0.01%Q (t + 0.1)%Q;
   setValueAtTime (S n) gain 0.1%Q t;
   exponentialRampToValueAtTime n frequency 300%Q (t + 0.1)%Q;
   setValueAtTime n frequency 800%Q t;
   set_type n sine;
   create GainNode (S n);
   create OscillatorNode n].

(** [playTransition()] after its [init()]: the noise source [n], its
    filter [S n] and its gain [S (S n)]. *)
Definition transition_calls (n mg : nat) (t rate : Q) : list Call :=
  [start n;
   connect (S (S n)) (node mg);
   connect (S n) (node (S (S n)));
   connect n (node (S n));
   linearRampToValueAtTime (S (S n)) gain 0%Q (t + 2.0)%Q;
   linearRampToValueAtTime (S (S n)) gain 0.2%Q (t + 0.5)%Q;
   setValueAtTime (S (S n)) gain 0%Q t;
   create GainNode (S (S n));
   exponentialRampToValueAtTime (S n) frequency 3000%Q (t + 1)%Q;
   setValueAtTime (S n) frequency 200%Q t;
   set_type (S n) lowpass;
   create BiquadFilterNode (S n);
   set_buffer n;
   create AudioBufferSourceNode n;
   createBuffer 1 (2 * rate)%Q rate].

(** [stopAmbience()] *)
Definition teardown_calls (an l : option nat) : list Call :=
  match l with Some n => [stop n None] | None => [] end ++
  match an with Some n => [stop n None] | None => [] end.

(** The fade-in of the shared ambience gain [g] at time [t]. *)
Definition fade_in_calls (g : nat) (t : Q) : list Call :=
  [linearRampToValueAtTime g gain 0.3%Q (t + 2)%Q;
   setValueAtTime g gain 0%Q t;
   cancelScheduledValues g gain t].

(** The looping noise source [n] and its filter [S n] of the three noise
    moods; [shaping] is what the [switch] does to the filter. *)
Definition noise_calls (shaping : list Call) (n g : nat) (rate : Q) : list Call :=
  [start n;
   connect (S n) (node g);
   connect n (node (S n))] ++
  shaping ++
  [create BiquadFilterNode (S n);
   set_loop n true;
   set_buffer n;
   create AudioBufferSourceNode n;
   createBuffer 1 (2 * rate)%Q rate].

(** The graph [setAmbience] builds for each mood on a context with [n]
    nodes, feeding the ambience gain [g] at time [t]. *)
Definition graph_calls (type : Ambience) (n g : nat) (t rate : Q) : list Call :=
  match type with
  | mechanical =>
      [start (S n);
       start n;
       connect (S (S (S n))) (node g);
       connect n (node (S (S (S n))));
       connect (S (S n)) (param (S (S (S n))) frequency);
       connect (S n) (node (S (S n)));
       set_value (S (S (S n))) frequency 200%Q;
       set_type (S (S (S n))) lowpass;
       create BiquadFilterNode (S (S (S n)));
       set_value (S (S n)) gain 500%Q;
       create GainNode (S (S n));
       set_value (S n) frequency 0.5%Q;
       create OscillatorNode (S n);
       set_value n frequency 50%Q;
       set_type n sawtooth;
       create OscillatorNode n]
  | eerie =>
      [stop (S n) (Some (t + 600)%Q);
       start (S n);
       start n;
       connect (S (S n)) (node g);
       connect (S n) (node (S (S n)));
       connect n (node (S (S n)));
       set_value (S (S n)) gain 0.1%Q;
       create GainNode (S (S n));
       set_value (S n) frequency 154%Q;
       set_type (S n) sine;
       create OscillatorNode (S n);
       set_value n frequency 150%Q;
       set_type n sine;
       create OscillatorNode n]
  | nature =>
      noise_calls
        [start (S (S n));
         connect (S (S (S n))) (param (S n) frequency);
         connect (S (S n)) (node (S (S (S n))));
         set_value (S (S (S n))) gain 200%Q;
         create GainNode (S (S (S n)));
         set_value (S (S n)) frequency 0.1%Q;
         create OscillatorNode (S (S n));
         set_value (S n) Q_factor 0.5%Q;
         set_value (S n) frequency 400%Q;
         set_type (S n) bandpass] n g rate
  | chaos =>
      noise_calls
        [set_value (S n) frequency 1000%Q; set_type (S n) highpass] n g rate
  | calm =>
      noise_calls
        [set_value (S n) frequency 300%Q; set_type (S n) lowpass] n g rate
  end.

(** How many nodes that graph takes. *)
Definition graph_size (type : Ambience) : nat :=
  match type with
  | mechanical | nature => 4
  | eerie => 3
  | calm | chaos => 2
  end.

(** The sources (oscillators and buffer sources) of that graph. *)
Definition graph_sources (type : Ambience) (n : nat) : list nat :=
  match type with
  | mechanical | eerie => [n; S n]
  | nature => [n; S (S n)]
  | calm | chaos => [n]
  end.

(** The oscillator it leaves in [this.lfo], if any. *)
Definition graph_lfo (type : Ambience) (n : nat) : option nat :=
  match type with
  | mechanical => Some (S n)
  | nature => Some (S (S n))
  | _ => None
  end.

(** The browser moves the context's state and clock on its own. *)
Definition browser_moves (s : ContextState) (t : Q) (am : AudioManager)
  : AudioManager :=
  match ctx am with
  | Some x =>
      with_ctx (Some {| state := s; currentTime := t; sampleRate := sampleRate x;
                        calls := calls x; nodes := nodes x |}) am
  | None => am
  end.

(** The engine states a program can get to through the public methods,
    the pending [stop] timeout, and the browser's own moves. *)
Inductive reachable : AudioManager -> Prop :=
| reach_fresh : reachable fresh
| reach_init s r am : reachable am -> reachable (exec (init s r) am)
| reach_resume am : reachable am -> reachable (exec resume am)
| reach_stop am : reachable am -> reachable (exec stop_now am)
| reach_stop_timeout am : reachable am -> reachable (exec stop_timeout am)
| reach_playClick s r am : reachable am -> reachable (exec (playClick s r) am)
| reach_stopAmbience am : reachable am -> reachable (exec stopAmbience am)
| reach_playTransition s r am :
    reachable am -> reachable (exec (playTransition s r) am)
| reach_setAmbience s r type am :
    reachable am -> reachable (exec (setAmbience s r type) am)
| reach_browser s t am : reachable am -> reachable (browser_moves s t am).

(** The teardown path: [stopAmbience] called directly, by [setAmbience]
    with a mood that is not the current one, or by the timeout of [stop]. *)
Inductive tears_down (s : ContextState) (r : Q) (am : AudioManager)
  : AudioManager -> Prop :=
| by_stopAmbience : tears_down s r am (exec stopAmbience am)
| by_setAmbience type :
    currentAmbienceType am <> Some type ->
    tears_down s r am (exec (setAmbience s r type) am)
| by_stop : tears_down s r am (exec stop_timeout am).

End Audio.

(* ===================================================================== *)
(** ** The game orchestrator ([App.tsx], [services/gemini.ts]) *)
(* ===================================================================== *)

Module App.

Import Audio.

(** A request sent to one of the two hosted models. *)
Inductive Request : Type :=
| generateSceneLogic_request (userInput historySummary : jsstring)
| generateSceneImage_request (visualPrompt : jsstring).

(** What the outside world answers during one handler invocation: the
    outcome of the narrative request, the outcome of the image request,
    and the outcome of [crypto.randomUUID()] (which exists in secure
    contexts only). *)
Record Services : Type := mkServices {
  logicAnswer : Completion Logic.t;
  imageAnswer : Completion jsstring;
  uuid : Completion jsstring
}.

(** The state the component lives in: its two [useState] cells, the audio
    singleton, the [setTimeout]s [audio.stop] has pending, and what has
    been sent out so far. *)
Record World : Type := mkWorld {
  input : jsstring;
  gameState : GameState;
  audio : AudioManager;
  stopTimeouts : nat;
  requests : list Request;   (* most recent first *)
  consoleErrors : nat
}.

(** The initial value of the [gameState] cell. *)
Definition initialGameState : GameState :=
  {| isPlaying := false;
     currentScene := None;
     history := [];
     loading := false;
     loadingMessage := empty_string;
     error := None |}.

Local Open Scope prog_scope.

(** [setGameState(updater)] *)
Definition setGameState (f : GameState -> GameState) : Prog World unit :=
  modify (fun w =>
    {| input := input w; gameState := f (gameState w); audio := audio w;
       stopTimeouts := stopTimeouts w; requests := requests w;
       consoleErrors := consoleErrors w |}).

(** [setInput(v)] *)
Definition setInput (v : jsstring) : Prog World unit :=
  modify (fun w =>
    {| input := v; gameState := gameState w; audio := audio w;
       stopTimeouts := stopTimeouts w; requests := requests w;
       consoleErrors := consoleErrors w |}).

Definition with_audio (am : AudioManager) (w : World) : World :=
  {| input := input w; gameState := gameState w; audio := am;
     stopTimeouts := stopTimeouts w; requests := requests w;
     consoleErrors := consoleErrors w |}.

(** A method call on the [audio] singleton. *)
Definition on_audio {T} (a : Act T) : Prog World T :=
  fun w => let '(r, am) := a (audio w) in (r, with_audio am w).

Definition send (r : Request) : Prog World unit :=
  modify (fun w =>
    {| input := input w; gameState := gameState w; audio := audio w;
       stopTimeouts := stopTimeouts w; requests := r :: requests w;
       consoleErrors := consoleErrors w |}).

Definition console_error : Prog World unit :=
  modify (fun w =>
    {| input := input w; gameState := gameState w; audio := audio w;
       stopTimeouts := stopTimeouts w; requests := requests w;
       consoleErrors := S (consoleErrors w) |}).

Definition setTimeout_audio_stop : Prog World unit :=
  modify (fun w =>
    {| input := input w; gameState := gameState w; audio := audio w;
       stopTimeouts := S (stopTimeouts w); requests := requests w;
       consoleErrors := consoleErrors w |}).

(** An [await]ed answer: the value, or the exception. *)
Definition await {T} (c : Completion T) : Prog World T := fun w => (c, w).

(** [generateSceneLogic(userInput, historySummary)]: the request goes out;
    a missing key, a failed call, an empty or unparsable response all
    surface as one rejection. *)
Definition generateSceneLogic (svc : Services) (userInput historySummary : jsstring)
  : Prog World Logic.t :=
  send (generateSceneLogic_request userInput historySummary);;
  await (logicAnswer svc).

(** [generateSceneImage(visualPrompt)]: logs and rethrows on failure. *)
Definition generateSceneImage (svc : Services) (visualPrompt : jsstring)
  : Prog World jsstring :=
  send (generateSceneImage_request visualPrompt);;
  try_catch (await (imageAnswer svc)) (console_error;; throw).

(** [crypto.randomUUID()] *)
Definition randomUUID (svc : Services) : Prog World jsstring :=
  fun w => (uuid svc, w).

(** [{ id, ...logicData, imageUrl: base64Image }] *)
Definition newScene (id : jsstring) (logicData : Logic.t) (base64Image : jsstring)
  : SceneData :=
  {| id := id;
     narrative := Logic.narrative logicData;
     visualPrompt := Logic.visualPrompt logicData;
     imageUrl := Some base64Image;
     options := Logic.options logicData;
     ambience := Logic.ambience logicData |}.

Definition with_loadingMessage (m : jsstring) (prev : GameState) : GameState :=
  {| isPlaying := isPlaying prev; currentScene := currentScene prev;
     history := history prev; loading := loading prev;
     loadingMessage := m; error := error prev |}.

Section Browser.

Variable initialState : ContextState.
Variable deviceSampleRate : Q.

Definition handleStartGame (initialPrompt : jsstring) (svc : Services)
  : Prog World unit :=
  if negb (truthy (trim initialPrompt)) then ret tt else
  on_audio (init initialState deviceSampleRate);;
  on_audio resume;;
  on_audio (playClick initialState deviceSampleRate);;
  setGameState (fun prev =>
    {| isPlaying := true; currentScene := currentScene prev;
       history := history prev; loading := true;
       loadingMessage := lit "Initializing Neural Dream Engine...";
       error := None |});;
  try_catch
    (setGameState (with_loadingMessage (lit "Weaving the Narrative..."));;
     logicData ← generateSceneLogic svc initialPrompt
       (lit "Start of a new adventure. The player has just entered.");
     setGameState (with_loadingMessage (lit "Materializing World..."));;
     base64Image ← generateSceneImage svc (Logic.visualPrompt logicData);
     id ← randomUUID svc;
     let newScene := newScene id logicData base64Image in
     setGameState (fun prev =>
       {| isPlaying := isPlaying prev; currentScene := Some newScene;
          history := [newScene]; loading := false;
          loadingMessage := loadingMessage prev; error := error prev |}))
    (console_error;;
     setGameState (fun prev =>
       {| isPlaying := isPlaying prev; currentScene := currentScene prev;
          history := history prev; loading := false;
          loadingMessage := loadingMessage prev;
          error := Some (lit "Simulation failed. Connection interrupted. Try again.") |})).

(** [handleOptionSelect] reads [gameState.currentScene] and
    [gameState.history] from the render that created it ([useCallback] with
    exactly these two dependencies): [gameState] below is that captured
    value, while the updaters passed to [setGameState] see the cell. *)
Definition handleOptionSelect (gameState : GameState) (option : ActionOption)
  (svc : Services) : Prog World unit :=
  match currentScene gameState with
  | None => ret tt
  | Some _ =>
    setGameState (fun prev =>
      {| isPlaying := isPlaying prev; currentScene := currentScene prev;
         history := history prev; loading := true;
         loadingMessage := lit "Choosing path: " ++ label option ++ lit "...";
         error := None |});;
    try_catch
      (let recentHistory :=
         join (lit " -> ") (map narrative (slice_from (-3) (history gameState))) in
       setGameState (with_loadingMessage (lit "Unfolding Destiny..."));;
       logicData ← generateSceneLogic svc (actionPrompt option) recentHistory;
       setGameState (with_loadingMessage (lit "Rendering Reality..."));;
       base64Image ← generateSceneImage svc (Logic.visualPrompt logicData);
       id ← randomUUID svc;
       let newScene := newScene id logicData base64Image in
       setGameState (fun prev =>
         {| isPlaying := isPlaying prev; currentScene := Some newScene;
            history := history prev ++ [newScene]; loading := false;
            loadingMessage := loadingMessage prev; error := error prev |}))
      (setGameState (fun prev =>
         {| isPlaying := isPlaying prev; currentScene := currentScene prev;
            history := history prev; loading := false;
            loadingMessage := loadingMessage prev;
            error := Some (lit "Lost connection to the dream stream. Please retry.") |}))
  end.

Definition resetGame : Prog World unit :=
  on_audio (playClick initialState deviceSampleRate);;
  scheduled ← on_audio stop_now;
  (if scheduled then setTimeout_audio_stop else ret tt);;
  setGameState (fun _ =>
    {| isPlaying := false;
       currentScene := None;
       history := [];
       loading := false;
       loadingMessage := empty_string;
       error := None |});;
  setInput empty_string.

(** The "Reboot System" button of the error overlay. *)
Definition dismissError : Prog World unit :=
  setGameState (fun prev =>
    {| isPlaying := isPlaying prev; currentScene := currentScene prev;
       history := history prev; loading := false;
       loadingMessage := loadingMessage prev; error := None |}).

(** A pending [setTimeout] of [audio.stop] fires. *)
Definition fire_audio_stop (w : World) : World :=
  match stopTimeouts w with
  | 0 => w
  | S k =>
      {| input := input w; gameState := gameState w;
         audio := exec stop_timeout (audio w);
         stopTimeouts := k; requests := requests w;
         consoleErrors := consoleErrors w |}
  end.

(** What can happen to the component. Events are taken one after the
    other: a handler, with the requests it awaits, has run to its end
    before the next event is looked at (while a round is in flight the
    loader overlay covers the options). A handler runs against the latest
    render, so [handleOptionSelect] captures the state the event finds. *)
Inductive Op : Type :=
| Start (initialPrompt : jsstring) (svc : Services)
| Advance (option : ActionOption) (svc : Services)
| Reset
| DismissError
| TypeInput (v : jsstring)
| AudioStopFires.

Definition step (w : World) (op : Op) : World :=
  match op with
  | Start p svc => exec (handleStartGame p svc) w
  | Advance o svc => exec (handleOptionSelect (gameState w) o svc) w
  | Reset => exec resetGame w
  | DismissError => exec dismissError w
  | TypeInput v => exec (setInput v) w
  | AudioStopFires => fire_audio_stop w
  end.

Definition run (w : World) (ops : list Op) : World := fold_left step ops w.

End Browser.

(** The scene a round produces when both requests are answered and the
    identifier is generated. *)
Definition scene_of (svc : Services) : option SceneData :=
  match logicAnswer svc, imageAnswer svc, uuid svc with
  | Normal d, Normal i, Normal u => Some (newScene u d i)
  | _, _, _ => None
  end.

(** The round goes through to a new scene. *)
Definition answered (svc : Services) : bool :=
  match scene_of svc with Some _ => true | None => false end.

(** A Start that goes through: a premise that is not blank, and a round
    that produces a scene. *)
Definition successful_start (op : Op) : bool :=
  match op with
  | Start p svc => truthy (trim p) && answered svc
  | _ => false
  end.

(** An Advance whose round produces a scene. *)
Definition successful_advance (op : Op) : bool :=
  match op with
  | Advance _ svc => answered svc
  | _ => false
  end.

Definition is_reset (op : Op) : bool :=
  match op with Reset => true | _ => false end.

(** An event that neither resets the session nor starts a new one. *)
Definition quiet (op : Op) : bool :=
  negb (is_reset op) && negb (successful_start op).

(** How many Advance calls of a sequence had a round that produced a scene. *)
Definition successful_advances (ops : list Op) : nat :=
  length (List.filter successful_advance ops).

(** The scenes the successful Advance calls of a sequence produce. *)
Definition advanced_scenes (ops : list Op) : list SceneData :=
  omap (fun op => match op with Advance _ svc => scene_of svc | _ => None end) ops.

(** The initial world, before any event. *)
Definition initialWorld : World :=
  {| input := empty_string; gameState := initialGameState; audio := Audio.fresh;
     stopTimeouts := 0; requests := []; consoleErrors := 0 |}.

End App.

(* ===================================================================== *)
(** ** The typewriter ([TypewriterText] in [components/GameCanvas.tsx]) *)
(* ===================================================================== *)

Module Typewriter.

(** A function object passed as [onComplete], known by its identity. *)
Definition Callback : Type := nat.

(** What the function handed to [setInterval] closes over: the [text] and
    [onComplete] of the render that ran the effect, and the local [i]. *)
Record Interval : Type := mkInterval {
  text : jsstring;
  i : nat;
  onComplete : option Callback;
  delay : nat                            (* milliseconds between two firings *)
}.

(** The mounted component with the part of the browser it uses. *)
Record Component : Type := mkComponent {
  displayedText : jsstring;              (* the [useState] cell *)
  intervals : gmap nat Interval;         (* the browser's live intervals *)
  nextIntervalId : nat;                  (* what [setInterval] returns next *)
  deps : option (jsstring * option Callback);
                                         (* [[text, onComplete]] of the last effect run *)
  cleanup : option nat;                  (* the [intervalId] the pending cleanup clears *)
  completions : list Callback            (* calls of [onComplete], most recent first *)
}.

(** Just mounted: [useState('')], no effect has run. *)
Definition mounted : Component :=
  {| displayedText := empty_string; intervals := ∅; nextIntervalId := 0;
     deps := None; cleanup := None; completions := [] |}.

(** [clearInterval(intervalId)] *)
Definition clearInterval (intervalId : nat) (c : Component) : Component :=
  {| displayedText := displayedText c;
     intervals := delete intervalId (intervals c);
     nextIntervalId := nextIntervalId c; deps := deps c;
     cleanup := cleanup c; completions := completions c |}.

(** [setDisplayedText(v)] *)
Definition setDisplayedText (v : jsstring) (c : Component) : Component :=
  {| displayedText := v; intervals := intervals c;
     nextIntervalId := nextIntervalId c; deps := deps c;
     cleanup := cleanup c; completions := completions c |}.

(** A call of the completion callback, if one was given. *)
Definition call_onComplete (f : option Callback) (c : Component) : Component :=
  match f with
  | Some cb =>
      {| displayedText := displayedText c; intervals := intervals c;
         nextIntervalId := nextIntervalId c; deps := deps c;
         cleanup := cleanup c; completions := cb :: completions c |}
  | None => c
  end.

(** The browser fires interval [intervalId]: the body of the arrow function
    given to [setInterval]. A cleared interval never fires. *)
Definition tick (intervalId : nat) (c : Component) : Component :=
  match intervals c !! intervalId with
  | None => c
  | Some iv =>
      if i iv <? length (text iv) then
        let c := setDisplayedText (slice0 (i iv + 1) (text iv)) c in
        {| displayedText := displayedText c;
           intervals := <[intervalId :=
                           {| text := text iv; i := i iv + 1;
                              onComplete := onComplete iv;
                              delay := delay iv |}]> (intervals c);
           nextIntervalId := nextIntervalId c; deps := deps c;
           cleanup := cleanup c; completions := completions c |}
      else
        call_onComplete (onComplete iv) (clearInterval intervalId c)
  end.

(** The function the effect returned: [() => clearInterval(intervalId)]. *)
Definition run_cleanup (c : Component) : Component :=
  match cleanup c with
  | Some intervalId =>
      let c := clearInterval intervalId c in
      {| displayedText := displayedText c; intervals := intervals c;
         nextIntervalId := nextIntervalId c; deps := deps c;
         cleanup := None; completions := completions c |}
  | None => c
  end.

(** The body of the effect, for the props [text] and [onComplete]. *)
Definition effect (text : jsstring) (onComplete : option Callback)
  (c : Component) : Component :=
  let c := setDisplayedText empty_string c in
  let intervalId := nextIntervalId c in
  {| displayedText := displayedText c;
     intervals := <[intervalId := {| text := text; i := 0;
                                     onComplete := onComplete;
                                     delay := 30 |}]> (intervals c);
     nextIntervalId := S intervalId;
     deps := Some (text, onComplete);
     cleanup := Some intervalId;
     completions := completions c |}.

(** A render with the given props: [useEffect(..., [text, onComplete])]
    runs the previous cleanup and the effect again when a dependency
    changed (and on the first render), and does nothing otherwise. *)
Definition render (text : jsstring) (onComplete : option Callback)
  (c : Component) : Component :=
  if bool_decide (deps c = Some (text, onComplete)) then c
  else effect text onComplete (run_cleanup c).

(** Unmounting runs the pending cleanup. *)
Definition unmount (c : Component) : Component := run_cleanup c.

(** [m] ticks of interval [intervalId] in a row. *)
Fixpoint ticks (m : nat) (intervalId : nat) (c : Component) : Component :=
  match m with
  | 0 => c
  | S m' => ticks m' intervalId (tick intervalId c)
  end.


(** The states the component goes through while mounted. *)
Inductive reachable : Component -> Prop :=
| reach_mounted : reachable mounted
| reach_render text onComplete c :
    reachable c -> reachable (render text onComplete c)
| reach_tick intervalId c : reachable c -> reachable (tick intervalId c).

(** Interval ids in use are ones [setInterval] has handed out, and the only
    live interval is the one the pending cleanup will clear. *)
Record well_formed (c : Component) : Prop := {
  wf_cleanup : forall n, cleanup c = Some n -> n < nextIntervalId c;
  wf_intervals : forall n, is_Some (intervals c !! n) -> cleanup c = Some n
}.

End Typewriter.

(* ===================================================================== *)
(** ** Sample data *)
(* ===================================================================== *)

Module Sample.

Import Audio App Typewriter.

Definition pull_the_lever : ActionOption :=
  {| label := lit "Pull the lever"; actionPrompt := lit "pull lever" |}.

Definition cockpit : Logic.t :=
  {| Logic.narrative := lit "The plane drops. A red lever glows.";
     Logic.visualPrompt := lit "cockpit";
     Logic.options := [pull_the_lever];
     Logic.ambience := chaos |}.

Definition cabin : Logic.t :=
  {| Logic.narrative := lit "The lever snaps. The cabin is empty.";
     Logic.visualPrompt := lit "empty cabin";
     Logic.options := [pull_the_lever];
     Logic.ambience := eerie |}.

Definition picture : jsstring := lit "data:image/png;base64,AAAA".

(** A round in which both services answer. *)
Definition answers (d : Logic.t) (u : string) : Services :=
  {| logicAnswer := Normal d; imageAnswer := Normal picture;
     uuid := Normal (lit u) |}.

(** A round in which the narrative request throws. *)
Definition narrative_fails : Services :=
  {| logicAnswer := Thrown; imageAnswer := Normal picture;
     uuid := Normal (lit "n") |}.

(** A round in which the image request throws. *)
Definition image_fails : Services :=
  {| logicAnswer := Normal cabin; imageAnswer := Thrown;
     uuid := Normal (lit "i") |}.

Definition premise : jsstring := lit "Waking up in a falling airplane...".

(** The world after a first successful Start. *)
Definition started_world : World :=
  step running 44100%Q initialWorld (Start premise (answers cockpit "1")).

Definition some_events : list Op :=
  [Advance pull_the_lever (answers cabin "2");
   Advance pull_the_lever image_fails;
   DismissError;
   AudioStopFires;
   Start (lit "   ") (answers cockpit "x");
   Advance pull_the_lever narrative_fails;
   Advance pull_the_lever (answers cockpit "3")].

(** A game state with four scenes in its history. *)
Definition scene (d : Logic.t) (u : string) : SceneData :=
  newScene (lit u) d picture.

Definition long_game : GameState :=
  {| isPlaying := true; currentScene := Some (scene cabin "4");
     history := [scene cockpit "1"; scene cabin "2"; scene cockpit "3";
                 scene cabin "4"];
     loading := false; loadingMessage := empty_string; error := None |}.

(** The audio engine right after [init()], and with the calm ambience on. *)
Definition initialised : AudioManager := exec (init running 44100%Q) fresh.

Definition calm_playing : AudioManager :=
  exec (setAmbience running 44100%Q calm) fresh.

(** A typewriter two ticks into revealing a first text. *)
Definition mid_reveal : Component :=
  tick 0 (tick 0 (render (lit "hello") (Some 7) mounted)).

End Sample.


(* ===================================================================== *)
(** ** Values that may be [undefined] *)
(* ===================================================================== *)

Module Optional.

(** Truthiness of a value that is a string or [undefined]. *)
Definition truthy_value (v : option jsstring) : bool :=
  match v with
  | Some s => truthy s
  | None => false
  end.

(** [a || b] *)
Definition or_else (a b : option jsstring) : option jsstring :=
  if truthy_value a then a else b.

(** [`${v}`] *)
Definition interpolate (v : option jsstring) : jsstring :=
  match v with
  | Some s => s
  | None => lit "undefined"
  end.

End Optional.

(* ===================================================================== *)
(** ** The build configuration ([vite.config.ts]) *)
(* ===================================================================== *)

Module Config.

Import Optional.

(** What [define] puts in place of [process.env.API_KEY], for the record
    [env] that [loadEnv] returned: [JSON.stringify] of a string is a
    literal that evaluates to that string, and of [undefined] it is
    [undefined]. *)
Definition API_KEY (env : gmap string jsstring) : option jsstring :=
  or_else (or_else (env !! "GEMINI_API_KEY"%string)
                   (env !! "VITE_GEMINI_API_KEY"%string))
          (env !! "API_KEY"%string).

(** The three variables, in the order they are consulted. *)
Definition key_names : list string :=
  ["GEMINI_API_KEY"; "VITE_GEMINI_API_KEY"; "API_KEY"]%string.

(** A variable is set to something other than the empty string. *)
Definition is_set (env : gmap string jsstring) (name : string) : bool :=
  truthy_value (env !! name).

End Config.

(* ===================================================================== *)
(** ** The two model services ([services/gemini.ts]) *)
(* ===================================================================== *)

Module Gemini.

Import Optional.

(** [enum ModelType] of [types.ts] *)
Inductive ModelType : Type := LOGIC | IMAGE.

Definition model_name (m : ModelType) : jsstring :=
  match m with
  | LOGIC => lit "gemini-2.5-flash"
  | IMAGE => lit "gemini-2.5-flash-image"
  end.

(** The part of the SDK's schema language the request uses. *)
Inductive Schema : Type :=
| STRING (enum : list string) (description : option string)
| ARRAY (items : Schema)
| OBJECT (properties : list (string * Schema)) (required : list string).

Definition responseSchema : Schema :=
  OBJECT
    [("narrative", STRING [] None);
     ("visualPrompt", STRING [] None);
     ("ambience", STRING ["nature"; "mechanical"; "eerie"; "calm"; "chaos"] None);
     ("options",
      ARRAY
        (OBJECT
           [("label", STRING [] None);
            ("actionPrompt",
             STRING []
               (Some "The text to feed back into the model if this option is chosen"))]
           ["label"; "actionPrompt"]))]%string
    ["narrative"; "visualPrompt"; "options"; "ambience"]%string.

Record GenerationConfig : Type := mkConfig {
  systemInstruction : jsstring;
  responseMimeType : jsstring;
  schema : Schema
}.

(** [contents]: a string, or an object with text parts. *)
Inductive Contents : Type :=
| plain (s : jsstring)
| text_parts (texts : list jsstring).

(** The argument of [ai.models.generateContent]. *)
Record GenerateContentParameters : Type := mkParameters {
  model : ModelType;
  contents : Contents;
  config : option GenerationConfig
}.

(** The parts of a response the code reads. *)
Record InlineData : Type := mkInlineData {
  mimeType : option jsstring;
  data : option jsstring
}.

Record Part : Type := mkPart {
  inlineData : option InlineData
}.

Record Content : Type := mkContent {
  parts : option (list Part)
}.

Record Candidate : Type := mkCandidate {
  content : option Content
}.

Record GenerateContentResponse : Type := mkResponse {
  candidates : option (list Candidate);
  text : option jsstring
}.

(** What the module does to the outside: the requests it has sent (most
    recent first) and its calls of [console.error]. *)
Record Outside : Type := mkOutside {
  sent : list GenerateContentParameters;
  consoleErrors : nat
}.

Definition untouched : Outside := {| sent := []; consoleErrors := 0 |}.

(** The lines of the system instruction up to the interpolated summary. *)
Definition instruction_lines : list jsstring :=
  [empty_string;
   lit "    You are a visual interactive story engine designed to create gripping, cinematic adventures.";
   empty_string;
   lit "    CRITICAL RULES:";
   lit "    1. **NARRATIVE**: Must be in VERY SIMPLE ENGLISH. Grade 3 readability. Max 35 words. ";
   lit "       - START DIRECTLY with the action or visual. Do not say "
     ++ [34%N] ++ lit "You see" ++ [34%N] ++ lit ".";
   lit "       - INCLUDE A TWIST or UNEXPECTED DETAIL in every scene to keep it interesting.";
   lit "       - Focus on mystery, danger, or wonder.";
   lit "    2. **VISUAL PROMPT**: Describe a cinematic, high-resolution, digital art scene. Focus on lighting, atmosphere, and composition. NO TEXT in the image.";
   lit "    3. **OPTIONS**: Provide 2-3 simple choices. One should be risky or surprising.";
   lit "    4. **AMBIENCE**: Select the most appropriate soundscape: 'nature', 'mechanical', 'eerie', 'calm', 'chaos'.";
   lit "    ";
   lit "    Goal: Hook the player immediately. Make the story unpredictable.";
   lit "    ";
   lit "    Context:";
   lit "    Previous Story: "].

Definition line_feed : jsstring := [10%N].

Definition instruction_head : jsstring := join line_feed instruction_lines.

Definition instruction_tail : jsstring := line_feed ++ lit "  ".

Definition image_prompt_head : jsstring :=
  lit "Cinematic concept art, award winning, 8k resolution, dramatic lighting, detailed texture: ".

(** The request [generateSceneLogic] sends. *)
Definition logic_request (userInput historySummary : jsstring)
  : GenerateContentParameters :=
  {| model := LOGIC;
     contents := plain userInput;
     config := Some {| systemInstruction :=
                         instruction_head ++ historySummary ++ instruction_tail;
                       responseMimeType := lit "application/json";
                       schema := responseSchema |} |}.

(** The request [generateSceneImage] sends. *)
Definition image_request (visualPrompt : jsstring) : GenerateContentParameters :=
  {| model := IMAGE;
     contents := text_parts [image_prompt_head ++ visualPrompt];
     config := None |}.

Local Open Scope prog_scope.

Definition console_error : Prog Outside unit :=
  modify (fun o => {| sent := sent o; consoleErrors := S (consoleErrors o) |}).

Section Backend.

(** The key the build put in place of [process.env.API_KEY]. *)
Variable API_KEY : option jsstring.

(** What the hosted model answers to a request: a response, or a failure
    of the call. *)
Variable answer : GenerateContentParameters -> Completion GenerateContentResponse.

(** [JSON.parse], over whatever type its results are read at. *)
Variable Parsed : Type.
Variable JSON_parse : jsstring -> Completion Parsed.

(** [getClient()]; the SDK's constructor is taken to succeed. *)
Definition getClient : Prog Outside unit :=
  if negb (truthy_value API_KEY) then throw else ret tt.

(** [await ai.models.generateContent(p)] *)
Definition generateContent (p : GenerateContentParameters)
  : Prog Outside GenerateContentResponse :=
  fun o => (answer p, {| sent := p :: sent o; consoleErrors := consoleErrors o |}).

Definition generateSceneLogic (userInput historySummary : jsstring)
  : Prog Outside Parsed :=
  getClient;;
  response ← generateContent (logic_request userInput historySummary);
  match text response with
  | Some t => if negb (truthy t) then throw else fun o => (JSON_parse t, o)
  | None => throw
  end.

(** The [for] loop over the parts of the first candidate, with the
    [throw] that follows it. *)
Fixpoint first_inline_image (ps : list Part) : Prog Outside jsstring :=
  match ps with
  | part :: rest =>
      match inlineData part with
      | Some inline =>
          if truthy_value (data inline) then
            ret (lit "data:" ++ interpolate (mimeType inline) ++ lit ";base64,"
                 ++ interpolate (data inline))
          else first_inline_image rest
      | None => first_inline_image rest
      end
  | [] => throw
  end.

Definition generateSceneImage (visualPrompt : jsstring) : Prog Outside jsstring :=
  getClient;;
  try_catch
    (response ← generateContent (image_request visualPrompt);
     match candidates response with
     | Some (first :: _) =>
         (* [candidates[0].content.parts]: a [TypeError] when [content] or
            [parts] is [undefined] *)
         match content first with
         | Some c =>
             match parts c with
             | Some ps => first_inline_image ps
             | None => throw
             end
         | None => throw
         end
     | Some [] | None => throw
     end)
    (console_error;; throw).

End Backend.

(** A part carries image data the loop accepts. *)
Definition has_image (p : Part) : bool :=
  match inlineData p with
  | Some inline => truthy_value (data inline)
  | None => false
  end.

End Gemini.

(* ===================================================================== *)
(** ** What the page shows and offers ([App.tsx], the returned JSX) *)
(* ===================================================================== *)

Global Instance ActionOption_eq_dec : EqDecision ActionOption.
Proof. solve_decision. Defined.

Module Page.

Import Audio App Optional.

(** The landing card: the value of the text field and whether the
    "Initialize Simulation" button is disabled. *)
Record Landing : Type := mkLanding {
  value : jsstring;
  disabled : bool
}.

(** What [App] returns: the "SYSTEM ERROR" screen, or the page with its
    conditional blocks: the "Abort Sim" button, the landing page, the
    [GameCanvas] with its [scene] prop, the loader with its message, the
    error overlay with its text. *)
Inductive Screen : Type :=
| SystemError
| Main (abort : bool) (landing : option Landing)
       (canvas : option (option SceneData)) (loader : option jsstring)
       (errorOverlay : option jsstring).

Definition view (API_KEY : option jsstring) (w : World) : Screen :=
  let hasApiKey := truthy_value API_KEY in
  if negb hasApiKey then SystemError else
  let gameState := gameState w in
  Main (isPlaying gameState)
       (if negb (isPlaying gameState) && negb (loading gameState)
        then Some {| value := input w;
                     disabled := negb (truthy (trim (input w))) |}
        else None)
       (if isPlaying gameState then Some (currentScene gameState) else None)
       (if loading gameState then Some (loadingMessage gameState) else None)
       (if truthy_value (error gameState) then error gameState else None).

(** The game state between two events: the current scene is the last
    entry of the history, no round is in flight, and a session that is off
    has an empty history. *)
Definition at_rest (g : GameState) : Prop :=
  currentScene g = last (history g) /\
  loading g = false /\
  (isPlaying g = false -> history g = []).

Section Browser.

Variable initialState : ContextState.
Variable deviceSampleRate : Q.

(** [handleOptionClick] of [GameCanvas], with [onOptionSelect] bound to
    the [handleOptionSelect] of the render that passed it. *)
Definition handleOptionClick (gameState : GameState) (option : ActionOption)
  (svc : Services) : Prog World unit :=
  (on_audio (playClick initialState deviceSampleRate);;
   handleOptionSelect gameState option svc)%prog.

(** An event as the page handles it: an option is chosen through
    [handleOptionClick]. *)
Definition react (w : World) (op : Op) : World :=
  match op with
  | Advance o svc => exec (handleOptionClick (gameState w) o svc) w
  | _ => step initialState deviceSampleRate w op
  end.

(** Whether the page as rendered for [w] has the control that triggers
    [op]: the text field, the chips and the start button (which passes the
    current [input]) are on the landing page; the option buttons are those
    of the scene the canvas was given; "Abort Sim" is in the header while
    playing; "Reboot System" is on the error overlay. A timer needs no
    control. *)
Definition offers (API_KEY : option jsstring) (w : World) (op : Op) : bool :=
  match view API_KEY w with
  | SystemError =>
      match op with AudioStopFires => true | _ => false end
  | Main abort landing canvas loader errorOverlay =>
      match op with
      | Start p _ =>
          match landing with
          | Some _ => bool_decide (p = input w)
          | None => false
          end
      | TypeInput _ =>
          match landing with Some _ => true | None => false end
      | Advance o _ =>
          match canvas with
          | Some (Some scene) => bool_decide (o ∈ options scene)
          | _ => false
          end
      | Reset => abort
      | DismissError =>
          match errorOverlay with Some _ => true | None => false end
      | AudioStopFires => true
      end
  end.

(** A session: each event is one the page offers when it happens. *)
Fixpoint session (API_KEY : option jsstring) (w : World) (ops : list Op)
  : option World :=
  match ops with
  | [] => Some w
  | op :: rest =>
      if offers API_KEY w op then session API_KEY (react w op) rest else None
  end.

End Browser.

End Page.

(* ===================================================================== *)
(** ** The audio engine as a sequence of moves *)
(* ===================================================================== *)

Module Engine.

Import Audio.

(** One thing that happens to the engine: a call of a public method, the
    timeout of [stop()] coming due, or the browser changing the state of
    the context while [elapsed] seconds pass. *)
Inductive Move : Type :=
| Init
| Stop
| StopTimeout
| Resume
| PlayClick
| PlayTransition
| StopAmbience
| SetAmbience (type : Ambience)
| Browser (s : ContextState) (elapsed : Q).

Section Browser.

Variable initialState : ContextState.
Variable deviceSampleRate : Q.

Definition perform (am : AudioManager) (m : Move) : AudioManager :=
  match m with
  | Init => exec (init initialState deviceSampleRate) am
  | Stop => exec stop_now am
  | StopTimeout => exec stop_timeout am
  | Resume => exec resume am
  | PlayClick => exec (playClick initialState deviceSampleRate) am
  | PlayTransition => exec (playTransition initialState deviceSampleRate) am
  | StopAmbience => exec stopAmbience am
  | SetAmbience type => exec (setAmbience initialState deviceSampleRate type) am
  | Browser s elapsed => browser_moves s (clock am + elapsed)%Q am
  end.

Definition play (am : AudioManager) (moves : list Move) : AudioManager :=
  fold_left perform moves am.

End Browser.

(** The fixed part of the graph: the master gain is node [0] and its
    output goes to the destination and nowhere else; the ambience gain is
    node [1] and its output goes into the master gain and nowhere else. *)
Definition gain_chain (am : AudioManager) : Prop :=
  masterGain am = Some 0 /\
  ambienceGain am = Some 1 /\
  (forall d, In (connect 0 d) (log am) <-> d = destination) /\
  (forall d, In (connect 1 d) (log am) <-> d = node 0).

(** The move does not select the eerie mood. *)
Definition avoids_eerie (m : Move) : bool :=
  match m with
  | SetAmbience eerie => false
  | _ => true
  end.

(** Time does not run backwards. *)
Definition forward (m : Move) : bool :=
  match m with
  | Browser _ elapsed => Qle_bool 0 elapsed
  | _ => true
  end.

End Engine.

(* ===================================================================== *)
(** ** The game canvas ([GameCanvas] in [components/GameCanvas.tsx]) *)
(* ===================================================================== *)

Module Canvas.

Import Audio.

(** The bodies of the two [setTimeout] callbacks of the effect. *)
Inductive Task : Type :=
| ShowUI           (* [() => setShowUI(true)] *)
| CleanupScenes.   (* keep only the last rendered scene *)

Record Timeout : Type := mkTimeout {
  task : Task;
  ms : N                         (* the delay, in milliseconds *)
}.

(** The mounted component: its three [useState] cells, whether an update
    of one of them is waiting for a render, the browser's pending
    timeouts, the timers the pending cleanup of the effect clears, the
    [TypewriterText] child when it is rendered, the identity the next
    [() => setTextComplete(true)] arrow gets, and the audio singleton. *)
Record Component : Type := mkCanvas {
  renderedScenes : list SceneData;
  showUI : bool;
  textComplete : bool;
  dirty : bool;
  timeouts : gmap nat Timeout;
  nextTimeoutId : nat;
  cleanup : option (nat * nat);          (* [uiTimer], [cleanupTimer] *)
  typewriter : option Typewriter.Component;
  nextCallback : Typewriter.Callback;
  audio : AudioManager
}.

Definition with_renderedScenes (v : list SceneData) (c : Component) :=
  {| renderedScenes := v; showUI := showUI c; textComplete := textComplete c;
     dirty := dirty c; timeouts := timeouts c; nextTimeoutId := nextTimeoutId c;
     cleanup := cleanup c; typewriter := typewriter c;
     nextCallback := nextCallback c; audio := audio c |}.
Definition with_showUI (v : bool) (c : Component) :=
  {| renderedScenes := renderedScenes c; showUI := v; textComplete := textComplete c;
     dirty := dirty c; timeouts := timeouts c; nextTimeoutId := nextTimeoutId c;
     cleanup := cleanup c; typewriter := typewriter c;
     nextCallback := nextCallback c; audio := audio c |}.
Definition with_textComplete (v : bool) (c : Component) :=
  {| renderedScenes := renderedScenes c; showUI := showUI c; textComplete := v;
     dirty := dirty c; timeouts := timeouts c; nextTimeoutId := nextTimeoutId c;
     cleanup := cleanup c; typewriter := typewriter c;
     nextCallback := nextCallback c; audio := audio c |}.
Definition with_dirty (v : bool) (c : Component) :=
  {| renderedScenes := renderedScenes c; showUI := showUI c;
     textComplete := textComplete c;
     dirty := v; timeouts := timeouts c; nextTimeoutId := nextTimeoutId c;
     cleanup := cleanup c; typewriter := typewriter c;
     nextCallback := nextCallback c; audio := audio c |}.
Definition with_timeouts (v : gmap nat Timeout) (c : Component) :=
  {| renderedScenes := renderedScenes c; showUI := showUI c;
     textComplete := textComplete c;
     dirty := dirty c; timeouts := v; nextTimeoutId := nextTimeoutId c;
     cleanup := cleanup c; typewriter := typewriter c;
     nextCallback := nextCallback c; audio := audio c |}.
Definition with_nextTimeoutId (v : nat) (c : Component) :=
  {| renderedScenes := renderedScenes c; showUI := showUI c;
     textComplete := textComplete c;
     dirty := dirty c; timeouts := timeouts c; nextTimeoutId := v;
     cleanup := cleanup c; typewriter := typewriter c;
     nextCallback := nextCallback c; audio := audio c |}.
Definition with_cleanup (v : option (nat * nat)) (c : Component) :=
  {| renderedScenes := renderedScenes c; showUI := showUI c;
     textComplete := textComplete c;
     dirty := dirty c; timeouts := timeouts c; nextTimeoutId := nextTimeoutId c;
     cleanup := v; typewriter := typewriter c;
     nextCallback := nextCallback c; audio := audio c |}.
Definition with_typewriter (v : option Typewriter.Component) (c : Component) :=
  {| renderedScenes := renderedScenes c; showUI := showUI c;
     textComplete := textComplete c;
     dirty := dirty c; timeouts := timeouts c; nextTimeoutId := nextTimeoutId c;
     cleanup := cleanup c; typewriter := v;
     nextCallback := nextCallback c; audio := audio c |}.
Definition with_nextCallback (v : Typewriter.Callback) (c : Component) :=
  {| renderedScenes := renderedScenes c; showUI := showUI c;
     textComplete := textComplete c;
     dirty := dirty c; timeouts := timeouts c; nextTimeoutId := nextTimeoutId c;
     cleanup := cleanup c; typewriter := typewriter c;
     nextCallback := v; audio := audio c |}.
Definition with_audio (v : AudioManager) (c : Component) :=
  {| renderedScenes := renderedScenes c; showUI := showUI c;
     textComplete := textComplete c;
     dirty := dirty c; timeouts := timeouts c; nextTimeoutId := nextTimeoutId c;
     cleanup := cleanup c; typewriter := typewriter c;
     nextCallback := nextCallback c; audio := v |}.

(** The state setters. A setter given the value the cell already holds
    (for [setRenderedScenes], an updater that returns the array it was
    given, written [None]) asks for no render. *)
Definition setShowUI (v : bool) (c : Component) : Component :=
  with_dirty (dirty c || negb (eqb (showUI c) v)) (with_showUI v c).

Definition setTextComplete (v : bool) (c : Component) : Component :=
  with_dirty (dirty c || negb (eqb (textComplete c) v)) (with_textComplete v c).

Definition setRenderedScenes
  (updater : list SceneData -> option (list SceneData)) (c : Component)
  : Component :=
  match updater (renderedScenes c) with
  | Some array => with_dirty true (with_renderedScenes array c)
  | None => c
  end.

(** [setTimeout(task, ms)] and [clearTimeout(id)] *)
Definition setTimeout (t : Task) (delay : N) (c : Component) : nat * Component :=
  let id := nextTimeoutId c in
  (id, with_nextTimeoutId (S id)
         (with_timeouts (<[id := {| task := t; ms := delay |}]> (timeouts c)) c)).

Definition clearTimeout (id : nat) (c : Component) : Component :=
  with_timeouts (delete id (timeouts c)) c.

(** [renderedScenes[renderedScenes.length - 1]] *)
Definition activeScene (c : Component) : option SceneData :=
  last (renderedScenes c).

(** One run of the component function and the commit of what it returns.
    With no rendered scene it returns the placeholder; otherwise the
    [TypewriterText] child is there exactly when [showUI] holds, and it is
    handed the narrative of the active scene and a new arrow function. A
    child that is no longer returned is unmounted, which clears its
    interval. *)
Definition render (c : Component) : Component :=
  match activeScene c with
  | None => with_typewriter None c
  | Some scene =>
      if showUI c then
        let onComplete := nextCallback c in
        let child :=
          match typewriter c with
          | Some tw => tw
          | None => Typewriter.mounted
          end in
        with_nextCallback (S onComplete)
          (with_typewriter
             (Some (Typewriter.render (narrative scene) (Some onComplete) child)) c)
      else with_typewriter None c
  end.

(** The render React does after a handler, a timer callback or an effect
    that changed a cell, and does not do otherwise. *)
Definition flush (c : Component) : Component :=
  if dirty c then render (with_dirty false c) else c.

(** The function the effect returned, if it returned one. *)
Definition run_cleanup (c : Component) : Component :=
  match cleanup c with
  | Some (uiTimer, cleanupTimer) =>
      with_cleanup None (clearTimeout cleanupTimer (clearTimeout uiTimer c))
  | None => c
  end.

Section Browser.

Variable initialState : ContextState.
Variable deviceSampleRate : Q.

(** The body of [useEffect(..., [scene])]. *)
Definition effect (scene : option SceneData) (c : Component) : Component :=
  match scene with
  | None => c
  | Some scene =>
      let c := with_audio
                 (exec (playTransition initialState deviceSampleRate) (audio c)) c in
      let c := with_audio
                 (exec (setAmbience initialState deviceSampleRate (ambience scene))
                    (audio c)) c in
      let c := setRenderedScenes (fun prev =>
                 match last prev with
                 | Some top =>
                     if bool_decide (id top = id scene) then None
                     else Some (prev ++ [scene])
                 | None => Some (prev ++ [scene])
                 end) c in
      let c := setShowUI false c in
      let c := setTextComplete false c in
      let '(uiTimer, c) := setTimeout ShowUI 2000%N c in
      let '(cleanupTimer, c) := setTimeout CleanupScenes 2500%N c in
      with_cleanup (Some (uiTimer, cleanupTimer)) c
  end.

(** The component is mounted with the given [scene] prop. *)
Definition mount (scene : option SceneData) (am : AudioManager) : Component :=
  flush (effect scene (render
    {| renderedScenes := []; showUI := false; textComplete := false;
       dirty := false; timeouts := ∅; nextTimeoutId := 0; cleanup := None;
       typewriter := None; nextCallback := 0; audio := am |})).

(** The parent renders the component with a [scene] prop that is not the
    one of the previous render: the component renders, the cleanup of the
    previous effect runs, the effect runs again. *)
Definition scene_changes (scene : option SceneData) (c : Component) : Component :=
  flush (effect scene (run_cleanup (render c))).

End Browser.

(** The parent renders the component with the same [scene] prop. *)
Definition parent_renders (c : Component) : Component := render c.

(** The browser fires timeout [id]; a cleared timeout never fires. *)
Definition fire (id : nat) (c : Component) : Component :=
  match timeouts c !! id with
  | None => c
  | Some t =>
      let c := with_timeouts (delete id (timeouts c)) c in
      match task t with
      | ShowUI => flush (setShowUI true c)
      | CleanupScenes =>
          flush (setRenderedScenes (fun prev =>
                   if 1 <? length prev then
                     match last prev with
                     | Some top => Some [top]
                     | None => None
                     end
                   else None) c)
      end
  end.

(** The browser fires interval [intervalId] of the typewriter child; when
    that calls [onComplete], the arrow runs [setTextComplete(true)]. *)
Definition interval_fires (intervalId : nat) (c : Component) : Component :=
  match typewriter c with
  | None => c
  | Some tw =>
      let tw' := Typewriter.tick intervalId tw in
      let c := with_typewriter (Some tw') c in
      if length (Typewriter.completions tw) <? length (Typewriter.completions tw')
      then flush (setTextComplete true c)
      else c
  end.

Fixpoint interval_fires_times (m : nat) (intervalId : nat) (c : Component)
  : Component :=
  match m with
  | 0 => c
  | S m' => interval_fires_times m' intervalId (interval_fires intervalId c)
  end.

(** The component is removed: the cleanup of the effect runs and the
    child goes with it. *)
Definition unmount (c : Component) : Component :=
  with_typewriter None (run_cleanup c).

(** The text on display, when the typewriter is there. *)
Definition shown (c : Component) : option jsstring :=
  match typewriter c with
  | Some tw => Some (Typewriter.displayedText tw)
  | None => None
  end.

(** The live intervals of the typewriter child. *)
Definition live_intervals (c : Component) : gmap nat Typewriter.Interval :=
  match typewriter c with
  | Some tw => Typewriter.intervals tw
  | None => ∅
  end.

(** What can happen to a mounted canvas. The audio engine is the one
    object the whole program shares: between two events of the canvas the
    handlers of [App] and the timeout of [stop()] may have used it. *)
Inductive reachable (s : ContextState) (r : Q) : Component -> Prop :=
| reach_mount scene am : Audio.reachable am -> reachable s r (mount s r scene am)
| reach_scene scene c : reachable s r c -> reachable s r (scene_changes s r scene c)
| reach_parent c : reachable s r c -> reachable s r (parent_renders c)
| reach_fire id c : reachable s r c -> reachable s r (fire id c)
| reach_interval id c : reachable s r c -> reachable s r (interval_fires id c)
| reach_engine am c :
    reachable s r c -> Audio.reachable am -> reachable s r (with_audio am c).

(** Timers and callbacks in use are ones that were handed out, and the
    only pending timeouts are the two the pending cleanup clears. *)
Record sound (c : Component) : Prop := {
  snd_timeouts : forall n, is_Some (timeouts c !! n) ->
                 exists u k, cleanup c = Some (u, k) /\ (n = u \/ n = k);
  snd_cleanup : forall u k, cleanup c = Some (u, k) ->
                u < nextTimeoutId c /\ k < nextTimeoutId c;
  snd_callback : forall tw text cb,
                 typewriter c = Some tw ->
                 Typewriter.deps tw = Some (text, Some cb) -> cb < nextCallback c;
  snd_typewriter : forall tw, typewriter c = Some tw -> Typewriter.reachable tw;
  snd_audio : Audio.reachable (audio c)
}.

(** Between two events no update is left waiting for a render, and the
    typewriter is there only while the UI is shown. *)
Definition well_formed (c : Component) : Prop :=
  sound c /\ dirty c = false /\ (showUI c = false -> typewriter c = None).

End Canvas.

(* ===================================================================== *)
(** ** More sample data *)
(* ===================================================================== *)

Module Scenario.

Import Audio App Optional.

(** An environment file that sets two of the three variables, one of
    them to the empty string. *)
Definition dotenv : gmap string jsstring :=
  <["GEMINI_API_KEY"%string := empty_string]>
    (<["API_KEY"%string := lit "k-123"]> ∅).

(** A backend that answers the narrative request with a JSON text and the
    image request with two candidates. *)
Definition png : Gemini.Part :=
  {| Gemini.inlineData :=
       Some {| Gemini.mimeType := Some (lit "image/png");
               Gemini.data := Some (lit "iVBOR") |} |}.

Definition caption : Gemini.Part := {| Gemini.inlineData := None |}.

Definition hollow : Gemini.Part :=
  {| Gemini.inlineData :=
       Some {| Gemini.mimeType := Some (lit "image/png");
               Gemini.data := Some empty_string |} |}.

Definition candidate (ps : list Gemini.Part) : Gemini.Candidate :=
  {| Gemini.content := Some {| Gemini.parts := Some ps |} |}.

Definition backend (p : Gemini.GenerateContentParameters)
  : Completion Gemini.GenerateContentResponse :=
  match Gemini.model p with
  | Gemini.LOGIC =>
      Normal {| Gemini.candidates := None; Gemini.text := Some (lit "{}") |}
  | Gemini.IMAGE =>
      Normal {| Gemini.candidates := Some [candidate [caption; hollow; png; png];
                                           candidate []];
                Gemini.text := None |}
  end.

(** A backend whose first candidate carries no image. *)
Definition imageless (p : Gemini.GenerateContentParameters)
  : Completion Gemini.GenerateContentResponse :=
  Normal {| Gemini.candidates := Some [candidate [caption]; candidate [png]];
            Gemini.text := Some empty_string |}.

(** [JSON.parse] read at the type of lengths, enough to tell results apart. *)
Definition parse_length (s : jsstring) : Completion nat := Normal (length s).

(** Two scenes for the canvas. *)
Definition first_scene : SceneData := Sample.scene Sample.cockpit "1".
Definition second_scene : SceneData := Sample.scene Sample.cabin "2".

(** A world on the landing page with a premise typed in. *)
Definition typed_in : World :=
  step running 44100%Q initialWorld (TypeInput Sample.premise).





(** An evening without the eerie mood. *)
Definition quiet_evening : list Engine.Move :=
  [Engine.PlayClick;
   Engine.SetAmbience nature;
   Engine.Browser running 3%Q;
   Engine.PlayTransition;
   Engine.SetAmbience mechanical;
   Engine.Stop;
   Engine.Browser running 0.2%Q;
   Engine.StopTimeout;
   Engine.Browser suspended 1%Q;
   Engine.SetAmbience calm].

(** The canvas: mounted without a scene; given the first scene; with the
    UI shown; three code units into the narrative; given the second
    scene. *)
Definition empty_stage : Canvas.Component :=
  Canvas.mount running 44100%Q None Sample.initialised.

Definition first_staged : Canvas.Component :=
  Canvas.scene_changes running 44100%Q (Some first_scene) empty_stage.

Definition first_shown : Canvas.Component := Canvas.fire 0 first_staged.

Definition first_typewriter : Typewriter.Component :=
  Typewriter.render (narrative first_scene) (Some 0) Typewriter.mounted.

Definition revealing : Canvas.Component :=
  Canvas.interval_fires_times 3 0 first_shown.

Definition second_staged : Canvas.Component :=
  Canvas.scene_changes running 44100%Q (Some second_scene) revealing.

End Scenario.
(* ===================================================================== *)
(** * Properties *)
(* ===================================================================== *)

(** ** Running the model *)

Example trim_strips_both_ends :
  trim (lit "  hi there ") = lit "hi there" /\
  trim [9; 160; 104; 8232]%N = [104]%N.
Proof. split; reflexivity. Qed.

Example slice_counts_from_the_end :
  slice_from (-3) [1; 2; 3; 4; 5] = [3; 4; 5] /\
  slice_from (-3) [1; 2] = [1; 2] /\
  slice_from (-3) ([] : list nat) = [].
Proof. repeat split. Qed.

Example join_puts_separators_between :
  join (lit " -> ") [lit "a"; lit "b"; lit "c"] = lit "a -> b -> c" /\
  join (lit " -> ") [lit "a"] = lit "a" /\
  join (lit " -> ") [] = empty_string.
Proof. repeat split. Qed.

(** The premise "Waking up in a falling airplane..." answered with the
    cockpit scene: one scene in the history, mood chaos, one option. *)
Example first_start_gives_one_scene :
  let g := App.gameState Sample.started_world in
  length (history g) = 1 /\
  option_map ambience (currentScene g) = Some chaos /\
  option_map (fun s => map label (options s)) (currentScene g) =
    Some [lit "Pull the lever"] /\
  loading g = false /\ error g = None /\ isPlaying g = true.
Proof. repeat split. Qed.

Example init_builds_the_two_gains :
  Audio.chronicle Sample.initialised =
    [Audio.create Audio.GainNode 0;
     Audio.set_value 0 Audio.gain 0.5%Q;
     Audio.connect 0 Audio.destination;
     Audio.create Audio.GainNode 1;
     Audio.connect 1 (Audio.node 0)].
Proof. reflexivity. Qed.

Example two_ticks_show_two_code_units :
  Typewriter.displayedText Sample.mid_reveal = lit "he" /\
  Typewriter.completions Sample.mid_reveal = [].
Proof. split; reflexivity. Qed.

(** ** JavaScript helpers *)

Lemma trimStart_blank (s : jsstring) :
  forallb isWhiteSpace s = true -> trimStart s = [].
Proof.
  induction s as [|c s IH]; simpl; [reflexivity|].
  intros H. apply andb_prop in H as [Hc Hs]. rewrite Hc. auto.
Qed.

Lemma trim_blank (s : jsstring) :
  forallb isWhiteSpace s = true -> trim s = [].
Proof.
  intros H. unfold trim, trimEnd. rewrite (trimStart_blank s H). reflexivity.
Qed.

Lemma trimStart_not_blank (s : jsstring) :
  forallb isWhiteSpace s = false -> exists c s', trimStart s = c :: s' /\ isWhiteSpace c = false.
Proof.
  induction s as [|c s IH]; simpl; [discriminate|].
  destruct (isWhiteSpace c) eqn:Hc; simpl; eauto.
Qed.

Lemma trimStart_app_keep (s t : jsstring) c :
  isWhiteSpace c = false -> trimStart (s ++ c :: t) <> [].
Proof.
  intros Hc. induction s as [|d s IH]; simpl.
  - rewrite Hc. discriminate.
  - destruct (isWhiteSpace d); [exact IH | discriminate].
Qed.

(** [trim] leaves something exactly when some code unit is not blank. *)
Lemma truthy_trim (s : jsstring) :
  truthy (trim s) = negb (forallb isWhiteSpace s).
Proof.
  destruct (forallb isWhiteSpace s) eqn:H.
  - rewrite (trim_blank s H). reflexivity.
  - destruct (trimStart_not_blank s H) as (c & s' & E & Hc).
    unfold trim, trimEnd. rewrite E. simpl rev.
    destruct (trimStart (rev s' ++ [c])) as [|d u] eqn:E'.
    + exfalso. revert E'. apply trimStart_app_keep. exact Hc.
    + simpl. destruct (rev u); reflexivity.
Qed.

Lemma slice_from_last (A : Type) (k : nat) (a : list A) :
  0 < k ->
  slice_from (- Z.of_nat k) a = drop (length a - Nat.min k (length a)) a.
Proof.
  intros Hk. unfold slice_from.
  destruct (Z.ltb_spec (- Z.of_nat k) 0) as [_|H]; [|lia].
  f_equal. lia.
Qed.

(** ** The audio engine never throws *)

Section AudioTotal.

Import Audio.
Variable initialState : ContextState.
Variable deviceSampleRate : Q.

Lemma init_completes am : fst (init initialState deviceSampleRate am) = Normal tt.
Proof. revert am. intros [[[[] ? ? ? ?]|] ? ? ? ? ?]; destruct initialState; reflexivity. Qed.

Lemma resume_completes am : fst (resume am) = Normal tt.
Proof. revert am. intros [[[[] ? ? ? ?]|] [?|] ? ? ? ?]; reflexivity. Qed.

Lemma playClick_completes am :
  fst (playClick initialState deviceSampleRate am) = Normal tt.
Proof.
  revert am. intros [[[[] ? ? ? ?]|] [?|] ? ? ? ?];
    destruct initialState; reflexivity.
Qed.

Lemma stop_now_completes am : exists b, fst (stop_now am) = Normal b.
Proof.
  revert am. intros [[[[] ? ? ? ?]|] [?|] ? ? ? ?]; eexists; reflexivity.
Qed.

End AudioTotal.

(** ** The orchestrator *)

Section Orchestrator.

Import Audio App.
Variable initialState : ContextState.
Variable deviceSampleRate : Q.

Abbreviation handleStartGame := (handleStartGame initialState deviceSampleRate).
Abbreviation resetGame := (resetGame initialState deviceSampleRate).
Abbreviation step := (step initialState deviceSampleRate).
Abbreviation run := (run initialState deviceSampleRate).

Lemma on_audio_bind {T U} (a : Act T) (k : T -> Prog World U) (w : World) (v : T) :
  fst (a (audio w)) = Normal v ->
  bind (on_audio a) k w = k v (with_audio (snd (a (audio w))) w).
Proof.
  unfold bind, on_audio. destruct (a (audio w)) as [c am]. simpl.
  intros ->. reflexivity.
Qed.

(** The game state a Start with a non-blank premise leaves, by the
    outcome of its round. *)
Lemma handleStartGame_gameState p svc w :
  truthy (trim p) = true ->
  let g := gameState w in
  gameState (exec (handleStartGame p svc) w) =
    match scene_of svc with
    | Some sc =>
        {| isPlaying := true; currentScene := Some sc;
           history := [sc]; loading := false;
           loadingMessage := lit "Materializing World..."; error := None |}
    | None =>
        {| isPlaying := true; currentScene := currentScene g;
           history := history g; loading := false;
           loadingMessage :=
             match logicAnswer svc with
             | Normal _ => lit "Materializing World..."
             | Thrown => lit "Weaving the Narrative..."
             end;
           error := Some (lit "Simulation failed. Connection interrupted. Try again.") |}
    end.
Proof.
  intros Hp g. unfold exec, App.handleStartGame. rewrite Hp. cbn [negb].
  erewrite on_audio_bind by apply init_completes.
  erewrite on_audio_bind by apply resume_completes.
  erewrite on_audio_bind by apply playClick_completes.
  destruct svc as [[d|] [i|] [u|]]; reflexivity.
Qed.

Lemma handleStartGame_blank p svc w :
  truthy (trim p) = false -> handleStartGame p svc w = (Normal tt, w).
Proof. intros Hp. unfold App.handleStartGame. rewrite Hp. reflexivity. Qed.

(** The game state an Advance leaves when the captured render had a
    current scene, by the outcome of its round. *)
Lemma handleOptionSelect_gameState captured o svc w :
  currentScene captured <> None ->
  let g := gameState w in
  gameState (exec (handleOptionSelect captured o svc) w) =
    match scene_of svc with
    | Some sc =>
        {| isPlaying := isPlaying g; currentScene := Some sc;
           history := history g ++ [sc]; loading := false;
           loadingMessage := lit "Rendering Reality..."; error := None |}
    | None =>
        {| isPlaying := isPlaying g; currentScene := currentScene g;
           history := history g; loading := false;
           loadingMessage :=
             match logicAnswer svc with
             | Normal _ => lit "Rendering Reality..."
             | Thrown => lit "Unfolding Destiny..."
             end;
           error := Some (lit "Lost connection to the dream stream. Please retry.") |}
    end.
Proof.
  intros Hc g. unfold exec, handleOptionSelect.
  destruct (currentScene captured); [|congruence].
  destruct svc as [[d|] [i|] [u|]]; reflexivity.
Qed.

Lemma handleOptionSelect_no_scene captured o svc w :
  currentScene captured = None ->
  handleOptionSelect captured o svc w = (Normal tt, w).
Proof. intros Hc. unfold handleOptionSelect. rewrite Hc. reflexivity. Qed.

Lemma resetGame_gameState w :
  gameState (exec resetGame w) = initialGameState /\
  input (exec resetGame w) = empty_string.
Proof.
  unfold exec, App.resetGame.
  erewrite on_audio_bind by apply playClick_completes.
  match goal with
  | |- context [on_audio stop_now] =>
      destruct (stop_now_completes
                  (audio (with_audio
                     (snd (playClick initialState deviceSampleRate (audio w))) w)))
        as [b Hb]
  end.
  erewrite on_audio_bind by exact Hb.
  destruct b; split; reflexivity.
Qed.

(** What one event does to the history and to the presence of a scene,
    when it is neither a Reset nor a Start that goes through. *)
Lemma step_history w op :
  currentScene (gameState w) <> None ->
  is_reset op = false ->
  successful_start op = false ->
  history (gameState (step w op)) =
    history (gameState w) ++ advanced_scenes [op] /\
  currentScene (gameState (step w op)) <> None.
Proof.
  intros Hc Hr Hs. destruct op as [p svc|o svc| | |v|]; simpl in *.
  - (* a Start that does not go through *)
    destruct (truthy (trim p)) eqn:Hp.
    + rewrite handleStartGame_gameState by exact Hp.
      unfold answered in Hs. simpl in Hs.
      destruct (scene_of svc); simpl; try discriminate; rewrite app_nil_r; auto.
    + unfold exec. rewrite handleStartGame_blank by exact Hp. simpl.
      rewrite app_nil_r; auto.
  - rewrite handleOptionSelect_gameState by exact Hc.
    unfold advanced_scenes. simpl.
    destruct (scene_of svc); simpl; rewrite ?app_nil_r; auto.
  - discriminate.
  - unfold advanced_scenes. simpl. rewrite app_nil_r; auto.
  - unfold advanced_scenes. simpl. rewrite app_nil_r; auto.
  - unfold advanced_scenes, fire_audio_stop. simpl. rewrite app_nil_r.
    destruct (stopTimeouts w); auto.
Qed.

(** Whatever the state, an event other than a Reset or a Start that goes
    through leaves the history as it is or adds one scene at its end. *)
Lemma step_appends w op :
  is_reset op = false ->
  successful_start op = false ->
  exists tail, history (gameState (step w op)) = history (gameState w) ++ tail /\
               length tail <= 1.
Proof.
  intros Hr Hs.
  destruct (currentScene (gameState w)) as [sc|] eqn:Hc.
  - destruct (step_history w op) as [Hh _]; [rewrite Hc; discriminate|auto..|].
    exists (advanced_scenes [op]). split; [exact Hh|].
    unfold advanced_scenes. destruct op as [p svc|o svc| | |v|]; simpl; auto.
    destruct (scene_of svc); simpl; auto.
  - exists []. rewrite app_nil_r. split; [|simpl; lia].
    destruct op as [p svc|o svc| | |v|]; simpl in *; try discriminate; auto.
    + destruct (truthy (trim p)) eqn:Hp.
      * rewrite handleStartGame_gameState by exact Hp.
        unfold answered in Hs. simpl in Hs.
        destruct (scene_of svc); [discriminate|reflexivity].
      * unfold exec. now rewrite handleStartGame_blank.
    + unfold exec. now rewrite handleOptionSelect_no_scene.
    + unfold fire_audio_stop. destruct (stopTimeouts w); reflexivity.
Qed.

Lemma advanced_scenes_app ops1 ops2 :
  advanced_scenes (ops1 ++ ops2) = advanced_scenes ops1 ++ advanced_scenes ops2.
Proof. unfold advanced_scenes. apply omap_app. Qed.

Lemma advanced_scenes_length ops :
  length (advanced_scenes ops) = successful_advances ops.
Proof.
  unfold advanced_scenes, successful_advances.
  induction ops as [|op ops IH]; [reflexivity|].
  destruct op as [p svc|o svc| | |v|]; simpl; try exact IH.
  unfold answered. destruct (scene_of svc); simpl; auto.
Qed.

Lemma run_history ops : forall w,
  currentScene (gameState w) <> None ->
  forallb quiet ops = true ->
  history (gameState (run w ops)) =
    history (gameState w) ++ advanced_scenes ops /\
  currentScene (gameState (run w ops)) <> None.
Proof.
  induction ops as [|op ops IH]; intros w Hc Hq.
  - simpl. rewrite app_nil_r. auto.
  - simpl in Hq. apply andb_prop in Hq as [Hop Hq].
    unfold quiet in Hop. apply andb_prop in Hop as [Hr Hs].
    apply negb_true_iff in Hr, Hs.
    destruct (step_history w op Hc Hr Hs) as [Hh Hc'].
    destruct (IH (step w op) Hc' Hq) as [Hh' Hc''].
    change (run w (op :: ops)) with (run (step w op) ops).
    split; [|exact Hc''].
    rewrite Hh', Hh. rewrite <- app_assoc. f_equal.
    change (op :: ops) with ([op] ++ ops). now rewrite advanced_scenes_app.
Qed.

(** C1. After a Start that goes through, followed by any events that
    contain no Reset and no further successful Start, the history is the
    single scene of the Start followed by the scenes of the successful
    Advance calls, in order: its length is one plus their number, and the
    history reached after any earlier part of the sequence is a prefix of
    the final one. From any state at all, an event other than a Reset or a
    successful Start keeps the history or adds one scene at its end. *)
Theorem history_is_start_plus_advances w p svc ops :
  successful_start (Start p svc) = true ->
  forallb quiet ops = true ->
  let w0 := step w (Start p svc) in
  let w1 := run w0 ops in
  (exists sc, scene_of svc = Some sc /\ history (gameState w0) = [sc]) /\
  history (gameState w1) = history (gameState w0) ++ advanced_scenes ops /\
  length (history (gameState w1)) = 1 + successful_advances ops /\
  (forall ops1 ops2, ops = ops1 ++ ops2 ->
     history (gameState w1) =
       history (gameState (run w0 ops1)) ++ advanced_scenes ops2 /\
     length (advanced_scenes ops2) = successful_advances ops2) /\
  (forall w' op, quiet op = true ->
     exists tail,
       history (gameState (step w' op)) = history (gameState w') ++ tail /\
       length tail <= 1).
Proof.
  intros Hs Hq w0 w1. simpl in Hs. apply andb_prop in Hs as [Hp Ha].
  assert (H0 : exists sc, scene_of svc = Some sc /\
                 gameState w0 =
                   {| isPlaying := true; currentScene := Some sc;
                      history := [sc]; loading := false;
                      loadingMessage := lit "Materializing World...";
                      error := None |}).
  { subst w0. simpl. rewrite handleStartGame_gameState by exact Hp.
    unfold answered in Ha. destruct (scene_of svc); [eauto|discriminate]. }
  destruct H0 as (sc & Hsc & Hw0).
  assert (Hc : currentScene (gameState w0) <> None) by (rewrite Hw0; discriminate).
  destruct (run_history ops w0 Hc Hq) as [Hh _]. fold w1 in Hh.
  split; [exists sc; rewrite Hw0; auto|].
  split; [exact Hh|].
  split; [|split].
  - rewrite Hh, length_app, advanced_scenes_length, Hw0. reflexivity.
  - intros ops1 ops2 ->. split; [|apply advanced_scenes_length].
    rewrite forallb_app in Hq. apply andb_prop in Hq as [Hq1 _].
    destruct (run_history ops1 w0 Hc Hq1) as [Hh1 _].
    rewrite Hh, Hh1, advanced_scenes_app. apply app_assoc.
  - intros w' op Hop. unfold quiet in Hop. apply andb_prop in Hop as [Hr Hs'].
    apply negb_true_iff in Hr, Hs'. now apply step_appends.
Qed.

(** C2. An Advance that reaches its requests (the captured render has a
    current scene) and in which the narrative request or the image request
    throws leaves the history and the current scene as they were, clears
    [loading], and sets the Advance error message; nothing is appended. *)
Theorem failed_advance_discards_round captured o svc w :
  currentScene captured <> None ->
  logicAnswer svc = Thrown \/ imageAnswer svc = Thrown ->
  let g := gameState w in
  let g' := gameState (exec (handleOptionSelect captured o svc) w) in
  history g' = history g /\
  currentScene g' = currentScene g /\
  loading g' = false /\
  error g' = Some (lit "Lost connection to the dream stream. Please retry.").
Proof.
  intros Hc Hf g g'. subst g'.
  rewrite handleOptionSelect_gameState by exact Hc. fold g.
  assert (Hnone : scene_of svc = None).
  { unfold scene_of. destruct Hf as [-> | ->]; [|destruct (logicAnswer svc)];
      reflexivity. }
  rewrite Hnone. auto.
Qed.

(** C4. Reset, from any state, leaves exactly the initial idle game state:
    no scene, empty history, not loading, empty loading message, no error,
    not playing (and the premise input is emptied). *)
Theorem reset_restores_initial_state w :
  gameState (step w Reset) = initialGameState /\
  gameState (step w Reset) =
    {| isPlaying := false; currentScene := None; history := [];
       loading := false; loadingMessage := []; error := None |} /\
  gameState (step w Reset) = gameState initialWorld /\
  input (step w Reset) = [].
Proof.
  destruct (resetGame_gameState w) as [Hg Hi]. simpl.
  rewrite Hg, Hi. auto.
Qed.

(** C7. An Advance that reaches its requests sends, as the context of the
    narrative request, the narratives of the last [min 3 (length h)]
    entries of the captured history [h], in order and joined with [" -> "];
    whatever precedes the last three entries does not show in it. *)
Theorem advance_context_is_last_three captured o svc w :
  currentScene captured <> None ->
  let h := history captured in
  let context :=
    join (lit " -> ") (map narrative (drop (length h - Nat.min 3 (length h)) h)) in
  requests (exec (handleOptionSelect captured o svc) w) =
    match logicAnswer svc with
    | Normal d => [generateSceneImage_request (Logic.visualPrompt d)]
    | Thrown => []
    end ++ generateSceneLogic_request (actionPrompt o) context :: requests w /\
  (forall older recent, h = older ++ recent -> length recent = 3 ->
     context = join (lit " -> ") (map narrative recent)).
Proof.
  intros Hc h context. split.
  - unfold exec, handleOptionSelect.
    destruct (currentScene captured); [|congruence].
    subst context h.
    rewrite <- (slice_from_last _ 3) by lia.
    destruct svc as [[d|] [i|] [u|]]; reflexivity.
  - intros older recent Hh Hl. subst context. rewrite Hh.
    rewrite length_app, Hl.
    replace (length older + 3 - Nat.min 3 (length older + 3)) with (length older) by lia.
    now rewrite drop_app_length.
Qed.

(** C9. A Start whose premise is empty or made of whitespace only does
    nothing at all: game state, premise input, audio engine, pending
    timers and the log of requests are all as before. *)
Theorem blank_start_is_noop p svc w :
  forallb isWhiteSpace p = true ->
  handleStartGame p svc w = (Normal tt, w) /\ step w (Start p svc) = w.
Proof.
  intros Hp.
  assert (H : handleStartGame p svc w = (Normal tt, w)).
  { apply handleStartGame_blank. rewrite truthy_trim, Hp. reflexivity. }
  split; [exact H|]. simpl. unfold exec. now rewrite H.
Qed.

(** C10. With no current scene, selecting an option does nothing at all,
    whichever option it is and whatever the services would answer. *)
Theorem advance_without_scene_is_noop o svc w :
  currentScene (gameState w) = None ->
  handleOptionSelect (gameState w) o svc w = (Normal tt, w) /\
  step w (Advance o svc) = w.
Proof.
  intros Hc.
  pose proof (handleOptionSelect_no_scene (gameState w) o svc w Hc) as H.
  split; [exact H|]. simpl. unfold exec. now rewrite H.
Qed.

End Orchestrator.

(** ** The typewriter *)

Section TypewriterFacts.

Import Typewriter.

Lemma render_changed text cb c :
  deps c <> Some (text, cb) ->
  render text cb c = effect text cb (run_cleanup c).
Proof.
  intros H. unfold render. rewrite bool_decide_eq_false_2 by exact H. reflexivity.
Qed.

(** A cleared interval never fires again. *)
Lemma tick_cleared n c : intervals c !! n = None -> tick n c = c.
Proof. intros H. unfold tick. rewrite H. reflexivity. Qed.


Lemma well_formed_tick n c : well_formed c -> well_formed (tick n c).
Proof.
  intros [Hc Hi]. unfold tick.
  destruct (intervals c !! n) as [iv|] eqn:E; [|split; assumption].
  destruct (i iv <? length (text iv)).
  - split; simpl; [exact Hc|].
    intros k Hk. destruct (decide (n = k)) as [->|Hne].
    + apply Hi. rewrite E. eauto.
    + rewrite lookup_insert_ne in Hk by exact Hne. auto.
  - assert (Hshape : forall f d, cleanup (call_onComplete f d) = cleanup d /\
                       intervals (call_onComplete f d) = intervals d /\
                       nextIntervalId (call_onComplete f d) = nextIntervalId d)
      by (intros [f|] d; auto).
    destruct (Hshape (onComplete iv) (clearInterval n c)) as (H1 & H2 & H3).
    split; rewrite ?H1, ?H2, ?H3; simpl; [exact Hc|].
    intros k Hk. destruct (decide (n = k)) as [->|Hne].
    + rewrite lookup_delete_eq in Hk. destruct Hk; discriminate.
    + rewrite lookup_delete_ne in Hk by exact Hne. auto.
Qed.

Lemma run_cleanup_clears c :
  well_formed c -> forall n, intervals (run_cleanup c) !! n = None.
Proof.
  intros [Hc Hi] n. unfold run_cleanup.
  destruct (cleanup c) as [k|] eqn:E; simpl.
  - destruct (decide (k = n)) as [->|Hne].
    + apply lookup_delete_eq.
    + rewrite lookup_delete_ne by exact Hne.
      destruct (intervals c !! n) eqn:En; [|reflexivity].
      exfalso. apply Hne. assert (Some k = Some n) by (apply Hi; eauto). congruence.
  - destruct (intervals c !! n) eqn:En; [|reflexivity].
    assert (None = Some n) by (apply Hi; eauto). discriminate.
Qed.

Lemma well_formed_render text cb c : well_formed c -> well_formed (render text cb c).
Proof.
  intros Hwf. unfold render. case_bool_decide; [exact Hwf|].
  pose proof (run_cleanup_clears c Hwf) as Hnone.
  split; simpl.
  - intros n [= <-]. lia.
  - intros n Hn.
    destruct (decide (nextIntervalId (run_cleanup c) = n)) as [->|Hne]; [reflexivity|].
    rewrite lookup_insert_ne in Hn by exact Hne.
    rewrite Hnone in Hn. destruct Hn; discriminate.
Qed.

Lemma reachable_well_formed c : reachable c -> well_formed c.
Proof.
  induction 1 as [|text cb c _ IH|n c _ IH].
  - split; simpl; [discriminate|].
    intros n Hn. rewrite lookup_empty in Hn. destruct Hn; discriminate.
  - now apply well_formed_render.
  - now apply well_formed_tick.
Qed.

Lemma run_cleanup_frame c :
  displayedText (run_cleanup c) = displayedText c /\
  nextIntervalId (run_cleanup c) = nextIntervalId c /\
  completions (run_cleanup c) = completions c.
Proof. unfold run_cleanup. destruct (cleanup c); auto. Qed.



End TypewriterFacts.

(** ** The audio engine *)

Section AmbienceFacts.

Import Audio.
Variable initialState : ContextState.
Variable deviceSampleRate : Q.

Abbreviation setAmbience := (setAmbience initialState deviceSampleRate).

(** [setAmbience] with a mood other than the current one, on a live
    context: wake the context, tear the tracked nodes down, fade the
    ambience gain in, build the graph of the mood. *)
Lemma setAmbience_switch type am x g :
  ctx am = Some x ->
  ambienceGain am = Some g ->
  currentAmbienceType am <> Some type ->
  exec (setAmbience type) am =
    {| ctx := Some
         {| state := state x; currentTime := currentTime x;
            sampleRate := sampleRate x;
            calls := graph_calls type (nodes x) g (currentTime x) (sampleRate x) ++
                     fade_in_calls g (currentTime x) ++
                     teardown_calls (ambienceNode am) (lfo am) ++
                     wake_calls x (masterGain am) ++ calls x;
            nodes := graph_size type + nodes x |};
       masterGain := masterGain am;
       ambienceNode := Some (nodes x);
       ambienceGain := Some g;
       lfo := graph_lfo type (nodes x);
       currentAmbienceType := Some type |}.
Proof.
  destruct am as [c mg an ag l ty]. simpl. intros -> -> Hty.
  destruct x as [st t sr cl n].
  destruct type, st, mg, an, l, ty as [[]|]; try congruence;
    vm_compute; reflexivity.
Qed.

(** [setAmbience] with the mood that is already current. *)
Lemma setAmbience_same type am x :
  ctx am = Some x ->
  currentAmbienceType am = Some type ->
  exec (setAmbience type) am =
    with_ctx (Some {| state := state x; currentTime := currentTime x;
                      sampleRate := sampleRate x;
                      calls := wake_calls x (masterGain am) ++ calls x;
                      nodes := nodes x |}) am.
Proof.
  destruct am as [c mg an ag l ty]. simpl. intros -> ->.
  destruct x as [st t sr cl n].
  destruct st, mg, an, ag, l, type; vm_compute; reflexivity.
Qed.

Lemma stopAmbience_closed am :
  exec stopAmbience am =
    match ctx am with
    | Some x =>
        {| ctx := Some {| state := state x; currentTime := currentTime x;
                          sampleRate := sampleRate x;
                          calls := teardown_calls (ambienceNode am) (lfo am) ++ calls x;
                          nodes := nodes x |};
           masterGain := masterGain am; ambienceNode := None;
           ambienceGain := ambienceGain am; lfo := None;
           currentAmbienceType := currentAmbienceType am |}
    | None =>
        {| ctx := None; masterGain := masterGain am; ambienceNode := None;
           ambienceGain := ambienceGain am; lfo := None;
           currentAmbienceType := currentAmbienceType am |}
    end.
Proof.
  destruct am as [[[st t sr cl n]|] mg an ag l ty]; destruct an, l; reflexivity.
Qed.

Lemma stop_timeout_closed am x :
  ctx am = Some x ->
  exec stop_timeout am =
    {| ctx := Some (push (suspend_calls x ++
                          teardown_calls (ambienceNode am) (lfo am)) 0 x);
       masterGain := masterGain am; ambienceNode := None;
       ambienceGain := ambienceGain am; lfo := None;
       currentAmbienceType := None |}.
Proof.
  destruct am as [c mg an ag l ty]. simpl. intros ->.
  destruct x as [[] t sr cl n]; destruct an, l; vm_compute; reflexivity.
Qed.

Lemma init_closed am x :
  ctx am = Some x ->
  exec (init initialState deviceSampleRate) am =
    with_ctx (Some (push (resume_calls x) 0 x)) am.
Proof.
  destruct am as [c mg an ag l ty]. simpl. intros ->.
  destruct x as [[] t sr cl n]; vm_compute; reflexivity.
Qed.

Lemma resume_closed am x :
  ctx am = Some x ->
  exec resume am = with_ctx (Some (push (unmute_calls x (masterGain am)) 0 x)) am.
Proof.
  destruct am as [c mg an ag l ty]. simpl. intros ->.
  destruct x as [[] t sr cl n], mg; vm_compute; reflexivity.
Qed.

Lemma stop_now_closed am x :
  ctx am = Some x ->
  exec stop_now am = with_ctx (Some (push (mute_calls x (masterGain am)) 0 x)) am.
Proof.
  destruct am as [c mg an ag l ty]. simpl. intros ->.
  destruct x as [[] t sr cl n], mg; vm_compute; reflexivity.
Qed.

Lemma playClick_closed am x mg :
  ctx am = Some x -> masterGain am = Some mg ->
  exec (playClick initialState deviceSampleRate) am =
    with_ctx (Some (push (click_calls (nodes x) mg (currentTime x) ++
                          resume_calls x) 2 x)) am.
Proof.
  destruct am as [c m an ag l ty]. simpl. intros -> ->.
  destruct x as [[] t sr cl n]; vm_compute; reflexivity.
Qed.

Lemma playTransition_closed am x mg :
  ctx am = Some x -> masterGain am = Some mg ->
  exec (playTransition initialState deviceSampleRate) am =
    with_ctx (Some (push (transition_calls (nodes x) mg (currentTime x) (sampleRate x)
                          ++ resume_calls x) 3 x)) am.
Proof.
  destruct am as [c m an ag l ty]. simpl. intros -> ->.
  destruct x as [[] t sr cl n]; vm_compute; reflexivity.
Qed.

(** On an engine without a context, every method that starts with
    [init()] goes on as from [created]. *)
Lemma fresh_init :
  exec (init initialState deviceSampleRate) fresh =
  exec (init initialState deviceSampleRate) (created initialState deviceSampleRate).
Proof. destruct initialState; vm_compute; reflexivity. Qed.

Lemma fresh_playClick :
  exec (playClick initialState deviceSampleRate) fresh =
  exec (playClick initialState deviceSampleRate)
    (created initialState deviceSampleRate).
Proof. destruct initialState; vm_compute; reflexivity. Qed.

Lemma fresh_playTransition :
  exec (playTransition initialState deviceSampleRate) fresh =
  exec (playTransition initialState deviceSampleRate)
    (created initialState deviceSampleRate).
Proof. destruct initialState; vm_compute; reflexivity. Qed.

Lemma fresh_setAmbience type :
  exec (setAmbience type) fresh =
  exec (setAmbience type) (created initialState deviceSampleRate).
Proof. destruct type, initialState; vm_compute; reflexivity. Qed.

(** *** Reading the log *)

Lemma is_source_In l n :
  is_source l n = true <->
  In (create OscillatorNode n) l \/ In (create AudioBufferSourceNode n) l.
Proof.
  unfold is_source. rewrite existsb_exists. split.
  - intros (c & Hc & E). destruct c as [[] m| | | | | | | | | | | | | | |];
      try discriminate; apply Nat.eqb_eq in E; subst; auto.
  - intros [H|H]; eexists; (split; [exact H|]); simpl; apply Nat.eqb_refl.
Qed.

Lemma started_In l n : started l n = true <-> In (start n) l.
Proof.
  unfold started. rewrite existsb_exists. split.
  - intros (c & Hc & E). destruct c; try discriminate.
    apply Nat.eqb_eq in E; subst; auto.
  - intros H; eexists; (split; [exact H|]); simpl; apply Nat.eqb_refl.
Qed.

Lemma stopped_In l n : stopped l n = true <-> In (stop n None) l.
Proof.
  unfold stopped. rewrite existsb_exists. split.
  - intros (c & Hc & E). destruct c as [| | | | | | | | | | | | |m [t|]| |];
      try discriminate. apply Nat.eqb_eq in E; subst; auto.
  - intros H; eexists; (split; [exact H|]); simpl; apply Nat.eqb_refl.
Qed.

Lemma stopped_not_In l n : stopped l n = false <-> ~ In (stop n None) l.
Proof.
  rewrite <- stopped_In. destruct (stopped l n); split; congruence.
Qed.

Lemma scheduled_In l n t : In t (scheduled_stops l n) <-> In (stop n (Some t)) l.
Proof.
  unfold scheduled_stops. induction l as [|c l IH]; [simpl; tauto|].
  destruct c as [| | | | | | | | | | | | |m [u|]| |]; simpl; rewrite ?IH;
    try (split; [auto|intros [H|H]; [discriminate|auto]]).
  destruct (Nat.eqb_spec n m) as [->|Hne]; simpl; rewrite IH.
  - split; intros [H|H]; auto; [left; congruence|injection H; auto].
  - split; [auto|]. intros [H|H]; [injection H; intros; subst; congruence|auto].
Qed.

(** [sounding], read off the log. *)
Lemma sounding_In l now n :
  sounding l now n <->
  (In (create OscillatorNode n) l \/ In (create AudioBufferSourceNode n) l) /\
  In (start n) l /\
  ~ In (stop n None) l /\
  forall t, In (stop n (Some t)) l -> (now < t)%Q.
Proof.
  unfold sounding. rewrite is_source_In, started_In, stopped_not_In.
  split; intros (H1 & H2 & H3 & H4); repeat split; auto;
    intros t Ht; apply H4, scheduled_In, Ht.
Qed.

(** A bounded log says nothing about nodes that do not exist yet. *)
Lemma bounded_subject k l c :
  Forall (call_bounded k) l -> In c l -> below k (subject c).
Proof.
  intros H Hc. rewrite List.Forall_forall in H. exact (proj1 (H c Hc)).
Qed.

Lemma bounded_target k l a d :
  Forall (call_bounded k) l -> In (connect a d) l -> below k (target d).
Proof.
  intros H Hc. rewrite List.Forall_forall in H. exact (proj2 (H _ Hc)).
Qed.

Lemma bounded_weaken k k' l :
  k <= k' -> Forall (call_bounded k) l -> Forall (call_bounded k') l.
Proof.
  intros Hk. apply List.Forall_impl. intros c [H1 H2]. split.
  - destruct (subject c); simpl in *; lia.
  - destruct c; auto. destruct (target d); simpl in *; lia.
Qed.

Lemma feeds_weaken l l' a b :
  (forall n d, In (connect n d) l -> In (connect n d) l') ->
  feeds l a b -> feeds l' a b.
Proof.
  intros Hin. induction 1 as [a|a b c (d & Hd & Ht) _ IH].
  - constructor.
  - eapply feeds_step; [|exact IH]. exists d. auto.
Qed.

(** From an old node, only old wires can be followed: what the newer
    calls connect starts at newer nodes. *)
Lemma feeds_old k L old a b :
  Forall (call_bounded k) old ->
  (forall n d, In (connect n d) L -> k <= n \/ In (connect n d) old) ->
  a < k ->
  feeds L a b -> feeds old a b.
Proof.
  intros Hold Hnew Ha H. induction H as [a|a b c (d & Hd & Ht) _ IH].
  - constructor.
  - apply Hnew in Hd as [Hd|Hd]; [lia|].
    eapply feeds_step.
    + exists d. eauto.
    + apply IH. pose proof (bounded_target _ _ _ _ Hold Hd) as Hb.
      rewrite Ht in Hb. exact Hb.
Qed.

(** *** The phases of a switch *)

Lemma wake_quiet x mg c : In c (wake_calls x mg) -> touches_graph c = false.
Proof.
  unfold wake_calls. case_bool_decide; [|intros []].
  destruct mg; simpl; intuition (subst; reflexivity).
Qed.

Lemma fade_quiet g t c : In c (fade_in_calls g t) -> touches_graph c = false.
Proof. simpl. intuition (subst; reflexivity). Qed.

Lemma teardown_In an l c :
  In c (teardown_calls an l) <->
  exists k, c = stop k None /\ (an = Some k \/ l = Some k).
Proof.
  unfold teardown_calls. destruct an as [a|], l as [b|]; simpl; split;
    try (intros [k [-> [E|E]]]; inversion E; subst; auto);
    intuition (subst; eauto).
Qed.

Lemma switch_log_In graph g t an l x mg old c :
  touches_graph c = true ->
  In c (graph ++ fade_in_calls g t ++ teardown_calls an l ++
        wake_calls x mg ++ old) <->
  In c graph \/
  (exists k, c = stop k None /\ (an = Some k \/ l = Some k)) \/
  In c old.
Proof.
  intros Hc. rewrite !in_app_iff, teardown_In. split.
  - intros [H|[H|[H|[H|H]]]]; auto.
    + apply fade_quiet in H. congruence.
    + apply wake_quiet in H. congruence.
  - intros [H|[H|H]]; auto.
Qed.

(** *** The graph of a mood *)

Ltac graph_cases type :=
  destruct type; unfold graph_calls, graph_sources, noise_calls; simpl.

Lemma graph_source_created type n g t r k :
  In (create OscillatorNode k) (graph_calls type n g t r) \/
  In (create AudioBufferSourceNode k) (graph_calls type n g t r) <->
  In k (graph_sources type n).
Proof.
  graph_cases type; split; intuition (try discriminate; try congruence).
Qed.

Lemma graph_started type n g t r k :
  In (start k) (graph_calls type n g t r) <-> In k (graph_sources type n).
Proof.
  graph_cases type; split; intuition (try discriminate; try congruence).
Qed.

Lemma graph_never_stops type n g t r k :
  ~ In (stop k None) (graph_calls type n g t r).
Proof. graph_cases type; intuition discriminate. Qed.

Lemma graph_schedules_ahead type n g t r k t' :
  In (stop k (Some t')) (graph_calls type n g t r) -> (t < t')%Q.
Proof.
  graph_cases type; intuition (try discriminate).
  match goal with H : stop _ _ = stop _ _ |- _ => injection H as _ <- end. lra.
Qed.

Lemma graph_acts_on_new type n g t r c m :
  In c (graph_calls type n g t r) -> subject c = Some m -> n <= m.
Proof.
  graph_cases type; intuition (subst; simpl in *; try discriminate;
    match goal with H : Some _ = Some _ |- _ => injection H as <-; lia end).
Qed.

Lemma graph_sources_new type n k :
  In k (graph_sources type n) -> n <= k < graph_size type + n.
Proof. destruct type; simpl; intuition lia. Qed.

Lemma graph_feeds_gain type n g t r k :
  In k (graph_sources type n) -> feeds (graph_calls type n g t r) k g.
Proof.
  assert (W : forall l a b, In (connect a (node b)) l -> wired l a b)
    by (intros l a b H; exists (node b); auto).
  assert (P : forall l a b p, In (connect a (param b p)) l -> wired l a b)
    by (intros l a b p H; exists (param b p); auto).
  graph_cases type; intros [<-|[<-|[]]] || intros [<-|[]].
  (* nature: the noise source, then the wind oscillator *)
  - eapply feeds_step; [apply (W _ n (S n)); simpl; auto 20|].
    eapply feeds_step; [apply (W _ (S n) g); simpl; auto 20|]. constructor.
  - eapply feeds_step; [apply (W _ (S (S n)) (S (S (S n)))); simpl; auto 20|].
    eapply feeds_step;
      [apply (P _ (S (S (S n))) (S n) frequency); simpl; auto 20|].
    eapply feeds_step; [apply (W _ (S n) g); simpl; auto 20|]. constructor.
  (* mechanical: the drone, then the throbbing oscillator *)
  - eapply feeds_step; [apply (W _ n (S (S (S n)))); simpl; auto 20|].
    eapply feeds_step; [apply (W _ (S (S (S n))) g); simpl; auto 20|]. constructor.
  - eapply feeds_step; [apply (W _ (S n) (S (S n))); simpl; auto 20|].
    eapply feeds_step;
      [apply (P _ (S (S n)) (S (S (S n))) frequency); simpl; auto 20|].
    eapply feeds_step; [apply (W _ (S (S (S n))) g); simpl; auto 20|]. constructor.
  (* eerie: the two detuned oscillators *)
  - eapply feeds_step; [apply (W _ n (S (S n))); simpl; auto 20|].
    eapply feeds_step; [apply (W _ (S (S n)) g); simpl; auto 20|]. constructor.
  - eapply feeds_step; [apply (W _ (S n) (S (S n))); simpl; auto 20|].
    eapply feeds_step; [apply (W _ (S (S n)) g); simpl; auto 20|]. constructor.
  (* calm, chaos: the noise source *)
  - eapply feeds_step; [apply (W _ n (S n)); simpl; auto 20|].
    eapply feeds_step; [apply (W _ (S n) g); simpl; auto 20|]. constructor.
  - eapply feeds_step; [apply (W _ n (S n)); simpl; auto 20|].
    eapply feeds_step; [apply (W _ (S n) g); simpl; auto 20|]. constructor.
Qed.

Lemma graph_bounded type n g t r :
  g < n -> Forall (call_bounded (graph_size type + n)) (graph_calls type n g t r).
Proof.
  intros Hg. graph_cases type;
    repeat (apply List.Forall_cons; [split; simpl; lia|]); constructor.
Qed.

Lemma fade_bounded k g t : g < k -> Forall (call_bounded k) (fade_in_calls g t).
Proof.
  intros Hg. repeat (apply List.Forall_cons; [split; simpl; auto|]). constructor.
Qed.

Lemma teardown_bounded k an l :
  below k an -> below k l -> Forall (call_bounded k) (teardown_calls an l).
Proof.
  intros Ha Hl. unfold teardown_calls. destruct an, l; simpl in *;
    repeat (apply List.Forall_cons; [split; simpl; auto|]); constructor.
Qed.

Lemma wake_bounded k x mg : below k mg -> Forall (call_bounded k) (wake_calls x mg).
Proof.
  intros Hm. unfold wake_calls. case_bool_decide; [|constructor].
  destruct mg; simpl in *;
    repeat (apply List.Forall_cons; [split; simpl; auto|]); constructor.
Qed.

(** *** What a switch of mood leaves sounding *)

Lemma well_formed_ctx am x :
  well_formed am -> ctx am = Some x ->
  Forall (call_bounded (nodes x)) (calls x) /\
  below (nodes x) (masterGain am) /\ below (nodes x) (ambienceGain am) /\
  below (nodes x) (ambienceNode am) /\ below (nodes x) (lfo am).
Proof.
  intros [H1 H2 H3 H4 H5] E. unfold node_count, log in *. rewrite E in *. auto.
Qed.

(** After a switch, the sounding sources of the ambience graph are the
    sources of the new mood's graph, and whatever was sounding before
    without being tracked. *)
Lemma switch_live type am x g :
  ctx am = Some x ->
  ambienceGain am = Some g ->
  well_formed am ->
  currentAmbienceType am <> Some type ->
  forall k, ambience_live (exec (setAmbience type) am) k <->
            In k (graph_sources type (nodes x)) \/
            (ambience_live am k /\ ~ tracked am k).
Proof.
  intros Hx Hg Hwf Hty k.
  destruct (well_formed_ctx am x Hwf Hx) as (Hold & _ & Hgb & Hanb & Hlb).
  rewrite Hg in Hgb. simpl in Hgb.
  rewrite (setAmbience_switch type am x g Hx Hg Hty).
  set (graph := graph_calls type (nodes x) g (currentTime x) (sampleRate x)).
  set (L := graph ++ _).
  assert (HL : forall c, touches_graph c = true ->
             In c L <->
             In c graph \/
             (exists j, c = stop j None /\ (ambienceNode am = Some j \/ lfo am = Some j)) \/
             In c (calls x)) by (intros c Hc; apply switch_log_In; exact Hc).
  assert (Hnew : forall c m, In c graph -> subject c = Some m -> nodes x <= m)
    by (intros c m; apply graph_acts_on_new).
  assert (Hup : forall c, touches_graph c = true -> In c (calls x) -> In c L)
    by (intros c Hc H; apply HL; auto).
  (* what a call of the new log on an old node can only be *)
  assert (Hdown : forall c, touches_graph c = true -> subject c = Some k ->
            k < nodes x -> In c L ->
            (c = stop k None /\ tracked am k) \/ In c (calls x)).
  { intros c Hc Hs Hk H. apply HL in H; [|exact Hc].
    destruct H as [H|[(j & -> & Ht)|H]]; [|left|right; exact H].
    - apply (Hnew _ k) in H; [lia|exact Hs].
    - simpl in Hs. injection Hs as ->. auto. }
  split.
  - intros (x' & g' & Ex & Eg & Hsnd & Hf).
    simpl in Ex, Eg. injection Ex as <-. injection Eg as <-.
    cbn [calls currentTime] in Hsnd, Hf.
    apply sounding_In in Hsnd. destruct Hsnd as (Hsrc & Hst & Hnst & Hsch).
    pose proof Hst as Hst'. apply HL in Hst'; [|reflexivity].
    destruct Hst' as [Hst'|[(j & Hj & _)|Hst']]; [|discriminate|].
    { left. eapply graph_started. exact Hst'. }
    right.
    pose proof (bounded_subject _ _ _ Hold Hst') as Hk. simpl in Hk.
    assert (Hnt : ~ tracked am k).
    { intros Ht. apply Hnst, HL; [reflexivity|]. right; left. exists k. auto. }
    split; [|exact Hnt]. exists x, g.
    split; [exact Hx|]. split; [exact Hg|]. split.
    + apply sounding_In. repeat split.
      * destruct Hsrc as [H|H];
          (apply Hdown in H; [|reflexivity|reflexivity|exact Hk]);
          destruct H as [[H _]|H]; try discriminate; auto.
      * exact Hst'.
      * intros H. apply Hnst, Hup; [reflexivity|exact H].
      * intros t H. apply Hsch, Hup; [reflexivity|exact H].
    + eapply feeds_old; [exact Hold| |exact Hk|exact Hf].
      intros a d H. apply HL in H; [|reflexivity].
      destruct H as [H|[(j & Hj & _)|H]]; [|discriminate|auto].
      left. apply (Hnew _ a) in H; auto.
  - intros [Hk|[(x0 & g0 & Ex & Eg & Hsnd & Hf) Hnt]].
    + pose proof (graph_sources_new _ _ _ Hk) as Hrange.
      exists {| state := state x; currentTime := currentTime x;
                sampleRate := sampleRate x; calls := L;
                nodes := graph_size type + nodes x |}, g.
      split; [reflexivity|]. split; [reflexivity|]. cbn [calls currentTime].
      split.
      * apply sounding_In. repeat split.
        -- destruct (proj2 (graph_source_created type (nodes x) g (currentTime x)
                              (sampleRate x) k) Hk) as [H|H];
             [left|right]; apply HL; auto.
        -- apply HL; [reflexivity|]. left. apply graph_started. exact Hk.
        -- intros H. apply HL in H; [|reflexivity].
           destruct H as [H|[(j & Hj & Ht)|H]].
           ++ revert H. apply graph_never_stops.
           ++ injection Hj as <-.
              destruct Ht as [Ht|Ht]; rewrite Ht in *; simpl in *; lia.
           ++ apply (bounded_subject _ _ _ Hold) in H. simpl in H. lia.
        -- intros t H. apply HL in H; [|reflexivity].
           destruct H as [H|[(j & Hj & _)|H]]; [|discriminate|].
           ++ eapply graph_schedules_ahead. exact H.
           ++ apply (bounded_subject _ _ _ Hold) in H. simpl in H. lia.
      * eapply feeds_weaken; [|apply graph_feeds_gain; exact Hk].
        intros a d Hc. subst L. apply in_or_app. left. exact Hc.
    + rewrite Hx in Ex. injection Ex as <-.
      rewrite Hg in Eg. injection Eg as <-.
      apply sounding_In in Hsnd. destruct Hsnd as (Hsrc & Hst & Hnst & Hsch).
      pose proof (bounded_subject _ _ _ Hold Hst) as Hk. simpl in Hk.
      exists {| state := state x; currentTime := currentTime x;
                sampleRate := sampleRate x; calls := L;
                nodes := graph_size type + nodes x |}, g.
      split; [reflexivity|]. split; [reflexivity|]. cbn [calls currentTime].
      split.
      * apply sounding_In. repeat split.
        -- destruct Hsrc as [H|H]; [left|right]; apply Hup; auto.
        -- apply Hup; auto.
        -- intros H. apply Hdown in H; [|reflexivity|reflexivity|exact Hk].
           destruct H as [[_ H]|H]; auto.
        -- intros t H. apply Hdown in H; [|reflexivity|reflexivity|exact Hk].
           destruct H as [[H _]|H]; [discriminate|auto].
      * eapply feeds_weaken; [|exact Hf].
        intros a d Hc. apply Hup; [reflexivity|exact Hc].
Qed.

(** A switch keeps the log well formed. *)
Lemma switch_well_formed type am x g :
  ctx am = Some x ->
  ambienceGain am = Some g ->
  well_formed am ->
  currentAmbienceType am <> Some type ->
  well_formed (exec (setAmbience type) am).
Proof.
  intros Hx Hg Hwf Hty.
  destruct (well_formed_ctx am x Hwf Hx) as (Hold & Hmb & Hgb & Hanb & Hlb).
  rewrite Hg in Hgb. simpl in Hgb.
  rewrite (setAmbience_switch type am x g Hx Hg Hty).
  assert (Hle : nodes x <= graph_size type + nodes x) by lia.
  split; unfold node_count, log;
    cbn [ctx calls nodes masterGain ambienceGain ambienceNode lfo].
  - apply Forall_app_2; [apply graph_bounded; exact Hgb|].
    apply Forall_app_2; [apply fade_bounded; lia|].
    apply Forall_app_2.
    { apply teardown_bounded.
      - destruct (ambienceNode am); cbn [below] in *; [lia|exact I].
      - destruct (lfo am); cbn [below] in *; [lia|exact I]. }
    apply Forall_app_2.
    { apply wake_bounded.
      destruct (masterGain am); cbn [below] in *; [lia|exact I]. }
    eapply bounded_weaken; [exact Hle|exact Hold].
  - destruct (masterGain am); cbn [below] in *; [lia|exact I].
  - cbn [below]. clear -Hgb. lia.
  - clear. destruct type; simpl; lia.
  - clear. destruct type; simpl; try lia; exact I.
Qed.

(** *** The invariant of the engine *)

Lemma consistent_grow am am' x x' new :
  consistent am ->
  ctx am = Some x -> ctx am' = Some x' ->
  calls x' = new ++ calls x -> nodes x <= nodes x' ->
  Forall (call_bounded (nodes x')) new ->
  masterGain am' = masterGain am -> ambienceGain am' = ambienceGain am ->
  below (nodes x') (ambienceNode am') -> below (nodes x') (lfo am') ->
  consistent am'.
Proof.
  intros [Hwf Hf Hg] Hx Hx' Hc Hn Hnew Hm Ha Han Hl.
  destruct (well_formed_ctx am x Hwf Hx) as (Hold & Hmb & Hgb & _ & _).
  assert (Hup : forall o, below (nodes x) o -> below (nodes x') o)
    by (intros [m|]; simpl; [lia|auto]).
  split.
  - split; unfold node_count, log; rewrite Hx'; rewrite ?Hm, ?Ha; auto.
    rewrite Hc. apply Forall_app_2; [exact Hnew|].
    eapply bounded_weaken; [exact Hn|exact Hold].
  - unfold has_ctx. rewrite Hx'. discriminate.
  - intros _. rewrite Hm, Ha. apply Hg. unfold has_ctx. rewrite Hx. reflexivity.
Qed.

Lemma unbounded_calls k l :
  (forall c, In c l -> subject c = None) -> Forall (call_bounded k) l.
Proof.
  intros H. apply List.Forall_forall. intros c Hc. specialize (H c Hc).
  split; [rewrite H; exact I|]. destruct c; auto; discriminate.
Qed.

Lemma resume_calls_bounded k x : Forall (call_bounded k) (resume_calls x).
Proof.
  apply unbounded_calls. unfold resume_calls.
  case_bool_decide; simpl; intuition (subst; reflexivity).
Qed.

Lemma suspend_calls_bounded k x : Forall (call_bounded k) (suspend_calls x).
Proof.
  apply unbounded_calls. unfold suspend_calls.
  case_bool_decide; simpl; intuition (subst; reflexivity).
Qed.

Lemma unmute_calls_bounded k x mg :
  below k mg -> Forall (call_bounded k) (unmute_calls x mg).
Proof.
  intros Hm. unfold unmute_calls. case_bool_decide; [|constructor].
  destruct mg; simpl in *;
    repeat (apply List.Forall_cons; [split; simpl; auto|]); constructor.
Qed.

Lemma mute_calls_bounded k x mg :
  below k mg -> Forall (call_bounded k) (mute_calls x mg).
Proof.
  intros Hm. unfold mute_calls.
  destruct mg; simpl in *;
    repeat (apply List.Forall_cons; [split; simpl; auto|]); constructor.
Qed.

Lemma click_calls_bounded n mg t :
  mg < n -> Forall (call_bounded (2 + n)) (click_calls n mg t).
Proof.
  intros Hm. repeat (apply List.Forall_cons; [split; simpl; lia|]). constructor.
Qed.

Lemma transition_calls_bounded n mg t r :
  mg < n -> Forall (call_bounded (3 + n)) (transition_calls n mg t r).
Proof.
  intros Hm. repeat (apply List.Forall_cons; [split; simpl; lia|]). constructor.
Qed.

Lemma consistent_fresh : consistent fresh.
Proof.
  split.
  - split; simpl; auto.
  - reflexivity.
  - discriminate.
Qed.

Lemma consistent_created : consistent (created initialState deviceSampleRate).
Proof.
  split.
  - split; vm_compute; repeat constructor.
  - discriminate.
  - intros _. exists 0, 1. auto.
Qed.

(** The shape of a consistent engine that has a context. *)
Lemma consistent_ctx am :
  consistent am -> has_ctx am = true ->
  exists x mg g,
    ctx am = Some x /\ masterGain am = Some mg /\ ambienceGain am = Some g /\
    mg < nodes x /\ g < nodes x /\
    below (nodes x) (ambienceNode am) /\ below (nodes x) (lfo am) /\
    Forall (call_bounded (nodes x)) (calls x).
Proof.
  intros Hc Hh. destruct (cons_gains am Hc Hh) as (mg & g & Hm & Hg).
  unfold has_ctx in Hh. destruct (ctx am) as [x|] eqn:Hx; [|discriminate].
  destruct (well_formed_ctx am x (cons_well_formed am Hc) Hx)
    as (Hold & Hmb & Hgb & Han & Hl).
  rewrite Hm in Hmb. rewrite Hg in Hgb.
  exists x, mg, g. auto 10.
Qed.

Lemma init_consistent am :
  consistent am -> has_ctx am = true ->
  consistent (exec (init initialState deviceSampleRate) am).
Proof.
  intros Hc Hh.
  destruct (consistent_ctx am Hc Hh) as (x & mg & g & Hx & Hm & Hg & ? & ? & ? & ? & ?).
  rewrite (init_closed am x Hx).
  eapply (consistent_grow am _ x _ (resume_calls x)); eauto; try reflexivity.
  apply resume_calls_bounded.
Qed.

Lemma resume_consistent am : consistent am -> consistent (exec resume am).
Proof.
  intros Hc. destruct (has_ctx am) eqn:Hh.
  - destruct (consistent_ctx am Hc Hh) as (x & mg & g & Hx & Hm & Hg & ? & ? & ? & ? & ?).
    rewrite (resume_closed am x Hx).
    eapply (consistent_grow am _ x _ (unmute_calls x (masterGain am)));
      eauto; try reflexivity.
    apply unmute_calls_bounded. rewrite Hm. simpl. assumption.
  - pose proof (cons_fresh am Hc Hh) as E. subst am. exact consistent_fresh.
Qed.

Lemma stop_now_consistent am : consistent am -> consistent (exec stop_now am).
Proof.
  intros Hc. destruct (has_ctx am) eqn:Hh.
  - destruct (consistent_ctx am Hc Hh) as (x & mg & g & Hx & Hm & Hg & ? & ? & ? & ? & ?).
    rewrite (stop_now_closed am x Hx).
    eapply (consistent_grow am _ x _ (mute_calls x (masterGain am)));
      eauto; try reflexivity.
    apply mute_calls_bounded. rewrite Hm. simpl. assumption.
  - pose proof (cons_fresh am Hc Hh) as E. subst am. exact consistent_fresh.
Qed.

Lemma stopAmbience_consistent am : consistent am -> consistent (exec stopAmbience am).
Proof.
  intros Hc. destruct (has_ctx am) eqn:Hh.
  - destruct (consistent_ctx am Hc Hh) as (x & mg & g & Hx & Hm & Hg & ? & ? & ? & ? & ?).
    rewrite stopAmbience_closed, Hx.
    eapply (consistent_grow am _ x _ (teardown_calls (ambienceNode am) (lfo am)));
      eauto; try reflexivity; try exact I.
    apply teardown_bounded; assumption.
  - pose proof (cons_fresh am Hc Hh) as E. subst am. exact consistent_fresh.
Qed.

Lemma stop_timeout_consistent am : consistent am -> consistent (exec stop_timeout am).
Proof.
  intros Hc. destruct (has_ctx am) eqn:Hh.
  - destruct (consistent_ctx am Hc Hh) as (x & mg & g & Hx & Hm & Hg & ? & ? & ? & ? & ?).
    rewrite (stop_timeout_closed am x Hx).
    eapply (consistent_grow am _ x _
              (suspend_calls x ++ teardown_calls (ambienceNode am) (lfo am)));
      eauto; try reflexivity; try exact I.
    apply Forall_app_2; [apply suspend_calls_bounded|].
    apply teardown_bounded; assumption.
  - pose proof (cons_fresh am Hc Hh) as E. subst am. exact consistent_fresh.
Qed.

Lemma playClick_consistent am :
  consistent am -> has_ctx am = true ->
  consistent (exec (playClick initialState deviceSampleRate) am).
Proof.
  intros Hc Hh.
  destruct (consistent_ctx am Hc Hh) as (x & mg & g & Hx & Hm & Hg & ? & ? & ? & ? & ?).
  rewrite (playClick_closed am x mg Hx Hm).
  eapply (consistent_grow am _ x _
            (click_calls (nodes x) mg (currentTime x) ++ resume_calls x));
    [exact Hc|exact Hx|reflexivity|reflexivity|simpl; lia| |reflexivity|reflexivity| |].
  - apply Forall_app_2; [apply click_calls_bounded; assumption|].
    apply resume_calls_bounded.
  - simpl. destruct (ambienceNode am); simpl in *; [lia|exact I].
  - simpl. destruct (lfo am); simpl in *; [lia|exact I].
Qed.

Lemma playTransition_consistent am :
  consistent am -> has_ctx am = true ->
  consistent (exec (playTransition initialState deviceSampleRate) am).
Proof.
  intros Hc Hh.
  destruct (consistent_ctx am Hc Hh) as (x & mg & g & Hx & Hm & Hg & ? & ? & ? & ? & ?).
  rewrite (playTransition_closed am x mg Hx Hm).
  eapply (consistent_grow am _ x _
            (transition_calls (nodes x) mg (currentTime x) (sampleRate x) ++
             resume_calls x));
    [exact Hc|exact Hx|reflexivity|reflexivity|simpl; lia| |reflexivity|reflexivity| |].
  - apply Forall_app_2; [apply transition_calls_bounded; assumption|].
    apply resume_calls_bounded.
  - simpl. destruct (ambienceNode am); simpl in *; [lia|exact I].
  - simpl. destruct (lfo am); simpl in *; [lia|exact I].
Qed.

Lemma setAmbience_consistent type am :
  consistent am -> has_ctx am = true ->
  consistent (exec (setAmbience type) am).
Proof.
  intros Hc Hh.
  destruct (consistent_ctx am Hc Hh) as (x & mg & g & Hx & Hm & Hg & ? & ? & ? & ? & ?).
  destruct (decide (currentAmbienceType am = Some type)) as [Hty|Hty].
  - rewrite (setAmbience_same type am x Hx Hty).
    eapply (consistent_grow am _ x _ (wake_calls x (masterGain am)));
      eauto; try reflexivity.
    apply wake_bounded. rewrite Hm. simpl. assumption.
  - pose proof (switch_well_formed type am x g Hx Hg (cons_well_formed am Hc) Hty)
      as Hwf.
    rewrite (setAmbience_switch type am x g Hx Hg Hty) in *.
    split; [exact Hwf|discriminate|].
    intros _. exists mg, g. simpl. auto.
Qed.

Lemma browser_moves_consistent s t am :
  consistent am -> consistent (browser_moves s t am).
Proof.
  intros Hc. destruct (has_ctx am) eqn:Hh.
  - destruct (consistent_ctx am Hc Hh) as (x & mg & g & Hx & Hm & Hg & ? & ? & ? & ? & ?).
    unfold browser_moves. rewrite Hx.
    eapply (consistent_grow am _ x _ []); eauto; try reflexivity.
  - pose proof (cons_fresh am Hc Hh) as E. subst am. exact consistent_fresh.
Qed.

Lemma setAmbience_keeps_ctx type am :
  consistent am -> has_ctx am = true ->
  has_ctx (exec (setAmbience type) am) = true.
Proof.
  intros Hc Hh.
  destruct (consistent_ctx am Hc Hh) as (x & mg & g & Hx & Hm & Hg & _).
  destruct (decide (currentAmbienceType am = Some type)) as [Hty|Hty].
  - rewrite (setAmbience_same type am x Hx Hty). reflexivity.
  - rewrite (setAmbience_switch type am x g Hx Hg Hty). reflexivity.
Qed.

End AmbienceFacts.

(** *** What the engine can reach *)

(** Every engine the program can have reached is consistent. *)
Lemma reachable_consistent am : Audio.reachable am -> Audio.consistent am.
Proof.
  induction 1 as [|s r am _ IH|am _ IH|am _ IH|am _ IH|s r am _ IH
                  |am _ IH|s r am _ IH|s r type am _ IH|s t am _ IH].
  - apply consistent_fresh.
  - destruct (Audio.has_ctx am) eqn:Hh; [now apply init_consistent|].
    rewrite (Audio.cons_fresh am IH Hh), fresh_init.
    apply init_consistent; [apply consistent_created|reflexivity].
  - now apply resume_consistent.
  - now apply stop_now_consistent.
  - now apply stop_timeout_consistent.
  - destruct (Audio.has_ctx am) eqn:Hh; [now apply playClick_consistent|].
    rewrite (Audio.cons_fresh am IH Hh), fresh_playClick.
    apply playClick_consistent; [apply consistent_created|reflexivity].
  - now apply stopAmbience_consistent.
  - destruct (Audio.has_ctx am) eqn:Hh; [now apply playTransition_consistent|].
    rewrite (Audio.cons_fresh am IH Hh), fresh_playTransition.
    apply playTransition_consistent; [apply consistent_created|reflexivity].
  - destruct (Audio.has_ctx am) eqn:Hh; [now apply setAmbience_consistent|].
    rewrite (Audio.cons_fresh am IH Hh), fresh_setAmbience.
    apply setAmbience_consistent; [apply consistent_created|reflexivity].
  - now apply browser_moves_consistent.
Qed.

(** A mood is current only on an engine whose context exists. *)
Lemma reachable_mood_has_ctx am :
  Audio.reachable am -> Audio.currentAmbienceType am <> None ->
  Audio.has_ctx am = true.
Proof.
  intros Hr Hty. destruct (Audio.has_ctx am) eqn:Hh; [reflexivity|].
  exfalso. apply Hty.
  rewrite (Audio.cons_fresh am (reachable_consistent am Hr) Hh). reflexivity.
Qed.

Section AmbienceClaims.

Import Audio.
Variable initialState : ContextState.
Variable deviceSampleRate : Q.

Abbreviation setAmbience := (setAmbience initialState deviceSampleRate).

Lemma quiet_prefix extra l c :
  (forall c', In c' extra -> touches_graph c' = false) ->
  touches_graph c = true ->
  In c (extra ++ l) <-> In c l.
Proof.
  intros Hq Hc. rewrite in_app_iff. split; [|auto].
  intros [H|H]; [|exact H]. apply Hq in H. congruence.
Qed.

(** Calls that do not touch the graph leave what sounds as it is. *)
Lemma quiet_prefix_live extra am am' x :
  ctx am = Some x ->
  ctx am' = Some {| state := state x; currentTime := currentTime x;
                    sampleRate := sampleRate x; calls := extra ++ calls x;
                    nodes := nodes x |} ->
  ambienceGain am' = ambienceGain am ->
  (forall c, In c extra -> touches_graph c = false) ->
  forall k, ambience_live am' k <-> ambience_live am k.
Proof.
  intros Hx Hx' Hg Hq k.
  assert (HIn : forall c, touches_graph c = true ->
                  In c (extra ++ calls x) <-> In c (calls x))
    by (intros c; apply quiet_prefix; exact Hq).
  assert (Hs : sounding (extra ++ calls x) (currentTime x) k <->
               sounding (calls x) (currentTime x) k).
  { rewrite !sounding_In, !HIn by reflexivity.
    split; intros (H1 & H2 & H3 & H4); repeat split; auto;
      intros t Ht; apply H4, HIn; auto. }
  assert (Hf : forall g, feeds (extra ++ calls x) k g <-> feeds (calls x) k g).
  { intros g. split; apply feeds_weaken; intros n d; apply HIn; reflexivity. }
  unfold ambience_live. rewrite Hx, Hx', Hg. split.
  - intros (x1 & g & [= <-] & Eg & H1 & H2). cbn [calls currentTime] in *.
    exists x, g. rewrite <- Hs, <- Hf. auto.
  - intros (x1 & g & [= <-] & Eg & H1 & H2).
    eexists _, g. split; [reflexivity|]. cbn [calls currentTime].
    rewrite Hs, Hf. auto.
Qed.

(** C5. On an engine the program can have reached, [setAmbience] with the
    mood that is already current stops no node, creates no node, builds
    and connects nothing, and leaves the tracked ambience state and what
    is sounding exactly as they were; at most it resumes a suspended
    context and restores the master volume. *)
Theorem same_mood_is_noop am type :
  reachable am ->
  currentAmbienceType am = Some type ->
  let am' := exec (setAmbience type) am in
  ambienceNode am' = ambienceNode am /\
  lfo am' = lfo am /\
  currentAmbienceType am' = currentAmbienceType am /\
  ambienceGain am' = ambienceGain am /\
  masterGain am' = masterGain am /\
  node_count am' = node_count am /\
  (exists extra, log am' = extra ++ log am /\
                 forall c, In c extra -> touches_graph c = false) /\
  (forall k, ambience_live am' k <-> ambience_live am k).
Proof.
  intros Hr Hty am'.
  assert (Hc : has_ctx am = true)
    by (apply reachable_mood_has_ctx; [exact Hr|congruence]).
  unfold has_ctx in Hc. destruct (ctx am) as [x|] eqn:Hx; [|discriminate].
  assert (E : am' = with_ctx
                (Some {| state := state x; currentTime := currentTime x;
                         sampleRate := sampleRate x;
                         calls := wake_calls x (masterGain am) ++ calls x;
                         nodes := nodes x |}) am)
    by (apply setAmbience_same; assumption).
  rewrite E. unfold node_count, log. simpl. rewrite Hx.
  repeat (split; [reflexivity|]). split.
  - exists (wake_calls x (masterGain am)). split; [reflexivity|].
    intros c. apply wake_quiet.
  - apply (quiet_prefix_live (wake_calls x (masterGain am)) am _ x);
      [exact Hx|reflexivity|reflexivity|].
    intros c. apply wake_quiet.
Qed.


Lemma stopped_cons c l k :
  stopped (c :: l) k =
  match c with stop m None => Nat.eqb k m | _ => false end || stopped l k.
Proof. reflexivity. Qed.

Lemma scheduled_stops_cons c l k :
  scheduled_stops (c :: l) k =
  match c with
  | stop m (Some t) => if Nat.eqb k m then [t] else []
  | _ => []
  end ++ scheduled_stops l k.
Proof.
  unfold scheduled_stops. destruct c as [| | | | | | | | | | | | |m [t|]| |];
    try reflexivity.
  simpl. destruct (Nat.eqb k m); reflexivity.
Qed.

(** Calls on other nodes change neither whether a node was stopped nor
    the stops scheduled for it. *)
Lemma stops_untouched new l k :
  (forall c, In c new -> subject c <> Some k) ->
  stopped (new ++ l) k = stopped l k /\
  scheduled_stops (new ++ l) k = scheduled_stops l k.
Proof.
  intros H. induction new as [|c new IH]; [auto|].
  destruct IH as [IH1 IH2]; [intros c' Hc'; apply H; right; exact Hc'|].
  assert (Hc : subject c <> Some k) by (apply H; left; reflexivity).
  change ((c :: new) ++ l) with (c :: (new ++ l)).
  rewrite stopped_cons, scheduled_stops_cons, IH1, IH2.
  destruct c as [| | | | | | | | | | | | |m w| |]; try (split; reflexivity).
  simpl in Hc. destruct (Nat.eqb_spec k m); [subst; congruence|].
  destruct w; split; reflexivity.
Qed.

Lemma bounded_untouched k l j c :
  Forall (call_bounded k) l -> k <= j -> In c l -> subject c <> Some j.
Proof.
  intros Hb Hj Hc E. pose proof (bounded_subject _ _ _ Hb Hc) as H.
  rewrite E in H. simpl in H. lia.
Qed.

Lemma stopped_app a b k : stopped (a ++ b) k = stopped a k || stopped b k.
Proof. apply existsb_app. Qed.

Lemma scheduled_stops_app a b k :
  scheduled_stops (a ++ b) k = scheduled_stops a k ++ scheduled_stops b k.
Proof. apply omap_app. Qed.

(** What the teardown path adds to the log when the engine tracks node [n]
    and no oscillator in [this.lfo]: a stop of [n], and nothing that names
    any other existing node [k] apart from the two gains. *)
Lemma tears_down_shape am am2 x g n k :
  ctx am = Some x ->
  ambienceGain am = Some g ->
  ambienceNode am = Some n ->
  lfo am = None ->
  k < nodes x -> k <> n -> k <> g -> masterGain am <> Some k ->
  tears_down initialState deviceSampleRate am am2 ->
  exists new x2,
    ctx am2 = Some x2 /\ calls x2 = new ++ calls x /\
    currentTime x2 = currentTime x /\
    In (stop n None) new /\
    (forall c, In c new -> subject c <> Some k) /\
    ambienceGain am2 = Some g /\
    ~ tracked am2 k.
Proof.
  intros Hx Hg Hn Hl Hk Hkn Hkg Hkm Ht.
  assert (Htd : teardown_calls (Some n) None = [stop n None]) by reflexivity.
  assert (Hwake : forall c, In c (wake_calls x (masterGain am)) -> subject c <> Some k).
  { unfold wake_calls. case_bool_decide; [|intros c []].
    destruct (masterGain am) as [m|]; simpl;
      intuition (subst; simpl in *; congruence). }
  destruct Ht as [|type Hty|].
  - rewrite stopAmbience_closed, Hx, Hn, Hl, Htd.
    eexists [stop n None], _. split; [reflexivity|]. simpl.
    split; [reflexivity|]. split; [reflexivity|]. split; [auto|].
    split; [intros c [<-|[]]; simpl; congruence|].
    split; [exact Hg|]. intros [H|H]; discriminate.
  - rewrite (setAmbience_switch initialState deviceSampleRate type am x g Hx Hg Hty).
    rewrite Hn, Hl, Htd.
    eexists (graph_calls type (nodes x) g (currentTime x) (sampleRate x) ++
             fade_in_calls g (currentTime x) ++ [stop n None] ++
             wake_calls x (masterGain am)), _.
    split; [reflexivity|]. cbn [calls ambienceGain currentTime].
    split; [rewrite <- !app_assoc; reflexivity|].
    split; [reflexivity|].
    split; [rewrite !in_app_iff; simpl; auto|].
    split; [|split; [reflexivity|]].
    + intros c Hc E. rewrite !in_app_iff in Hc.
      destruct Hc as [Hc|[Hc|[Hc|Hc]]].
      * apply (graph_acts_on_new _ _ _ _ _ _ k) in Hc; [lia|exact E].
      * simpl in Hc. intuition (subst; simpl in *; congruence).
      * simpl in Hc. intuition (subst; simpl in *; congruence).
      * exact (Hwake c Hc E).
    + unfold tracked. cbn [ambienceNode lfo].
      intros [H|H]; [injection H; lia|].
      destruct type; simpl in H; try discriminate; injection H; lia.
  - rewrite (stop_timeout_closed am x Hx), Hn, Hl, Htd.
    eexists (suspend_calls x ++ [stop n None]), _.
    split; [reflexivity|]. cbn [calls ambienceGain push currentTime].
    split; [reflexivity|]. split; [reflexivity|].
    split; [rewrite !in_app_iff; simpl; auto|].
    split; [|split; [exact Hg|intros [H|H]; discriminate]].
    intros c Hc E. rewrite in_app_iff in Hc. destruct Hc as [Hc|[<-|[]]].
    + unfold suspend_calls in Hc. case_bool_decide; simpl in Hc; [destruct Hc|].
      destruct Hc as [<-|[]]. discriminate.
    + simpl in E. congruence.
Qed.

(** The eerie graph and its teardown, on an engine with a context. *)
Lemma eerie_teardown_core am x g :
  ctx am = Some x ->
  ambienceGain am = Some g ->
  well_formed am ->
  currentAmbienceType am <> Some eerie ->
  let n := nodes x in
  let t := currentTime x in
  let am1 := exec (setAmbience eerie) am in
  (In (create OscillatorNode n) (log am1) /\
   In (create OscillatorNode (S n)) (log am1) /\
   started (log am1) n = true /\ started (log am1) (S n) = true) /\
  ambienceNode am1 = Some n /\
  lfo am1 = None /\
  stopped (log am1) (S n) = false /\
  scheduled_stops (log am1) (S n) = [(t + 600)%Q] /\
  log (exec stopAmbience am1) = stop n None :: log am1 /\
  forall st' t' am2,
    tears_down initialState deviceSampleRate (browser_moves st' t' am1) am2 ->
    stopped (log am2) n = true /\
    stopped (log am2) (S n) = false /\
    scheduled_stops (log am2) (S n) = [(t + 600)%Q] /\
    ~ tracked am2 (S n) /\
    ((t' < t + 600)%Q -> ambience_live am2 (S n)) /\
    ((t + 600 <= t')%Q -> ~ ambience_live am2 (S n)).
Proof.
  intros Hx Hg Hwf Hty n t am1.
  destruct (well_formed_ctx am x Hwf Hx) as (Hold & Hmb & Hgb & Hanb & Hlb).
  rewrite Hg in Hgb. cbn [below] in Hgb. fold n in Hold, Hmb, Hgb, Hanb, Hlb.
  pose proof (setAmbience_switch initialState deviceSampleRate eerie am x g
                Hx Hg Hty) as E1.
  fold am1 n t in E1.
  set (graph := graph_calls eerie n g t (sampleRate x)) in E1.
  set (rest := fade_in_calls g t ++ teardown_calls (ambienceNode am) (lfo am) ++
               wake_calls x (masterGain am) ++ calls x) in E1.
  assert (Hrest : forall c, In c rest -> subject c <> Some (S n)).
  { intros c Hc. apply (bounded_untouched n rest); [|lia|exact Hc].
    subst rest. apply Forall_app_2; [apply fade_bounded; exact Hgb|].
    apply Forall_app_2; [apply teardown_bounded; assumption|].
    apply Forall_app_2; [apply wake_bounded; assumption|exact Hold]. }
  assert (Hsr : stopped rest (S n) = false /\ scheduled_stops rest (S n) = []).
  { destruct (stops_untouched rest [] (S n)) as [H1 H2];
      [exact Hrest|]. rewrite app_nil_r in H1, H2. auto. }
  destruct Hsr as [Hsr1 Hsr2].
  assert (Hlog1 : log am1 = graph ++ rest) by (rewrite E1; reflexivity).
  assert (Hs1 : stopped (log am1) (S n) = false).
  { rewrite Hlog1, stopped_app, Hsr1. reflexivity. }
  assert (Hq1 : scheduled_stops (log am1) (S n) = [(t + 600)%Q]).
  { rewrite Hlog1, scheduled_stops_app, Hsr2. subst graph.
    unfold scheduled_stops. simpl. rewrite Nat.eqb_refl. reflexivity. }
  assert (Hc1 : In (create OscillatorNode (S n)) (log am1))
    by (rewrite Hlog1; apply in_or_app; left; simpl; auto 20).
  assert (Hst1 : In (start (S n)) (log am1))
    by (rewrite Hlog1; apply in_or_app; left; simpl; auto 20).
  assert (Hf1 : feeds (log am1) (S n) g).
  { rewrite Hlog1. eapply feeds_weaken;
      [|apply (graph_feeds_gain eerie n g t (sampleRate x) (S n)); simpl; auto].
    intros a d H. apply in_or_app. left. exact H. }
  split.
  { split; [rewrite Hlog1; apply in_or_app; left; simpl; auto 20|].
    split; [exact Hc1|].
    split; apply started_In; [|exact Hst1].
    rewrite Hlog1; apply in_or_app; left; simpl; auto 20. }
  split; [rewrite E1; reflexivity|].
  split; [rewrite E1; reflexivity|].
  split; [exact Hs1|]. split; [exact Hq1|].
  split; [rewrite stopAmbience_closed, E1; reflexivity|].
  intros st' t' am2 Ht.
  set (x1 := {| state := st'; currentTime := t'; sampleRate := sampleRate x;
                calls := graph ++ rest; nodes := graph_size eerie + n |}).
  assert (Hx1 : ctx (browser_moves st' t' am1) = Some x1)
    by (rewrite E1; reflexivity).
  destruct (tears_down_shape (browser_moves st' t' am1) am2 x1 g n (S n))
    as (new & x2 & Hx2 & Hcalls & Htime & Hstop & Hnew & Hg2 & Hnt);
    try (rewrite E1; reflexivity); try exact Ht; try (simpl; lia).
  { rewrite E1. cbn [browser_moves ctx with_ctx masterGain].
    destruct (masterGain am) as [m|]; [|discriminate].
    cbn [below] in Hmb. intros [= ->]. lia. }
  assert (Hlog2 : log am2 = new ++ log am1).
  { unfold log at 1. rewrite Hx2, Hcalls. rewrite Hlog1. reflexivity. }
  destruct (stops_untouched new (log am1) (S n) Hnew) as [Hu1 Hu2].
  assert (Hlog2' : calls x2 = new ++ log am1)
    by (unfold log in Hlog2; rewrite Hx2 in Hlog2; exact Hlog2).
  split; [apply stopped_In; rewrite Hlog2; apply in_or_app; auto|].
  split; [rewrite Hlog2, Hu1; exact Hs1|].
  split; [rewrite Hlog2, Hu2; exact Hq1|].
  split; [exact Hnt|]. split.
  - intros Hahead. exists x2, g. split; [exact Hx2|]. split; [exact Hg2|].
    rewrite Hlog2', Htime. cbn [currentTime x1]. split.
    + split; [|split; [|split]].
      * apply is_source_In. left. apply in_or_app. auto.
      * apply started_In. apply in_or_app. auto.
      * rewrite Hu1. exact Hs1.
      * intros u Hu. rewrite Hu2, Hq1 in Hu. destruct Hu as [<-|[]]. exact Hahead.
    + eapply feeds_weaken; [|exact Hf1]. intros a d H. apply in_or_app. auto.
  - intros Hpast (x3 & g3 & Ex3 & _ & (_ & _ & _ & Hsch) & _).
    rewrite Hx2 in Ex3. injection Ex3 as <-.
    rewrite Hlog2', Htime, Hu2, Hq1 in Hsch. cbn [currentTime x1] in Hsch.
    specialize (Hsch (t + 600)%Q (or_introl eq_refl)). lra.
Qed.

(** C8. On any engine the program can have reached (with another mood
    current, or none), [setAmbience("eerie")] creates and starts two
    oscillators [n] and [S n], tracks the first as [ambienceNode] and no
    LFO, and schedules a stop of the second 600 seconds after the time at
    which it started it. The teardown path that follows at a later time
    [t'] ([stopAmbience] itself, [setAmbience] with another mood, the
    timeout of [stop]) stops the first oscillator and never names the
    second: the second is not tracked, is never stopped at once, and keeps
    the 600-second stop as its only scheduled stop, so that after the
    teardown it goes on sounding into the ambience gain until that time
    has come, and not beyond. *)
Theorem eerie_teardown_misses_second_oscillator am :
  reachable am ->
  currentAmbienceType am <> Some eerie ->
  let am1 := exec (setAmbience eerie) am in
  exists n,
    (In (create OscillatorNode n) (log am1) /\
     In (create OscillatorNode (S n)) (log am1) /\
     started (log am1) n = true /\ started (log am1) (S n) = true) /\
    ambienceNode am1 = Some n /\
    lfo am1 = None /\
    stopped (log am1) (S n) = false /\
    scheduled_stops (log am1) (S n) = [(clock am1 + 600)%Q] /\
    log (exec stopAmbience am1) = stop n None :: log am1 /\
    forall st' t' am2,
      tears_down initialState deviceSampleRate (browser_moves st' t' am1) am2 ->
      stopped (log am2) n = true /\
      stopped (log am2) (S n) = false /\
      scheduled_stops (log am2) (S n) = [(clock am1 + 600)%Q] /\
      ~ tracked am2 (S n) /\
      ((t' < clock am1 + 600)%Q -> ambience_live am2 (S n)) /\
      ((clock am1 + 600 <= t')%Q -> ~ ambience_live am2 (S n)).
Proof.
  intros Hr Hty am1.
  pose proof (reachable_consistent am Hr) as Hc.
  assert (H0 : exists am0,
             consistent am0 /\ has_ctx am0 = true /\
             currentAmbienceType am0 <> Some eerie /\
             am1 = exec (setAmbience eerie) am0).
  { destruct (has_ctx am) eqn:Hh.
    - exists am. auto.
    - exists (created initialState deviceSampleRate).
      split; [apply consistent_created|]. split; [reflexivity|].
      split; [discriminate|].
      unfold am1. rewrite (cons_fresh am Hc Hh). apply fresh_setAmbience. }
  destruct H0 as (am0 & Hc0 & Hh0 & Hty0 & E).
  destruct (consistent_ctx am0 Hc0 Hh0) as (x & mg & g & Hx & Hm & Hg & _).
  pose proof (eerie_teardown_core am0 x g Hx Hg (cons_well_formed am0 Hc0) Hty0)
    as Hcore.
  cbv zeta in Hcore. rewrite <- E in Hcore.
  assert (Hclock : clock am1 = currentTime x).
  { rewrite E, (setAmbience_switch initialState deviceSampleRate eerie am0 x g
                  Hx Hg Hty0). reflexivity. }
  rewrite Hclock. exists (nodes x). exact Hcore.
Qed.

End AmbienceClaims.

(* ===================================================================== *)
(** * The properties on sample data *)
(* ===================================================================== *)

Section Instances.

Import Audio App Typewriter Sample.

Lemma history_is_start_plus_advances_witness :
  successful_start (Start premise (answers cockpit "1")) = true /\
  forallb quiet some_events = true /\
  length (history (gameState (run running 44100%Q started_world some_events))) = 3.
Proof.
  split; [reflexivity|]. split; [reflexivity|].
  destruct (history_is_start_plus_advances running 44100%Q initialWorld premise
              (answers cockpit "1") some_events eq_refl eq_refl)
    as (_ & _ & H & _).
  exact H.
Defined.

Lemma failed_advance_discards_round_witness :
  currentScene long_game <> None /\
  (logicAnswer image_fails = Thrown \/ imageAnswer image_fails = Thrown) /\
  history (gameState (exec (handleOptionSelect long_game pull_the_lever image_fails)
                        started_world)) =
    history (gameState started_world) /\
  error (gameState (exec (handleOptionSelect long_game pull_the_lever image_fails)
                      started_world)) =
    Some (lit "Lost connection to the dream stream. Please retry.").
Proof.
  assert (H1 : currentScene long_game <> None) by (simpl; discriminate).
  assert (H2 : logicAnswer image_fails = Thrown \/ imageAnswer image_fails = Thrown)
    by (right; reflexivity).
  split; [exact H1|]. split; [exact H2|].
  destruct (failed_advance_discards_round long_game pull_the_lever image_fails
              started_world H1 H2) as (Hh & _ & _ & He).
  split; [exact Hh|exact He].
Defined.


Lemma same_mood_is_noop_witness :
  Audio.reachable calm_playing /\
  currentAmbienceType calm_playing = Some calm /\
  node_count (exec (setAmbience running 44100%Q calm) calm_playing) =
    node_count calm_playing /\
  ambienceNode (exec (setAmbience running 44100%Q calm) calm_playing) =
    ambienceNode calm_playing.
Proof.
  assert (H1 : Audio.reachable calm_playing)
    by (unfold calm_playing; apply reach_setAmbience, reach_fresh).
  assert (H2 : currentAmbienceType calm_playing = Some calm) by reflexivity.
  split; [exact H1|]. split; [exact H2|].
  destruct (same_mood_is_noop running 44100%Q calm_playing calm H1 H2)
    as (Hn & _ & _ & _ & _ & Hc & _).
  split; [exact Hc|exact Hn].
Defined.



Lemma advance_context_is_last_three_witness :
  currentScene long_game <> None /\
  requests (exec (handleOptionSelect long_game pull_the_lever (answers cockpit "5"))
              initialWorld) =
    [generateSceneImage_request (lit "cockpit");
     generateSceneLogic_request (lit "pull lever")
       (lit "The lever snaps. The cabin is empty. -> The plane drops. A red lever glows. -> The lever snaps. The cabin is empty.")].
Proof.
  assert (H1 : currentScene long_game <> None) by (simpl; discriminate).
  split; [exact H1|].
  exact (proj1 (advance_context_is_last_three long_game pull_the_lever
                  (answers cockpit "5") initialWorld H1)).
Defined.

Lemma eerie_teardown_misses_second_oscillator_witness :
  Audio.reachable initialised /\
  currentAmbienceType initialised <> Some eerie /\
  scheduled_stops (log (exec (setAmbience running 44100%Q eerie) initialised)) 3 =
    [(0 + 600)%Q] /\
  stopped (log (exec stop_timeout
                  (browser_moves running 5%Q
                     (exec (setAmbience running 44100%Q eerie) initialised)))) 3 = false.
Proof.
  assert (H1 : Audio.reachable initialised)
    by (unfold initialised; apply reach_init, reach_fresh).
  assert (H2 : currentAmbienceType initialised <> Some eerie)
    by (simpl; discriminate).
  split; [exact H1|]. split; [exact H2|].
  destruct (eerie_teardown_misses_second_oscillator running 44100%Q initialised
              H1 H2) as (n & _ & Hn & _ & _ & Hq & _ & Ht).
  assert (En : n = 2) by (vm_compute in Hn; congruence). subst n.
  split; [exact Hq|].
  exact (proj1 (proj2 (Ht running 5%Q _ (by_stop running 44100%Q _)))).
Defined.

Lemma blank_start_is_noop_witness :
  forallb isWhiteSpace [32; 9; 160; 8195]%N = true /\
  step running 44100%Q started_world
    (Start [32; 9; 160; 8195]%N (answers cockpit "9")) = started_world.
Proof.
  split; [reflexivity|].
  exact (proj2 (blank_start_is_noop running 44100%Q [32; 9; 160; 8195]%N
                  (answers cockpit "9") started_world eq_refl)).
Defined.

Lemma advance_without_scene_is_noop_witness :
  currentScene (gameState initialWorld) = None /\
  step running 44100%Q initialWorld (Advance pull_the_lever (answers cockpit "1")) =
    initialWorld.
Proof.
  split; [reflexivity|].
  exact (proj2 (advance_without_scene_is_noop running 44100%Q pull_the_lever
                  (answers cockpit "1") initialWorld eq_refl)).
Defined.

End Instances.

(** ** Where the code departs from C3 and C6 as worded *)

Section Counterexamples.

Import Audio Sample Scenario.




End Counterexamples.

(* ===================================================================== *)
(** * Further properties *)
(* ===================================================================== *)

(** ** The build configuration and the model services *)

Section ServiceFacts.

Import Optional Gemini.

Lemma or_else_truthy a b :
  truthy_value (or_else a b) = truthy_value a || truthy_value b.
Proof. unfold or_else. destruct (truthy_value a) eqn:E; simpl; auto. Qed.

(** X1. The key the application is built with is the value of the first of
    [GEMINI_API_KEY], [VITE_GEMINI_API_KEY] and [API_KEY] that is set to a
    string other than the empty one, an empty value being passed over like
    a missing one; it is truthy exactly when one of the three is so set,
    and with none of them set it is whatever [API_KEY] holds. *)
Theorem api_key_is_first_variable_set (env : gmap string jsstring) :
  let key := Config.API_KEY env in
  truthy_value key = existsb (Config.is_set env) Config.key_names /\
  key = match List.find (Config.is_set env) Config.key_names with
        | Some name => env !! name
        | None => env !! "API_KEY"%string
        end.
Proof.
  intros key. subst key. unfold Config.API_KEY, Config.key_names. simpl.
  rewrite !or_else_truthy. unfold Config.is_set. split.
  - rewrite orb_false_r, orb_assoc. reflexivity.
  - unfold or_else.
    destruct (truthy_value (env !! "GEMINI_API_KEY"%string)) eqn:E1; simpl;
      rewrite ?E1; [reflexivity|].
    destruct (truthy_value (env !! "VITE_GEMINI_API_KEY"%string)) eqn:E2; simpl;
      rewrite ?E2; [reflexivity|].
    destruct (truthy_value (env !! "API_KEY"%string)); reflexivity.
Qed.

Variable API_KEY : option jsstring.
Variable answer : GenerateContentParameters -> Completion GenerateContentResponse.
Variable Parsed : Type.
Variable JSON_parse : jsstring -> Completion Parsed.

Abbreviation generateSceneLogic :=
  (Gemini.generateSceneLogic API_KEY answer Parsed JSON_parse).
Abbreviation generateSceneImage := (Gemini.generateSceneImage API_KEY answer).

(** X2. Without a key (missing, or the empty string) neither service sends a
    request: both throw at once, and [generateSceneImage] does so before
    its [try], so that nothing is written to the console either. *)
Theorem missing_key_sends_nothing userInput historySummary visualPrompt o :
  truthy_value API_KEY = false ->
  generateSceneLogic userInput historySummary o = (Thrown, o) /\
  generateSceneImage visualPrompt o = (Thrown, o).
Proof.
  intros Hk. unfold Gemini.generateSceneLogic, Gemini.generateSceneImage, getClient.
  rewrite Hk. split; reflexivity.
Qed.

(** X3. With a key, [generateSceneLogic] sends exactly one request, whose
    contents is the user input as given and whose system instruction ends
    with the history summary followed by a line feed and two spaces, and
    it writes nothing to the console. It throws when the call fails and
    when the response has no text or the empty text, without parsing
    anything; otherwise its outcome is that of [JSON.parse] on the text. *)
Theorem logic_rejects_empty_text userInput historySummary o :
  truthy_value API_KEY = true ->
  let request := logic_request userInput historySummary in
  let outcome := generateSceneLogic userInput historySummary o in
  snd outcome = {| sent := request :: sent o; consoleErrors := consoleErrors o |} /\
  contents request = plain userInput /\
  (exists c, config request = Some c /\
             systemInstruction c =
               instruction_head ++ historySummary ++ [10; 32; 32]%N) /\
  (answer request = Thrown -> fst outcome = Thrown) /\
  (forall response, answer request = Normal response ->
     truthy_value (text response) = false -> fst outcome = Thrown) /\
  (forall response t, answer request = Normal response ->
     text response = Some t -> t <> [] -> fst outcome = JSON_parse t).
Proof.
  intros Hk request outcome. subst outcome.
  unfold Gemini.generateSceneLogic, getClient. rewrite Hk.
  unfold bind, generateContent, ret, throw. cbn [negb]. fold request.
  split; [|split; [reflexivity|split; [eexists; split; reflexivity|]]].
  - destruct (answer request) as [[cs [[|c t]|]]|]; reflexivity.
  - split; [intros ->; reflexivity|]. split.
    + intros response -> Ht. destruct response as [cs [[|c t]|]];
        simpl in *; try reflexivity. discriminate.
    + intros response t -> Ht Hne. destruct response as [cs tx].
      simpl in Ht. subst tx. simpl. destruct t; [congruence|reflexivity].
Qed.

Lemma first_inline_image_skips skipped rest o :
  forallb (fun p => negb (has_image p)) skipped = true ->
  first_inline_image (skipped ++ rest) o = first_inline_image rest o.
Proof.
  induction skipped as [|p skipped IH]; intros H; [reflexivity|].
  simpl in H. apply andb_prop in H as [Hp Hs]. simpl.
  unfold has_image in Hp. destruct (inlineData p) as [inline|]; [|auto].
  destruct (truthy_value (data inline)); [discriminate|auto].
Qed.

(** X4. [generateSceneImage] returns the data URL built from the first part of
    the first candidate that carries inline data: parts before it without
    data (or with empty data) are passed over, and neither the parts after
    it nor the other candidates are looked at. Nothing is written to the
    console. *)
Theorem image_is_first_inline_part visualPrompt o first others skipped part later
    inline payload t :
  truthy_value API_KEY = true ->
  answer (image_request visualPrompt) =
    Normal {| candidates := Some (first :: others); text := t |} ->
  content first = Some {| parts := Some (skipped ++ part :: later) |} ->
  forallb (fun p => negb (has_image p)) skipped = true ->
  inlineData part = Some inline ->
  data inline = Some payload -> payload <> [] ->
  generateSceneImage visualPrompt o =
    (Normal (lit "data:" ++ interpolate (mimeType inline) ++ lit ";base64," ++ payload),
     {| sent := image_request visualPrompt :: sent o;
        consoleErrors := consoleErrors o |}).
Proof.
  intros Hk Ha Hc Hs Hp Hd Hne.
  unfold Gemini.generateSceneImage, getClient. rewrite Hk.
  unfold bind, try_catch, generateContent, ret. cbn [negb]. rewrite Ha.
  cbn [candidates]. rewrite Hc. cbn [parts].
  rewrite first_inline_image_skips by exact Hs.
  simpl. rewrite Hp, Hd. simpl.
  destruct payload; [congruence|reflexivity].
Qed.

Lemma first_inline_image_outcome ps o :
  snd (first_inline_image ps o) = o /\
  forall url, fst (first_inline_image ps o) = Normal url ->
    exists mime payload,
      payload <> [] /\ url = lit "data:" ++ mime ++ lit ";base64," ++ payload.
Proof.
  induction ps as [|p ps IH]; simpl.
  - split; [reflexivity|discriminate].
  - destruct (inlineData p) as [[mime [payload|]]|]; simpl; try exact IH.
    destruct payload as [|c payload]; simpl; [exact IH|].
    split; [reflexivity|]. intros url [= <-].
    exists (interpolate mime), (c :: payload). split; [discriminate|reflexivity].
Qed.

(** X5. With a key, [generateSceneImage] sends exactly one request, carrying
    the visual prompt after the fixed style prefix. Whenever it throws (the
    call failed, there was no candidate, the first candidate had no content
    or no parts, or none of its parts carried data) it has written exactly
    one line to the console; whenever it returns it has written none, and
    what it returns is a data URL with a payload that is not empty. *)
Theorem image_failure_is_logged_once visualPrompt o :
  truthy_value API_KEY = true ->
  let outcome := generateSceneImage visualPrompt o in
  sent (snd outcome) = image_request visualPrompt :: sent o /\
  contents (image_request visualPrompt) =
    text_parts [image_prompt_head ++ visualPrompt] /\
  match fst outcome with
  | Thrown => consoleErrors (snd outcome) = S (consoleErrors o)
  | Normal url =>
      consoleErrors (snd outcome) = consoleErrors o /\
      exists mime payload,
        payload <> [] /\ url = lit "data:" ++ mime ++ lit ";base64," ++ payload
  end.
Proof.
  intros Hk outcome. subst outcome.
  unfold Gemini.generateSceneImage, getClient. rewrite Hk.
  unfold bind, try_catch, generateContent, ret, throw. cbn [negb].
  assert (Hscan : forall ps o',
            let r := match first_inline_image ps o' with
                     | (Normal v, s') => (Normal v, s')
                     | (Thrown, s') =>
                         match console_error s' with
                         | (Normal _, s2) => (Thrown, s2)
                         | (Thrown, s2) => (Thrown, s2)
                         end
                     end in
            sent (snd r) = sent o' /\
            match fst r with
            | Thrown => consoleErrors (snd r) = S (consoleErrors o')
            | Normal url =>
                consoleErrors (snd r) = consoleErrors o' /\
                exists mime payload,
                  payload <> [] /\
                  url = lit "data:" ++ mime ++ lit ";base64," ++ payload
            end).
  { intros ps o'. destruct (first_inline_image_outcome ps o') as [Hs Hu].
    destruct (first_inline_image ps o') as [[url|] o2]; simpl in *; subst o2.
    - split; [reflexivity|]. split; [reflexivity|]. apply Hu. reflexivity.
    - split; reflexivity. }
  split; [|split; [reflexivity|]];
    destruct (answer (image_request visualPrompt)) as [[[[|[[[[ps|]]|]] cs]|] t]|];
    try reflexivity; cbn [candidates content parts];
    match goal with
    | |- context [first_inline_image ps ?o'] => destruct (Hscan ps o') as [H1 H2]
    end; [exact H1|exact H2].
Qed.

End ServiceFacts.

(** ** More on the orchestrator *)

Section OrchestratorMore.

Import Audio App.
Variable initialState : ContextState.
Variable deviceSampleRate : Q.

Abbreviation handleStartGame := (handleStartGame initialState deviceSampleRate).
Abbreviation resetGame := (resetGame initialState deviceSampleRate).
Abbreviation step := (step initialState deviceSampleRate).
Abbreviation run := (run initialState deviceSampleRate).
Abbreviation playClick := (playClick initialState deviceSampleRate).
Abbreviation init := (init initialState deviceSampleRate).

(** After a click the context exists, and the click leaves the tracked
    ambience nodes alone. *)
Lemma has_ctx_playClick am : has_ctx (exec playClick am) = true.
Proof.
  destruct am as [[[[] t sr cl n]|] [mg|] an ag l ty], initialState;
    vm_compute; reflexivity.
Qed.

Lemma playClick_tracked am :
  ambienceNode (exec playClick am) = ambienceNode am /\
  lfo (exec playClick am) = lfo am.
Proof.
  destruct am as [[[[] t sr cl n]|] [mg|] an ag l ty], initialState;
    vm_compute; split; reflexivity.
Qed.

(** With a context, [stop()] schedules its timeout. *)
Lemma stop_now_scheduled am :
  has_ctx am = true -> stop_now am = (Normal true, exec stop_now am).
Proof.
  destruct am as [[x|] [mg|] an ag l ty]; try discriminate; reflexivity.
Qed.

(** Everything a Start with a non-blank premise leaves outside the game
    state. *)
Lemma handleStartGame_outside p svc w :
  truthy (trim p) = true ->
  let w' := exec (handleStartGame p svc) w in
  input w' = input w /\
  stopTimeouts w' = stopTimeouts w /\
  audio w' = exec playClick (exec resume (exec init (audio w))) /\
  requests w' =
    match logicAnswer svc with
    | Normal d => [generateSceneImage_request (Logic.visualPrompt d)]
    | Thrown => []
    end ++
    generateSceneLogic_request p
      (lit "Start of a new adventure. The player has just entered.")
    :: requests w /\
  consoleErrors w' =
    match logicAnswer svc, imageAnswer svc, uuid svc with
    | Normal _, Normal _, Normal _ => 0
    | Normal _, Thrown, _ => 2
    | _, _, _ => 1
    end + consoleErrors w.
Proof.
  intros Hp w'. subst w'. unfold exec, App.handleStartGame. rewrite Hp. cbn [negb].
  erewrite on_audio_bind by apply init_completes.
  erewrite on_audio_bind by apply resume_completes.
  erewrite on_audio_bind by apply playClick_completes.
  destruct svc as [[d|] [i|] [u|]]; repeat split; reflexivity.
Qed.

(** X6. A Start whose round fails (either request throws, or no identifier
    can be generated) leaves the session switched on: [isPlaying] is true
    and [loading] false, the error is the Start message, and the history
    and current scene are those from before. The failure is written to the
    console once by the handler, and once more by [generateSceneImage]
    when it was the image that failed. The audio engine has been
    initialised all the same. *)
Theorem failed_start_leaves_session_on p svc w :
  truthy (trim p) = true ->
  scene_of svc = None ->
  let w' := step w (Start p svc) in
  isPlaying (gameState w') = true /\
  loading (gameState w') = false /\
  error (gameState w') =
    Some (lit "Simulation failed. Connection interrupted. Try again.") /\
  history (gameState w') = history (gameState w) /\
  currentScene (gameState w') = currentScene (gameState w) /\
  consoleErrors w' =
    match logicAnswer svc, imageAnswer svc with
    | Normal _, Thrown => 2 + consoleErrors w
    | _, _ => 1 + consoleErrors w
    end /\
  has_ctx (audio w') = true.
Proof.
  intros Hp Hs w'. subst w'. simpl.
  destruct (handleStartGame_outside p svc w Hp) as (_ & _ & Ha & _ & He).
  rewrite (handleStartGame_gameState initialState deviceSampleRate p svc w Hp), Hs.
  repeat (split; [reflexivity|]). split.
  - rewrite He. unfold scene_of in Hs.
    destruct (logicAnswer svc), (imageAnswer svc), (uuid svc);
      try discriminate; reflexivity.
  - rewrite Ha. apply has_ctx_playClick.
Qed.

(** X7. The requests of a Start: the narrative request carries the premise
    exactly as typed (not trimmed) and the fixed opening summary; the image
    request goes out only after the narrative has come back, with the
    visual prompt it returned; nothing else is sent. *)
Theorem start_sends_premise_as_typed p svc w :
  truthy (trim p) = true ->
  requests (step w (Start p svc)) =
    match logicAnswer svc with
    | Normal d => [generateSceneImage_request (Logic.visualPrompt d)]
    | Thrown => []
    end ++
    generateSceneLogic_request p
      (lit "Start of a new adventure. The player has just entered.")
    :: requests w.
Proof.
  intros Hp. exact (proj1 (proj2 (proj2 (proj2 (handleStartGame_outside p svc w Hp))))).
Qed.

(** *** What holds between any two events *)

Lemma at_rest_step w op :
  Page.at_rest (gameState w) -> Page.at_rest (gameState (step w op)).
Proof.
  intros (Hc & Hl & Hp).
  destruct op as [p svc|o svc| | |v|]; simpl.
  - destruct (truthy (trim p)) eqn:E.
    + rewrite (handleStartGame_gameState initialState deviceSampleRate p svc w E).
      destruct (scene_of svc); repeat split; simpl; auto; discriminate.
    + unfold exec. rewrite handleStartGame_blank by exact E. repeat split; auto.
  - destruct (currentScene (gameState w)) as [sc|] eqn:E.
    + rewrite handleOptionSelect_gameState by (rewrite E; discriminate).
      assert (Hon : isPlaying (gameState w) = true).
      { destruct (isPlaying (gameState w)); [reflexivity|].
        rewrite Hp in Hc by reflexivity. simpl in Hc. congruence. }
      destruct (scene_of svc) as [new|]; unfold Page.at_rest; simpl.
      * rewrite last_snoc, Hon. split; [reflexivity|]. split; [reflexivity|].
        discriminate.
      * rewrite Hon, E. split; [exact Hc|]. split; [reflexivity|]. discriminate.
    + unfold exec. rewrite handleOptionSelect_no_scene by exact E.
      simpl. unfold Page.at_rest. rewrite E. auto.
  - destruct (resetGame_gameState initialState deviceSampleRate w) as [-> _].
    repeat split; reflexivity.
  - repeat split; simpl; auto.
  - repeat split; simpl; auto.
  - unfold fire_audio_stop. destruct (stopTimeouts w); repeat split; simpl; auto.
Qed.

(** X8. Whatever events the component has handled since it was mounted, in
    whatever order and with whatever outcomes, each handler having run to
    its end (the requests it awaits included) before the next event: the
    current scene is the last entry of the history (and there is none
    exactly when the history is empty), no round is left loading, and
    while the session is off the history is empty. *)
Theorem current_scene_is_last_of_history ops :
  let g := gameState (run initialWorld ops) in
  currentScene g = last (history g) /\
  (currentScene g = None <-> history g = []) /\
  loading g = false /\
  (isPlaying g = false -> history g = [] /\ currentScene g = None).
Proof.
  intros g. subst g.
  assert (H : Page.at_rest (gameState (run initialWorld ops))).
  { unfold App.run. induction ops as [|op ops IH] using rev_ind.
    - repeat split; reflexivity.
    - rewrite fold_left_app. simpl. apply at_rest_step. exact IH. }
  destruct H as (Hc & Hl & Hp).
  split; [exact Hc|]. split; [|split; [exact Hl|]].
  - rewrite Hc. apply last_None.
  - intros Hf. specialize (Hp Hf). rewrite Hc, Hp. auto.
Qed.

(** X9. The handler of an option button ([handleOptionClick] with
    [handleOptionSelect] behind it) plays exactly one click and does
    nothing else to the audio engine, to the text field or to the pending
    timers, whether the round goes through, fails, or stops at once for
    want of a current scene: the click is played even when the captured
    state has no current scene, and the sounds of a new scene are left to
    the effect of the canvas. *)
Theorem option_click_only_clicks captured o svc w :
  let w' := exec (Page.handleOptionClick initialState deviceSampleRate captured o svc) w in
  audio w' = exec playClick (audio w) /\
  input w' = input w /\
  stopTimeouts w' = stopTimeouts w.
Proof.
  intros w'. subst w'. unfold exec, Page.handleOptionClick.
  erewrite on_audio_bind by apply playClick_completes.
  unfold handleOptionSelect.
  destruct (currentScene captured); [|repeat split; reflexivity].
  destruct svc as [[d|] [i|] [u|]]; repeat split; reflexivity.
Qed.

(** X10. Reset always reaches the audio engine: its click creates the context
    if need be, so the master volume is ramped to zero and exactly one
    timeout is scheduled. When that timeout comes due, every node the
    engine tracked has been stopped, no node and no mood is tracked any
    more, and (unless the context is closed) its suspension has been
    requested; the game state stays the initial one. *)
Theorem reset_silences_audio w :
  Audio.reachable (audio w) ->
  let w1 := step w Reset in
  let w2 := step w1 AudioStopFires in
  stopTimeouts w1 = S (stopTimeouts w) /\
  has_ctx (audio w1) = true /\
  (exists mg t, masterGain (audio w1) = Some mg /\
     hd_error (log (audio w1)) = Some (setTargetAtTime mg gain 0%Q t 0.1%Q)) /\
  stopTimeouts w2 = stopTimeouts w /\
  gameState w2 = initialGameState /\
  ambienceNode (audio w2) = None /\
  lfo (audio w2) = None /\
  currentAmbienceType (audio w2) = None /\
  (forall k, tracked (audio w) k -> stopped (log (audio w2)) k = true) /\
  (forall x, ctx (audio w1) = Some x -> state x <> closed ->
     hd_error (log (audio w2)) = Some ctx_suspend).
Proof.
  intros Hr w1 w2.
  assert (Hc1 : consistent (exec playClick (audio w)))
    by (apply reachable_consistent; constructor; exact Hr).
  assert (Hh1 : has_ctx (exec playClick (audio w)) = true)
    by apply has_ctx_playClick.
  destruct (consistent_ctx _ Hc1 Hh1)
    as (x & mg & g & Hx & Hm & Hg & _).
  pose proof (playClick_tracked (audio w)) as Htr.
  assert (E1 : w1 =
    {| input := empty_string; gameState := initialGameState;
       audio := exec stop_now (exec playClick (audio w));
       stopTimeouts := S (stopTimeouts w); requests := requests w;
       consoleErrors := consoleErrors w |}).
  { subst w1. simpl. unfold exec at 1, App.resetGame.
    erewrite on_audio_bind by apply playClick_completes.
    erewrite on_audio_bind
      by (cbn [audio with_audio]; rewrite stop_now_scheduled by exact Hh1;
          reflexivity).
    reflexivity. }
  assert (Ea : audio w1 = with_ctx (Some (push (mute_calls x (Some mg)) 0 x))
                            (exec playClick (audio w))).
  { rewrite E1. cbn [audio]. rewrite (stop_now_closed _ x Hx), Hm. reflexivity. }
  assert (E2 : w2 =
    {| input := empty_string; gameState := initialGameState;
       audio := exec stop_timeout (audio w1);
       stopTimeouts := stopTimeouts w; requests := requests w;
       consoleErrors := consoleErrors w |}).
  { subst w2. rewrite E1. reflexivity. }
  split; [rewrite E1; reflexivity|].
  split; [rewrite Ea; reflexivity|].
  split.
  { exists mg, (currentTime x). rewrite Ea. split; [exact Hm|reflexivity]. }
  split; [rewrite E2; reflexivity|].
  split; [rewrite E2; reflexivity|].
  rewrite E2. cbn [audio].
  erewrite stop_timeout_closed by (rewrite Ea; reflexivity).
  cbn [ambienceNode lfo currentAmbienceType ctx log push calls].
  repeat (split; [reflexivity|]). split.
  - intros k Hk. rewrite Ea. cbn [ambienceNode lfo with_ctx].
    destruct Htr as [-> ->].
    apply stopped_In. rewrite !in_app_iff. left. right.
    apply teardown_In. exists k. split; [reflexivity|exact Hk].
  - intros x1 Hx1 Hst. rewrite Ea in Hx1. injection Hx1 as <-.
    unfold suspend_calls. cbn [push state] in *.
    rewrite bool_decide_eq_false_2 by exact Hst. reflexivity.
Qed.

End OrchestratorMore.

(** ** The page *)

Section PageFacts.

Import Audio App Page Optional.
Variable initialState : ContextState.
Variable deviceSampleRate : Q.

Abbreviation react := (react initialState deviceSampleRate).
Abbreviation session := (session initialState deviceSampleRate).

(** A session that is on with no scene: what the page offers then, and
    that anything but Reset keeps it so. *)
Lemma stranded_step key w op :
  truthy_value key = true ->
  isPlaying (gameState w) = true ->
  currentScene (gameState w) = None ->
  loading (gameState w) = false ->
  offers key w op = true ->
  (op = Reset \/ op = DismissError \/ op = AudioStopFires) /\
  (is_reset op = false ->
   isPlaying (gameState (react w op)) = true /\
   currentScene (gameState (react w op)) = None /\
   loading (gameState (react w op)) = false).
Proof.
  intros Hk Hp Hc Hl Ho. unfold offers, view in Ho.
  rewrite Hk, Hp, Hc, Hl in Ho. simpl in Ho.
  destruct op as [p svc|o svc| | |v|]; try discriminate.
  - split; [auto|discriminate].
  - split; [auto|]. intros _. simpl. auto.
  - split; [auto|]. intros _. simpl. unfold fire_audio_stop.
    destruct (stopTimeouts w); simpl; auto.
Qed.

(** X11. When the first Start of a session fails, the page is rendered with
    the game canvas and no scene on it (its placeholder), and with the
    error overlay: the landing page with its text field and start button
    is gone. From then on, through any events for which the page has a
    control (taken one at a time) short of "Abort Sim", the page keeps
    rendering the empty canvas without the landing page, and the only
    controls it renders are "Abort Sim" and, while the overlay is up,
    "Reboot System"; in particular the Start cannot be tried again. Only
    the abort brings the landing page back, with an empty text field. *)
Theorem failed_first_start_needs_abort key w svc :
  truthy_value key = true ->
  at_rest (gameState w) ->
  isPlaying (gameState w) = false ->
  truthy (trim (input w)) = true ->
  scene_of svc = None ->
  let w1 := react w (Start (input w) svc) in
  offers key w (Start (input w) svc) = true /\
  view key w1 =
    Main true None (Some None) None
      (Some (lit "Simulation failed. Connection interrupted. Try again.")) /\
  forall ops w',
    forallb (fun op => negb (is_reset op)) ops = true ->
    session key w1 ops = Some w' ->
    (exists overlay, view key w' = Main true None (Some None) None overlay) /\
    (forall op, offers key w' op = true ->
       op = Reset \/ op = DismissError \/ op = AudioStopFires) /\
    offers key w' Reset = true /\
    view key (react w' Reset) =
      Main false (Some {| value := empty_string; disabled := true |}) None None None.
Proof.
  intros Hk (Hc & Hl & Hh) Hp Hi Hs w1.
  assert (Hg1 : gameState w1 =
            {| isPlaying := true; currentScene := None; history := [];
               loading := false;
               loadingMessage :=
                 match logicAnswer svc with
                 | Normal _ => lit "Materializing World..."
                 | Thrown => lit "Weaving the Narrative..."
                 end;
               error := Some (lit "Simulation failed. Connection interrupted. Try again.") |}).
  { subst w1. simpl.
    rewrite (handleStartGame_gameState initialState deviceSampleRate _ svc w Hi), Hs.
    rewrite (Hh Hp) in *. simpl in Hc. rewrite Hc. reflexivity. }
  split.
  { unfold offers, view. rewrite Hk, Hp, Hl. simpl.
    apply bool_decide_eq_true_2. reflexivity. }
  split.
  { unfold view. rewrite Hk, Hg1. reflexivity. }
  assert (Hinv : isPlaying (gameState w1) = true /\
                 currentScene (gameState w1) = None /\
                 loading (gameState w1) = false)
    by (rewrite Hg1; auto).
  clearbody w1. clear - Hk Hinv.
  intros ops. revert w1 Hinv.
  induction ops as [|op ops IH]; intros w1 (H1 & H2 & H3) w' Hq Hrun.
  - injection Hrun as <-.
    split; [|split; [|split]].
    + unfold view. rewrite Hk, H1, H2, H3. simpl. eauto.
    + intros op Ho. exact (proj1 (stranded_step key w1 op Hk H1 H2 H3 Ho)).
    + unfold offers, view. rewrite Hk, H1. reflexivity.
    + unfold view. rewrite Hk. simpl.
      destruct (resetGame_gameState initialState deviceSampleRate w1) as [-> ->].
      reflexivity.
  - simpl in Hq, Hrun. apply andb_prop in Hq as [Hop Hq].
    apply negb_true_iff in Hop.
    destruct (offers key w1 op) eqn:Ho; [|discriminate].
    destruct (stranded_step key w1 op Hk H1 H2 H3 Ho) as [_ Hnext].
    exact (IH _ (Hnext Hop) w' Hq Hrun).
Qed.

End PageFacts.

(** ** More on the audio engine *)

Section EngineFacts.

Import Audio Engine.
Variable initialState : ContextState.
Variable deviceSampleRate : Q.

Abbreviation init := (init initialState deviceSampleRate).
Abbreviation playClick := (playClick initialState deviceSampleRate).
Abbreviation playTransition := (playTransition initialState deviceSampleRate).
Abbreviation setAmbience := (setAmbience initialState deviceSampleRate).

(** *** Calls that leave the graph alone *)

Lemma resume_quiet x c : In c (resume_calls x) -> touches_graph c = false.
Proof.
  unfold resume_calls. case_bool_decide; simpl; intuition (subst; reflexivity).
Qed.

Lemma unmute_quiet x mg c : In c (unmute_calls x mg) -> touches_graph c = false.
Proof.
  unfold unmute_calls. case_bool_decide; [|intros []].
  destruct mg; simpl; intuition (subst; reflexivity).
Qed.

Lemma mute_quiet x mg c : In c (mute_calls x mg) -> touches_graph c = false.
Proof. unfold mute_calls. destruct mg; simpl; intuition (subst; reflexivity). Qed.

Lemma suspend_quiet x c : In c (suspend_calls x) -> touches_graph c = false.
Proof.
  unfold suspend_calls. case_bool_decide; simpl; intuition (subst; reflexivity).
Qed.

(** *** The two gains *)

Lemma gain_chain_extend am am' x x' new :
  gain_chain am ->
  ctx am = Some x -> ctx am' = Some x' ->
  calls x' = new ++ calls x ->
  masterGain am' = masterGain am -> ambienceGain am' = ambienceGain am ->
  (forall n d, In (connect n d) new -> 2 <= n) ->
  gain_chain am'.
Proof.
  intros (Hm & Hg & H0 & H1) Hx Hx' Hc Em Eg Hnew.
  unfold gain_chain, log in *. rewrite Hx in *. rewrite Hx', Hc, Em, Eg.
  split; [exact Hm|]. split; [exact Hg|].
  split; intros d; rewrite in_app_iff.
  - rewrite <- H0. split; [|auto]. intros [H|H]; [|exact H].
    apply Hnew in H. lia.
  - rewrite <- H1. split; [|auto]. intros [H|H]; [|exact H].
    apply Hnew in H. lia.
Qed.

Lemma quiet_no_connect (l : list Call) :
  (forall c, In c l -> touches_graph c = false) ->
  forall n d, In (connect n d) l -> 2 <= n.
Proof. intros H n d Hc. apply H in Hc. discriminate. Qed.

Lemma teardown_no_connect an l n d : In (connect n d) (teardown_calls an l) -> 2 <= n.
Proof. intros H. apply teardown_In in H as (k & E & _). discriminate. Qed.

Lemma click_connects n mg t m d : In (connect m d) (click_calls n mg t) -> n <= m.
Proof.
  simpl. intuition (try discriminate);
    match goal with H : connect _ _ = connect _ _ |- _ => injection H as <- _ end; lia.
Qed.

Lemma transition_connects n mg t r m d :
  In (connect m d) (transition_calls n mg t r) -> n <= m.
Proof.
  simpl. intuition (try discriminate);
    match goal with H : connect _ _ = connect _ _ |- _ => injection H as <- _ end; lia.
Qed.

Lemma gain_chain_created : gain_chain (created initialState deviceSampleRate).
Proof.
  split; [reflexivity|]. split; [reflexivity|].
  split; intros d; simpl; split;
    intuition (try discriminate; try congruence).
Qed.

(** Every method keeps the two gains and their wiring. *)
Lemma gain_chain_init am :
  consistent am -> has_ctx am = true -> gain_chain am -> gain_chain (exec init am).
Proof.
  intros Hc Hh Hg.
  destruct (consistent_ctx am Hc Hh) as (x & mg & g & Hx & _).
  rewrite (init_closed initialState deviceSampleRate am x Hx).
  eapply (gain_chain_extend am _ x _ (resume_calls x)); eauto; try reflexivity.
  apply quiet_no_connect, resume_quiet.
Qed.

Lemma gain_chain_resume am :
  consistent am -> has_ctx am = true -> gain_chain am -> gain_chain (exec resume am).
Proof.
  intros Hc Hh Hg.
  destruct (consistent_ctx am Hc Hh) as (x & mg & g & Hx & _).
  rewrite (resume_closed am x Hx).
  eapply (gain_chain_extend am _ x _ (unmute_calls x (masterGain am)));
    eauto; try reflexivity.
  apply quiet_no_connect, unmute_quiet.
Qed.

Lemma gain_chain_stop_now am :
  consistent am -> has_ctx am = true -> gain_chain am -> gain_chain (exec stop_now am).
Proof.
  intros Hc Hh Hg.
  destruct (consistent_ctx am Hc Hh) as (x & mg & g & Hx & _).
  rewrite (stop_now_closed am x Hx).
  eapply (gain_chain_extend am _ x _ (mute_calls x (masterGain am)));
    eauto; try reflexivity.
  apply quiet_no_connect, mute_quiet.
Qed.

Lemma gain_chain_stopAmbience am :
  consistent am -> has_ctx am = true -> gain_chain am ->
  gain_chain (exec stopAmbience am).
Proof.
  intros Hc Hh Hg.
  destruct (consistent_ctx am Hc Hh) as (x & mg & g & Hx & _).
  rewrite stopAmbience_closed, Hx.
  eapply (gain_chain_extend am _ x _ (teardown_calls (ambienceNode am) (lfo am)));
    eauto; try reflexivity.
  apply teardown_no_connect.
Qed.

Lemma gain_chain_stop_timeout am :
  consistent am -> has_ctx am = true -> gain_chain am ->
  gain_chain (exec stop_timeout am).
Proof.
  intros Hc Hh Hg.
  destruct (consistent_ctx am Hc Hh) as (x & mg & g & Hx & _).
  rewrite (stop_timeout_closed am x Hx).
  eapply (gain_chain_extend am _ x _
            (suspend_calls x ++ teardown_calls (ambienceNode am) (lfo am)));
    eauto; try reflexivity.
  intros n d H. apply in_app_or in H as [H|H].
  - apply suspend_quiet in H. discriminate.
  - eapply teardown_no_connect. exact H.
Qed.

Lemma gain_chain_playClick am :
  consistent am -> has_ctx am = true -> gain_chain am ->
  gain_chain (exec playClick am).
Proof.
  intros Hc Hh Hg.
  destruct (consistent_ctx am Hc Hh) as (x & mg & g & Hx & Hm & Hag & Hmb & Hgb & _).
  rewrite (playClick_closed initialState deviceSampleRate am x mg Hx Hm).
  eapply (gain_chain_extend am _ x _
            (click_calls (nodes x) mg (currentTime x) ++ resume_calls x));
    eauto; try reflexivity.
  destruct Hg as (E0 & E1 & _). rewrite Hm in E0. rewrite Hag in E1.
  injection E0 as ->. injection E1 as ->.
  intros n d H. apply in_app_or in H as [H|H].
  - apply click_connects in H. lia.
  - apply resume_quiet in H. discriminate.
Qed.

Lemma gain_chain_playTransition am :
  consistent am -> has_ctx am = true -> gain_chain am ->
  gain_chain (exec playTransition am).
Proof.
  intros Hc Hh Hg.
  destruct (consistent_ctx am Hc Hh) as (x & mg & g & Hx & Hm & Hag & Hmb & Hgb & _).
  rewrite (playTransition_closed initialState deviceSampleRate am x mg Hx Hm).
  eapply (gain_chain_extend am _ x _
            (transition_calls (nodes x) mg (currentTime x) (sampleRate x) ++
             resume_calls x));
    eauto; try reflexivity.
  destruct Hg as (E0 & E1 & _). rewrite Hm in E0. rewrite Hag in E1.
  injection E0 as ->. injection E1 as ->.
  intros n d H. apply in_app_or in H as [H|H].
  - apply transition_connects in H. lia.
  - apply resume_quiet in H. discriminate.
Qed.

Lemma gain_chain_setAmbience type am :
  consistent am -> has_ctx am = true -> gain_chain am ->
  gain_chain (exec (setAmbience type) am).
Proof.
  intros Hc Hh Hg.
  destruct (consistent_ctx am Hc Hh) as (x & mg & g & Hx & Hm & Hag & Hmb & Hgb & _).
  destruct (decide (currentAmbienceType am = Some type)) as [Hty|Hty].
  - rewrite (setAmbience_same initialState deviceSampleRate type am x Hx Hty).
    eapply (gain_chain_extend am _ x _ (wake_calls x (masterGain am)));
      eauto; try reflexivity.
    apply quiet_no_connect. intros c. apply wake_quiet.
  - rewrite (setAmbience_switch initialState deviceSampleRate type am x g Hx Hag Hty).
    eapply (gain_chain_extend am _ x _
              (graph_calls type (nodes x) g (currentTime x) (sampleRate x) ++
               fade_in_calls g (currentTime x) ++
               teardown_calls (ambienceNode am) (lfo am) ++
               wake_calls x (masterGain am)));
      [exact Hg|exact Hx|reflexivity| | | |].
    + cbn [calls]. rewrite <- !app_assoc. reflexivity.
    + reflexivity.
    + simpl. symmetry. exact Hag.
    + destruct Hg as (E0 & E1 & _). rewrite Hm in E0. rewrite Hag in E1.
      injection E0 as ->. injection E1 as ->.
      intros n d H. rewrite !in_app_iff in H. destruct H as [H|[H|[H|H]]].
      * apply (graph_acts_on_new _ _ _ _ _ _ n) in H; [lia|reflexivity].
      * apply fade_quiet in H. discriminate.
      * eapply teardown_no_connect. exact H.
      * apply wake_quiet in H. discriminate.
Qed.

Lemma gain_chain_browser s t am : gain_chain am -> gain_chain (browser_moves s t am).
Proof.
  intros H. unfold browser_moves.
  destruct (ctx am) as [x|] eqn:E; [|exact H].
  unfold gain_chain, log in *. rewrite E in H. exact H.
Qed.

End EngineFacts.

(** The two gains and their wiring, on every engine the program can have
    reached. *)
Lemma reachable_gain_chain am :
  Audio.reachable am -> Audio.has_ctx am = true -> Engine.gain_chain am.
Proof.
  intros Hr.
  induction Hr as [|s r am Hr IH|am Hr IH|am Hr IH|am Hr IH|s r am Hr IH
                  |am Hr IH|s r am Hr IH|s r type am Hr IH|s t am Hr IH];
    intros Hh; try pose proof (reachable_consistent _ Hr) as Hc.
  - discriminate.
  - destruct (Audio.has_ctx am) eqn:E; [now apply gain_chain_init; auto|].
    rewrite (Audio.cons_fresh am Hc E), fresh_init.
    apply gain_chain_init;
      [apply consistent_created|reflexivity|apply gain_chain_created].
  - destruct (Audio.has_ctx am) eqn:E; [now apply gain_chain_resume; auto|].
    rewrite (Audio.cons_fresh am Hc E) in Hh. discriminate.
  - destruct (Audio.has_ctx am) eqn:E; [now apply gain_chain_stop_now; auto|].
    rewrite (Audio.cons_fresh am Hc E) in Hh. discriminate.
  - destruct (Audio.has_ctx am) eqn:E; [now apply gain_chain_stop_timeout; auto|].
    rewrite (Audio.cons_fresh am Hc E) in Hh. discriminate.
  - destruct (Audio.has_ctx am) eqn:E; [now apply gain_chain_playClick; auto|].
    rewrite (Audio.cons_fresh am Hc E), fresh_playClick.
    apply gain_chain_playClick;
      [apply consistent_created|reflexivity|apply gain_chain_created].
  - destruct (Audio.has_ctx am) eqn:E; [now apply gain_chain_stopAmbience; auto|].
    rewrite (Audio.cons_fresh am Hc E) in Hh. discriminate.
  - destruct (Audio.has_ctx am) eqn:E; [now apply gain_chain_playTransition; auto|].
    rewrite (Audio.cons_fresh am Hc E), fresh_playTransition.
    apply gain_chain_playTransition;
      [apply consistent_created|reflexivity|apply gain_chain_created].
  - destruct (Audio.has_ctx am) eqn:E; [now apply gain_chain_setAmbience; auto|].
    rewrite (Audio.cons_fresh am Hc E), fresh_setAmbience.
    apply gain_chain_setAmbience;
      [apply consistent_created|reflexivity|apply gain_chain_created].
  - apply gain_chain_browser. apply IH.
    unfold Audio.has_ctx, Audio.browser_moves in *.
    destruct (Audio.ctx am) eqn:E; [reflexivity|]. rewrite E in Hh. exact Hh.
Qed.

(** X12. On every engine the program can have reached, once the context
    exists: the master gain is the first node created and the ambience
    gain the second, whatever has been played since; the master gain is
    connected to the destination and to nothing else, and the ambience gain
    to the master gain and to nothing else. A later [init()] creates no
    node and keeps both. *)
Theorem gains_are_built_once am :
  Audio.reachable am ->
  Audio.has_ctx am = true ->
  Engine.gain_chain am /\
  forall s r,
    let am' := exec (Audio.init s r) am in
    Audio.node_count am' = Audio.node_count am /\
    Audio.masterGain am' = Audio.masterGain am /\
    Audio.ambienceGain am' = Audio.ambienceGain am /\
    Engine.gain_chain am'.
Proof.
  intros Hr Hh.
  split; [apply reachable_gain_chain; assumption|].
  intros s r am'.
  pose proof (reachable_consistent _ Hr) as Hc.
  destruct (consistent_ctx am Hc Hh) as (x & mg & g & Hx & _).
  assert (E : am' = Audio.with_ctx (Some (Audio.push (Audio.resume_calls x) 0 x)) am)
    by (apply init_closed; exact Hx).
  split; [rewrite E; unfold Audio.node_count; simpl; rewrite Hx; reflexivity|].
  split; [rewrite E; reflexivity|]. split; [rewrite E; reflexivity|].
  apply reachable_gain_chain; [constructor; exact Hr|].
  rewrite E. reflexivity.
Qed.

(** *** What a call changes for the nodes that were there before *)

Section LivenessFacts.

Import Audio Engine.
Variable initialState : ContextState.
Variable deviceSampleRate : Q.

Abbreviation init := (init initialState deviceSampleRate).
Abbreviation playClick := (playClick initialState deviceSampleRate).
Abbreviation playTransition := (playTransition initialState deviceSampleRate).
Abbreviation setAmbience := (setAmbience initialState deviceSampleRate).

(** Newer calls that, on the nodes that existed before them, build
    nothing and only stop: such a node sounds afterwards exactly when it
    sounded before and is not among the stopped, and what it feeds is
    unchanged. *)
Lemma old_node_extend n old new now k g :
  Forall (call_bounded n) old ->
  (forall c j, In c new -> touches_graph c = true -> subject c = Some j ->
     j < n -> c = stop j None) ->
  k < n ->
  (sounding (new ++ old) now k <->
   sounding old now k /\ ~ In (stop k None) new) /\
  (feeds (new ++ old) k g <-> feeds old k g).
Proof.
  intros Hold Hnew Hk.
  assert (Hin : forall c, touches_graph c = true -> subject c = Some k ->
            c <> stop k None -> In c (new ++ old) <-> In c old).
  { intros c Ht Hs Hne. rewrite in_app_iff. split; [|auto].
    intros [H|H]; [|exact H]. exfalso. apply Hne. eapply Hnew; eauto. }
  split.
  - rewrite !sounding_In.
    rewrite (Hin (create OscillatorNode k)), (Hin (create AudioBufferSourceNode k)),
      (Hin (start k)) by (reflexivity || discriminate).
    rewrite in_app_iff.
    split.
    + intros (H1 & H2 & H3 & H4). repeat split; auto.
      intros t Ht. apply H4. apply in_or_app. auto.
    + intros ((H1 & H2 & H3 & H4) & H5). repeat split; auto.
      * intros [H|H]; auto.
      * intros t Ht. apply H4. apply Hin in Ht; auto; discriminate.
  - split.
    + apply feeds_old with (k := n); [exact Hold| |exact Hk].
      intros a d H. apply in_app_or in H as [H|H]; [|auto].
      destruct (Nat.lt_ge_cases a n) as [Ha|Ha]; [|auto].
      assert (E : connect a d = stop a None) by (eapply Hnew; eauto).
      discriminate.
    + apply feeds_weaken. intros a d H. apply in_or_app. auto.
Qed.

(** The sounding sources of the ambience graph after such calls, when
    the sources they start themselves do not reach the ambience gain. *)
Lemma extend_live am am' x x' g new :
  consistent am ->
  ctx am = Some x -> ctx am' = Some x' ->
  calls x' = new ++ calls x -> currentTime x' = currentTime x ->
  ambienceGain am = Some g -> ambienceGain am' = Some g ->
  (forall c j, In c new -> touches_graph c = true -> subject c = Some j ->
     j < nodes x -> c = stop j None) ->
  (forall k, In (start k) new -> ~ feeds (new ++ calls x) k g) ->
  forall k, ambience_live am' k <-> ambience_live am k /\ ~ In (stop k None) new.
Proof.
  intros Hc Hx Hx' Hcalls Htime Hg Hg' Hnew Hsrc k.
  assert (Hh : has_ctx am = true) by (unfold has_ctx; rewrite Hx; reflexivity).
  destruct (consistent_ctx am Hc Hh) as (x0 & mg & g0 & E & _ & _ & _ & _ & _ & _ & Hold).
  rewrite Hx in E. injection E as <-.
  unfold ambience_live. rewrite Hx, Hx', Hg, Hg'.
  destruct (Nat.lt_ge_cases k (nodes x)) as [Hk|Hk].
  - destruct (old_node_extend (nodes x) (calls x) new (currentTime x) k g Hold Hnew Hk)
      as [Hs Hf].
    split.
    + intros (x1 & g1 & [= <-] & [= <-] & H1 & H2).
      rewrite Hcalls, Htime in H1. rewrite Hcalls in H2.
      apply Hs in H1 as [H1 Hn]. apply Hf in H2.
      split; [|exact Hn]. exists x, g. auto.
    + intros ((x1 & g1 & [= <-] & [= <-] & H1 & H2) & Hn).
      exists x', g. split; [reflexivity|]. split; [reflexivity|].
      rewrite Hcalls, Htime. split; [apply Hs; auto|apply Hf; exact H2].
  - split.
    + intros (x1 & g1 & [= <-] & [= <-] & H1 & H2). exfalso.
      rewrite Hcalls in H1, H2. apply sounding_In in H1 as (_ & Hst & _).
      apply in_app_or in Hst as [Hst|Hst].
      * exact (Hsrc k Hst H2).
      * apply (bounded_subject _ _ _ Hold) in Hst. simpl in Hst. lia.
    + intros ((x1 & g1 & [= <-] & [= <-] & H1 & H2) & _). exfalso.
      apply sounding_In in H1 as (_ & Hst & _).
      apply (bounded_subject _ _ _ Hold) in Hst. simpl in Hst. lia.
Qed.

(** Calls that leave the graph alone leave what sounds as it is. *)
Lemma quiet_live am am' x x' g new :
  consistent am ->
  ctx am = Some x -> ctx am' = Some x' ->
  calls x' = new ++ calls x -> currentTime x' = currentTime x ->
  ambienceGain am = Some g -> ambienceGain am' = Some g ->
  (forall c, In c new -> touches_graph c = false) ->
  forall k, ambience_live am' k <-> ambience_live am k.
Proof.
  intros Hc Hx Hx' Hcalls Htime Hg Hg' Hq k.
  rewrite (extend_live am am' x x' g new Hc Hx Hx' Hcalls Htime Hg Hg').
  - split; [intros [H _]; exact H|]. intros H. split; [exact H|].
    intros Hs. apply Hq in Hs. discriminate.
  - intros c j Hin Ht. apply Hq in Hin. congruence.
  - intros j Hs. apply Hq in Hs. discriminate.
Qed.

(** Following the one wire that leaves a node. *)
Lemma feeds_next l a c next :
  (forall d, In (connect a d) l -> target d = next) ->
  feeds l a c -> a = c \/ exists b, next = Some b /\ feeds l b c.
Proof.
  intros Hn H. destruct H as [a|a b c (d & Hd & Ht) Hf]; [auto|].
  right. exists b. split; [|exact Hf]. rewrite <- Ht. symmetry. apply Hn, Hd.
Qed.

(** What a click or a transition starts goes to the master gain, and
    from there to the destination: never into the ambience gain. *)
Lemma click_misses_ambience x t k :
  Forall (call_bounded (nodes x)) (calls x) ->
  2 <= nodes x ->
  (forall d, In (connect 0 d) (calls x) <-> d = destination) ->
  In (start k) (click_calls (nodes x) 0 t ++ resume_calls x) ->
  ~ feeds ((click_calls (nodes x) 0 t ++ resume_calls x) ++ calls x) k 1.
Proof.
  intros Hold Hn H0 Hs Hf.
  set (n := nodes x) in *.
  assert (Hwire : forall a d,
            In (connect a d) ((click_calls n 0 t ++ resume_calls x) ++ calls x) ->
            (a = n /\ d = node (S n)) \/ (a = S n /\ d = node 0) \/
            In (connect a d) (calls x)).
  { intros a d H. rewrite !in_app_iff in H. destruct H as [[H|H]|H]; [| |auto].
    - simpl in H. intuition (try discriminate);
        match goal with E : connect _ _ = connect _ _ |- _ =>
          injection E as <- <- end; auto.
    - apply resume_quiet in H. discriminate. }
  assert (Hk : k = n).
  { apply in_app_or in Hs as [Hs|Hs].
    - simpl in Hs. intuition (try discriminate). congruence.
    - apply resume_quiet in Hs. discriminate. }
  subst k.
  apply (feeds_next _ _ _ (Some (S n))) in Hf as [E|(b & [= <-] & Hf)]; [lia| |].
  2:{ intros d H. apply Hwire in H as [[_ ->]|[[E _]|H]]; [reflexivity|lia|].
      apply (bounded_subject _ _ _ Hold) in H. simpl in H. lia. }
  apply (feeds_next _ _ _ (Some 0)) in Hf as [E|(b & [= <-] & Hf)]; [lia| |].
  2:{ intros d H. apply Hwire in H as [[E _]|[[_ ->]|H]]; [lia|reflexivity|].
      apply (bounded_subject _ _ _ Hold) in H. simpl in H. lia. }
  apply (feeds_next _ _ _ None) in Hf as [E|(b & E & _)]; [lia|discriminate|].
  intros d H. apply Hwire in H as [[E _]|[[E _]|H]]; [lia|lia|].
  apply H0 in H. subst d. reflexivity.
Qed.

Lemma transition_misses_ambience x t k :
  Forall (call_bounded (nodes x)) (calls x) ->
  2 <= nodes x ->
  (forall d, In (connect 0 d) (calls x) <-> d = destination) ->
  In (start k) (transition_calls (nodes x) 0 t (sampleRate x) ++ resume_calls x) ->
  ~ feeds ((transition_calls (nodes x) 0 t (sampleRate x) ++ resume_calls x)
           ++ calls x) k 1.
Proof.
  intros Hold Hn H0 Hs Hf.
  set (n := nodes x) in *.
  assert (Hwire : forall a d,
            In (connect a d)
               ((transition_calls n 0 t (sampleRate x) ++ resume_calls x) ++ calls x) ->
            (a = n /\ d = node (S n)) \/ (a = S n /\ d = node (S (S n))) \/
            (a = S (S n) /\ d = node 0) \/
            In (connect a d) (calls x)).
  { intros a d H. rewrite !in_app_iff in H. destruct H as [[H|H]|H]; [| |auto].
    - simpl in H. intuition (try discriminate);
        match goal with E : connect _ _ = connect _ _ |- _ =>
          injection E as <- <- end; auto.
    - apply resume_quiet in H. discriminate. }
  assert (Hk : k = n).
  { apply in_app_or in Hs as [Hs|Hs].
    - simpl in Hs. intuition (try discriminate). congruence.
    - apply resume_quiet in Hs. discriminate. }
  subst k.
  apply (feeds_next _ _ _ (Some (S n))) in Hf as [E|(b & [= <-] & Hf)]; [lia| |].
  2:{ intros d H. apply Hwire in H as [[_ ->]|[[E _]|[[E _]|H]]];
        [reflexivity|lia|lia|].
      apply (bounded_subject _ _ _ Hold) in H. simpl in H. lia. }
  apply (feeds_next _ _ _ (Some (S (S n)))) in Hf as [E|(b & [= <-] & Hf)]; [lia| |].
  2:{ intros d H. apply Hwire in H as [[E _]|[[_ ->]|[[E _]|H]]];
        [lia|reflexivity|lia|].
      apply (bounded_subject _ _ _ Hold) in H. simpl in H. lia. }
  apply (feeds_next _ _ _ (Some 0)) in Hf as [E|(b & [= <-] & Hf)]; [lia| |].
  2:{ intros d H. apply Hwire in H as [[E _]|[[E _]|[[_ ->]|H]]];
        [lia|lia|reflexivity|].
      apply (bounded_subject _ _ _ Hold) in H. simpl in H. lia. }
  apply (feeds_next _ _ _ None) in Hf as [E|(b & E & _)]; [lia|discriminate|].
  intros d H. apply Hwire in H as [[E _]|[[E _]|[[E _]|H]]]; [lia|lia|lia|].
  apply H0 in H. subst d. reflexivity.
Qed.

(** The shape of an engine with a context and its two gains in place. *)
Lemma chained_ctx am :
  consistent am -> has_ctx am = true -> gain_chain am ->
  exists x,
    ctx am = Some x /\ masterGain am = Some 0 /\ ambienceGain am = Some 1 /\
    2 <= nodes x /\
    below (nodes x) (ambienceNode am) /\ below (nodes x) (lfo am) /\
    Forall (call_bounded (nodes x)) (calls x) /\
    (forall d, In (connect 0 d) (calls x) <-> d = destination).
Proof.
  intros Hc Hh (Hm & Hg & H0 & _).
  destruct (consistent_ctx am Hc Hh)
    as (x & mg & g & Hx & Em & Eg & Hmb & Hgb & Han & Hl & Hold).
  rewrite Hg in Eg. injection Eg as <-.
  exists x. unfold log in H0. rewrite Hx in H0.
  repeat (split; [assumption || lia|]). exact H0.
Qed.

Lemma new_subject_not_old (new : list Call) n :
  (forall c j, In c new -> subject c = Some j -> n <= j) ->
  forall c j, In c new -> touches_graph c = true -> subject c = Some j ->
    j < n -> c = stop j None.
Proof. intros H c j Hin _ Hs Hj. apply (H c j Hin) in Hs. lia. Qed.

Lemma click_subjects n mg t c j :
  In c (click_calls n mg t) -> subject c = Some j -> n <= j.
Proof.
  simpl. intuition (subst; simpl in *;
    match goal with E : Some _ = Some _ |- _ => injection E as <-; lia end).
Qed.

Lemma transition_subjects n mg t r c j :
  In c (transition_calls n mg t r) -> subject c = Some j -> n <= j.
Proof.
  simpl. intuition (subst; simpl in *; try discriminate;
    match goal with E : Some _ = Some _ |- _ => injection E as <-; lia end).
Qed.

Lemma click_live am :
  consistent am -> has_ctx am = true -> gain_chain am ->
  forall k, ambience_live (exec playClick am) k <-> ambience_live am k.
Proof.
  intros Hc Hh Hg k.
  destruct (chained_ctx am Hc Hh Hg) as (x & Hx & Hm & Hag & Hn & _ & _ & Hold & H0).
  rewrite (playClick_closed initialState deviceSampleRate am x 0 Hx Hm).
  set (new := click_calls (nodes x) 0 (currentTime x) ++ resume_calls x).
  rewrite (extend_live am (with_ctx (Some (push new 2 x)) am) x (push new 2 x) 1 new
             Hc Hx eq_refl eq_refl eq_refl Hag Hag); subst new.
  - split; [intros [H _]; exact H|]. intros H. split; [exact H|].
    intros Hs. apply in_app_or in Hs as [Hs|Hs].
    + simpl in Hs. intuition discriminate.
    + apply resume_quiet in Hs. discriminate.
  - intros c j Hin Ht Hs Hj. apply in_app_or in Hin as [Hin|Hin].
    + apply (click_subjects _ _ _ _ _ Hin) in Hs. lia.
    + apply resume_quiet in Hin. congruence.
  - intros j Hs. apply click_misses_ambience; assumption.
Qed.

Lemma transition_live am :
  consistent am -> has_ctx am = true -> gain_chain am ->
  forall k, ambience_live (exec playTransition am) k <-> ambience_live am k.
Proof.
  intros Hc Hh Hg k.
  destruct (chained_ctx am Hc Hh Hg) as (x & Hx & Hm & Hag & Hn & _ & _ & Hold & H0).
  rewrite (playTransition_closed initialState deviceSampleRate am x 0 Hx Hm).
  set (new := transition_calls (nodes x) 0 (currentTime x) (sampleRate x) ++
              resume_calls x).
  rewrite (extend_live am (with_ctx (Some (push new 3 x)) am) x (push new 3 x) 1 new
             Hc Hx eq_refl eq_refl eq_refl Hag Hag); subst new.
  - split; [intros [H _]; exact H|]. intros H. split; [exact H|].
    intros Hs. apply in_app_or in Hs as [Hs|Hs].
    + simpl in Hs. intuition discriminate.
    + apply resume_quiet in Hs. discriminate.
  - intros c j Hin Ht Hs Hj. apply in_app_or in Hin as [Hin|Hin].
    + apply (transition_subjects _ _ _ _ _ _ Hin) in Hs. lia.
    + apply resume_quiet in Hin. congruence.
  - intros j Hs. apply transition_misses_ambience; assumption.
Qed.

(** Nothing sounds on an engine whose context was just created. *)
Lemma created_silent k : ~ ambience_live (created initialState deviceSampleRate) k.
Proof.
  intros (x & g & [= <-] & _ & H & _). apply sounding_In in H as (_ & H & _).
  simpl in H. intuition discriminate.
Qed.

Lemma fresh_silent k : ~ ambience_live fresh k.
Proof. intros (x & g & E & _). discriminate. Qed.

End LivenessFacts.

(** *** Clicks, transitions and switches of mood *)

Section EngineTheorems.

Import Audio Engine.
Variable initialState : ContextState.
Variable deviceSampleRate : Q.

Abbreviation init := (init initialState deviceSampleRate).
Abbreviation playClick := (playClick initialState deviceSampleRate).
Abbreviation playTransition := (playTransition initialState deviceSampleRate).
Abbreviation setAmbience := (setAmbience initialState deviceSampleRate).
Abbreviation perform := (perform initialState deviceSampleRate).
Abbreviation play := (play initialState deviceSampleRate).

(** A log says nothing about stops of nodes that do not exist yet. *)
Lemma bounded_no_stops n l k :
  Forall (call_bounded n) l -> n <= k ->
  stopped l k = false /\ scheduled_stops l k = [].
Proof.
  intros Hb Hk.
  destruct (stops_untouched l [] k) as [H1 H2].
  - intros c Hc. eapply bounded_untouched; eauto.
  - rewrite app_nil_r in H1, H2. auto.
Qed.

Lemma init_created_count :
  node_count (exec init (created initialState deviceSampleRate)) = 2.
Proof. destruct initialState; vm_compute; reflexivity. Qed.

Lemma ui_sounds_core am :
  consistent am -> has_ctx am = true -> gain_chain am ->
  let click := exec playClick am in
  let swoosh := exec playTransition am in
  let n := node_count am in
  (node_count click = 2 + n /\ node_count swoosh = 3 + n) /\
  (ambienceNode click = ambienceNode am /\ lfo click = lfo am /\
   currentAmbienceType click = currentAmbienceType am) /\
  (ambienceNode swoosh = ambienceNode am /\ lfo swoosh = lfo am /\
   currentAmbienceType swoosh = currentAmbienceType am) /\
  (forall k, ambience_live click k <-> ambience_live am k) /\
  (forall k, ambience_live swoosh k <-> ambience_live am k) /\
  started (log click) n = true /\
  scheduled_stops (log click) n = [(clock click + 0.1)%Q] /\
  started (log swoosh) n = true /\
  stopped (log swoosh) n = false /\
  scheduled_stops (log swoosh) n = [].
Proof.
  intros Hc Hh Hg click swoosh n.
  pose proof (click_live initialState deviceSampleRate am Hc Hh Hg) as Hcl.
  pose proof (transition_live initialState deviceSampleRate am Hc Hh Hg) as Htl.
  destruct (chained_ctx am Hc Hh Hg) as (x & Hx & Hm & Hag & Hn & _ & _ & Hold & H0).
  assert (Ec : click = with_ctx (Some (push (click_calls (nodes x) 0 (currentTime x)
                                              ++ resume_calls x) 2 x)) am)
    by (apply playClick_closed; assumption).
  assert (Es : swoosh = with_ctx (Some (push (transition_calls (nodes x) 0
                                                (currentTime x) (sampleRate x)
                                              ++ resume_calls x) 3 x)) am)
    by (apply playTransition_closed; assumption).
  assert (En : n = nodes x) by (subst n; unfold node_count; rewrite Hx; reflexivity).
  destruct (bounded_no_stops (nodes x) (calls x) (nodes x) Hold (le_n _)) as [Hs1 Hs2].
  assert (Hr : forall k, stopped (resume_calls x) k = false /\
                         scheduled_stops (resume_calls x) k = [] /\
                         started (resume_calls x) k = false).
  { intros k. unfold resume_calls. case_bool_decide; auto. }
  split; [rewrite Ec, Es, En; split; reflexivity|].
  split; [rewrite Ec; auto|]. split; [rewrite Es; auto|].
  split; [exact Hcl|]. split; [exact Htl|].
  rewrite Ec, Es, En. unfold log, clock. cbn [ctx with_ctx push calls currentTime].
  repeat split.
  - simpl. rewrite Nat.eqb_refl. reflexivity.
  - rewrite <- app_assoc, !scheduled_stops_app, (proj1 (proj2 (Hr _))), Hs2.
    simpl. rewrite Nat.eqb_refl. reflexivity.
  - simpl. rewrite Nat.eqb_refl. reflexivity.
  - rewrite <- app_assoc, !stopped_app, (proj1 (Hr _)), Hs1. reflexivity.
  - rewrite <- app_assoc, !scheduled_stops_app, (proj1 (proj2 (Hr _))), Hs2.
    reflexivity.
Qed.

(** X13. The click and the transition sound never interfere with the
    ambience, on any engine the program can have reached: each creates its
    own nodes (two and three, after the two gains if they were missing),
    leaves the tracked ambience node, the tracked oscillator and the mood
    as they were, and leaves exactly the same ambience sources sounding.
    The click's oscillator is started with its stop scheduled a tenth of a
    second later; the noise source of the transition is started and never
    stopped by the engine. *)
Theorem ui_sounds_leave_ambience_alone am :
  reachable am ->
  let click := exec playClick am in
  let swoosh := exec playTransition am in
  let n := node_count (exec init am) in
  (node_count click = 2 + n /\ node_count swoosh = 3 + n) /\
  (ambienceNode click = ambienceNode am /\ lfo click = lfo am /\
   currentAmbienceType click = currentAmbienceType am) /\
  (ambienceNode swoosh = ambienceNode am /\ lfo swoosh = lfo am /\
   currentAmbienceType swoosh = currentAmbienceType am) /\
  (forall k, ambience_live click k <-> ambience_live am k) /\
  (forall k, ambience_live swoosh k <-> ambience_live am k) /\
  started (log click) n = true /\
  scheduled_stops (log click) n = [(clock click + 0.1)%Q] /\
  started (log swoosh) n = true /\
  stopped (log swoosh) n = false /\
  scheduled_stops (log swoosh) n = [].
Proof.
  intros Hr click swoosh n.
  pose proof (reachable_consistent am Hr) as Hc.
  destruct (has_ctx am) eqn:Hh.
  - assert (En : n = node_count am).
    { destruct (consistent_ctx am Hc Hh) as (x & _ & _ & Hx & _).
      subst n. rewrite (init_closed initialState deviceSampleRate am x Hx).
      unfold node_count. rewrite Hx. reflexivity. }
    rewrite En.
    apply ui_sounds_core; [exact Hc|exact Hh|].
    apply reachable_gain_chain; assumption.
  - pose proof (cons_fresh am Hc Hh) as E. subst am.
    subst click swoosh n.
    rewrite fresh_playClick, fresh_playTransition, fresh_init.
    destruct (ui_sounds_core (created initialState deviceSampleRate))
      as (H1 & H2 & H3 & H4 & H5 & H6);
      [apply consistent_created|reflexivity|apply gain_chain_created|].
    pose proof init_created_count as En.
    rewrite En.
    split; [exact H1|]. split; [exact H2|]. split; [exact H3|].
    split; [|split; [|exact H6]].
    + intros k. rewrite H4. split; intros H; exfalso.
      * exact (created_silent initialState deviceSampleRate k H).
      * exact (fresh_silent k H).
    + intros k. rewrite H5. split; intros H; exfalso.
      * exact (created_silent initialState deviceSampleRate k H).
      * exact (fresh_silent k H).
Qed.

(** *** A switch of mood, whatever the moods *)

Lemma switch_core type am :
  consistent am -> has_ctx am = true ->
  currentAmbienceType am <> Some type ->
  let am' := exec (setAmbience type) am in
  let n := node_count am in
  currentAmbienceType am' = Some type /\
  ambienceNode am' = Some n /\
  lfo am' = graph_lfo type n /\
  node_count am' = graph_size type + n /\
  (forall k, tracked am k -> In (stop k None) (log am')) /\
  (forall k, ambience_live am' k <->
             In k (graph_sources type n) \/ (ambience_live am k /\ ~ tracked am k)) /\
  (forall k, tracked am k -> k < n) /\
  (exists g, ambienceGain am = Some g /\
     In (linearRampToValueAtTime g gain 0.3%Q (clock am + 2)%Q) (log am')).
Proof.
  intros Hc Hh Hty am' n.
  destruct (consistent_ctx am Hc Hh)
    as (x & mg & g & Hx & Hm & Hg & Hmb & Hgb & Han & Hl & Hold).
  pose proof (switch_live initialState deviceSampleRate type am x g Hx Hg
                (cons_well_formed am Hc) Hty) as Hlive.
  assert (E : am' = _) by (apply (setAmbience_switch initialState deviceSampleRate
                                    type am x g Hx Hg Hty)).
  assert (En : n = nodes x) by (subst n; unfold node_count; rewrite Hx; reflexivity).
  rewrite En. unfold clock. rewrite Hx.
  split; [rewrite E; reflexivity|]. split; [rewrite E; reflexivity|].
  split; [rewrite E; reflexivity|]. split; [rewrite E; reflexivity|].
  split; [|split; [exact Hlive|split]].
  - intros k Hk. rewrite E. unfold log. cbn [ctx calls].
    rewrite !in_app_iff. right. right. left. apply teardown_In. eauto.
  - intros k [Hk|Hk]; [rewrite Hk in Han|rewrite Hk in Hl]; exact Han || exact Hl.
  - exists g. split; [exact Hg|]. rewrite E. unfold log. cbn [ctx calls].
    rewrite !in_app_iff. right. left. simpl. auto.
Qed.

(** X14. [setAmbience] with a mood that is not the current one, from any
    engine the program can have reached and for every mood: the mood
    becomes current; behind the two gains (created first if they were
    missing) the graph of the mood is built, of four nodes for nature and
    mechanical, three for eerie and two for calm and chaos; the first of
    them is the tracked ambience node, and the modulating oscillator of
    nature and mechanical is the tracked one, no oscillator being tracked
    for the other moods; every node tracked before is stopped and no longer
    sounds; the shared ambience gain is ramped up to 0.3 over two seconds;
    and what sounds in the ambience graph afterwards is the sources of the
    new graph, plus only what was sounding untracked before. *)
Theorem switch_builds_the_graph_of_the_mood type am :
  reachable am ->
  currentAmbienceType am <> Some type ->
  let am' := exec (setAmbience type) am in
  let n := node_count (exec init am) in
  currentAmbienceType am' = Some type /\
  ambienceNode am' = Some n /\
  lfo am' = graph_lfo type n /\
  node_count am' = graph_size type + n /\
  (forall k, tracked am k ->
     stopped (log am') k = true /\ ~ ambience_live am' k) /\
  (forall k, ambience_live am' k <->
             In k (graph_sources type n) \/ (ambience_live am k /\ ~ tracked am k)) /\
  (exists g, ambienceGain am' = Some g /\
     In (linearRampToValueAtTime g gain 0.3%Q (clock am' + 2)%Q) (log am')).
Proof.
  intros Hr Hty am' n.
  pose proof (reachable_consistent am Hr) as Hc.
  assert (Hclock : forall a, consistent a -> has_ctx a = true ->
            currentAmbienceType a <> Some type ->
            clock (exec (setAmbience type) a) = clock a /\
            ambienceGain (exec (setAmbience type) a) = ambienceGain a).
  { intros a Ha Hh Ht.
    destruct (consistent_ctx a Ha Hh) as (x & mg & g & Hx & Hm & Hg & _).
    rewrite (setAmbience_switch initialState deviceSampleRate type a x g Hx Hg Ht).
    unfold clock. rewrite Hx, Hg. split; reflexivity. }
  assert (Hcore : forall a, consistent a -> has_ctx a = true ->
            currentAmbienceType a <> Some type ->
            let a' := exec (setAmbience type) a in
            let m := node_count a in
            currentAmbienceType a' = Some type /\
            ambienceNode a' = Some m /\
            lfo a' = graph_lfo type m /\
            node_count a' = graph_size type + m /\
            (forall k, tracked a k ->
               stopped (log a') k = true /\ ~ ambience_live a' k) /\
            (forall k, ambience_live a' k <->
               In k (graph_sources type m) \/ (ambience_live a k /\ ~ tracked a k)) /\
            (exists g, ambienceGain a' = Some g /\
               In (linearRampToValueAtTime g gain 0.3%Q (clock a' + 2)%Q) (log a'))).
  { intros a Ha Hh Ht a' m.
    destruct (switch_core type a Ha Hh Ht)
      as (H1 & H2 & H3 & H4 & H5 & H6 & H7 & g & Hg & H8).
    destruct (Hclock a Ha Hh Ht) as [Ek Eg].
    fold a' in H1, H2, H3, H4, H5, H6, H8, Ek, Eg. fold m in H2, H3, H4, H6, H7.
    repeat (split; [assumption|]). split; [|split; [exact H6|]].
    - intros k Hk. split; [apply stopped_In, H5, Hk|].
      intros Hl. apply H6 in Hl as [Hl|[_ Hl]]; [|exact (Hl Hk)].
      apply graph_sources_new in Hl. apply H7 in Hk. lia.
    - exists g. rewrite Eg, Ek. auto. }
  destruct (has_ctx am) eqn:Hh.
  - assert (En : n = node_count am).
    { destruct (consistent_ctx am Hc Hh) as (x & _ & _ & Hx & _).
      subst n. rewrite (init_closed initialState deviceSampleRate am x Hx).
      unfold node_count. rewrite Hx. reflexivity. }
    rewrite En. apply Hcore; assumption.
  - pose proof (cons_fresh am Hc Hh) as E. subst am. subst am' n.
    rewrite fresh_setAmbience, fresh_init.
    destruct (Hcore (created initialState deviceSampleRate))
      as (H1 & H2 & H3 & H4 & H5 & H6 & H7);
      [apply consistent_created|reflexivity|discriminate|].
    pose proof init_created_count as En.
    rewrite En.
    do 4 (split; [assumption|]). split; [|split; [|exact H7]].
    + intros k [Hk|Hk]; discriminate Hk.
    + intros k. rewrite H6. split; (intros [H|[H Hn]]; [left; exact H|exfalso]).
      * exact (created_silent initialState deviceSampleRate k H).
      * exact (fresh_silent k H).
Qed.

End EngineTheorems.

(** *** Sequences of moves *)

Section MoveFacts.

Import Audio Engine.
Variable initialState : ContextState.
Variable deviceSampleRate : Q.

Abbreviation init := (init initialState deviceSampleRate).
Abbreviation playClick := (playClick initialState deviceSampleRate).
Abbreviation playTransition := (playTransition initialState deviceSampleRate).
Abbreviation setAmbience := (setAmbience initialState deviceSampleRate).
Abbreviation perform := (perform initialState deviceSampleRate).
Abbreviation play := (play initialState deviceSampleRate).

Lemma perform_reachable am m : reachable am -> reachable (perform am m).
Proof. intros H. destruct m; simpl; constructor; exact H. Qed.

Lemma play_reachable moves : forall am, reachable am -> reachable (play am moves).
Proof.
  induction moves as [|m moves IH]; intros am H; [exact H|].
  apply IH, perform_reachable, H.
Qed.

(** After a teardown nothing that was tracked sounds any more, and what
    else sounded still does. *)
Lemma teardown_live am am' x x' g quiet :
  consistent am ->
  ctx am = Some x -> ctx am' = Some x' ->
  calls x' = (quiet ++ teardown_calls (ambienceNode am) (lfo am)) ++ calls x ->
  currentTime x' = currentTime x ->
  ambienceGain am = Some g -> ambienceGain am' = Some g ->
  (forall c, In c quiet -> touches_graph c = false) ->
  forall k, ambience_live am' k <-> ambience_live am k /\ ~ tracked am k.
Proof.
  intros Hc Hx Hx' Hcalls Htime Hg Hg' Hq k.
  rewrite (extend_live am am' x x' g _ Hc Hx Hx' Hcalls Htime Hg Hg').
  - assert (E : In (stop k None) (quiet ++ teardown_calls (ambienceNode am) (lfo am))
                <-> tracked am k).
    { rewrite in_app_iff, teardown_In. split.
      - intros [H|(j & [= <-] & H)]; [apply Hq in H; discriminate|exact H].
      - intros H. right. exists k. auto. }
    rewrite E. reflexivity.
  - intros c j Hin Ht Hs Hj. apply in_app_or in Hin as [Hin|Hin].
    + apply Hq in Hin. congruence.
    + apply teardown_In in Hin as (j' & -> & _). simpl in Hs. congruence.
  - intros j Hs. apply in_app_or in Hs as [Hs|Hs].
    + apply Hq in Hs. discriminate.
    + apply teardown_In in Hs as (j' & E & _). discriminate.
Qed.

Lemma stopAmbience_live am :
  consistent am -> has_ctx am = true ->
  forall k, ambience_live (exec stopAmbience am) k <->
            ambience_live am k /\ ~ tracked am k.
Proof.
  intros Hc Hh k.
  destruct (consistent_ctx am Hc Hh) as (x & mg & g & Hx & Hm & Hg & _).
  rewrite stopAmbience_closed, Hx.
  eapply (teardown_live am _ x _ g []); eauto; try reflexivity.
  intros c [].
Qed.

Lemma stop_timeout_live am :
  consistent am -> has_ctx am = true ->
  forall k, ambience_live (exec stop_timeout am) k <->
            ambience_live am k /\ ~ tracked am k.
Proof.
  intros Hc Hh k.
  destruct (consistent_ctx am Hc Hh) as (x & mg & g & Hx & Hm & Hg & _).
  rewrite (stop_timeout_closed am x Hx).
  eapply (teardown_live am _ x _ g (suspend_calls x)); eauto; try reflexivity.
  apply suspend_quiet.
Qed.

(** While time goes forward nothing starts to sound by itself. *)
Lemma browser_live s elapsed am k :
  (0 <= elapsed)%Q ->
  ambience_live (browser_moves s (clock am + elapsed)%Q am) k -> ambience_live am k.
Proof.
  intros He. unfold browser_moves, clock, ambience_live.
  destruct (ctx am) as [x|] eqn:Hx; [|rewrite Hx; auto].
  intros (x' & g & [= <-] & Hg & (H1 & H2 & H3 & H4) & Hf).
  simpl in *. exists x, g. repeat split; auto.
  intros t Ht. specialize (H4 t Ht). lra.
Qed.

(** One move that neither selects eerie nor turns the clock back keeps
    every sounding ambience source tracked. *)
Lemma perform_no_stray_ctx am m :
  consistent am -> has_ctx am = true -> gain_chain am ->
  no_stray_source am ->
  avoids_eerie m = true -> forward m = true ->
  no_stray_source (perform am m).
Proof.
  intros Hc Hh Hg Hns Hm Hf.
  destruct (consistent_ctx am Hc Hh) as (x & mg & g & Hx & Em & Eg & _).
  assert (Hquiet : forall new am',
            am' = with_ctx (Some (push new 0 x)) am ->
            (forall c, In c new -> touches_graph c = false) ->
            no_stray_source am').
  { intros new am' -> Hq k Hk.
    rewrite (quiet_live am (with_ctx (Some (push new 0 x)) am) x (push new 0 x) g new
               Hc Hx eq_refl eq_refl eq_refl Eg Eg Hq) in Hk.
    apply Hns in Hk. exact Hk. }
  destruct m as [| | | | | | |type|s elapsed]; simpl.
  - eapply Hquiet; [apply init_closed; exact Hx|apply resume_quiet].
  - eapply Hquiet; [apply stop_now_closed; exact Hx|apply mute_quiet].
  - intros k Hk. apply stop_timeout_live in Hk as [H1 H2]; auto.
    exfalso. apply H2, Hns, H1.
  - eapply Hquiet; [apply resume_closed; exact Hx|apply unmute_quiet].
  - intros k Hk. apply click_live in Hk; auto.
    apply Hns in Hk.
    rewrite (playClick_closed initialState deviceSampleRate am x mg Hx Em).
    exact Hk.
  - intros k Hk. apply transition_live in Hk; auto.
    apply Hns in Hk.
    rewrite (playTransition_closed initialState deviceSampleRate am x mg Hx Em).
    exact Hk.
  - intros k Hk. apply stopAmbience_live in Hk as [H1 H2]; auto.
    exfalso. apply H2, Hns, H1.
  - destruct (decide (currentAmbienceType am = Some type)) as [Hty|Hty].
    + eapply Hquiet; [apply setAmbience_same; eassumption|].
      intros c. apply wake_quiet.
    + intros k Hk.
      apply (switch_live initialState deviceSampleRate type am x g Hx Eg
               (cons_well_formed am Hc) Hty) in Hk.
      rewrite (setAmbience_switch initialState deviceSampleRate type am x g Hx Eg Hty).
      unfold tracked. cbn [ambienceNode lfo].
      destruct Hk as [Hk|[H1 H2]]; [|exfalso; apply H2, Hns, H1].
      destruct type; simpl in Hk |- *; try discriminate; intuition (subst; auto).
  - intros k Hk. apply browser_live in Hk; [|apply Qle_bool_iff; exact Hf].
    apply Hns in Hk. unfold tracked, browser_moves in *.
    destruct (ctx am); exact Hk.
Qed.

Lemma perform_no_stray am m :
  reachable am ->
  no_stray_source am ->
  avoids_eerie m = true -> forward m = true ->
  no_stray_source (perform am m).
Proof.
  intros Hr Hns Hm Hf.
  pose proof (reachable_consistent am Hr) as Hc.
  destruct (has_ctx am) eqn:Hh.
  - apply perform_no_stray_ctx; auto. apply reachable_gain_chain; assumption.
  - pose proof (cons_fresh am Hc Hh) as E. subst am.
    assert (Hsilent : forall am', has_ctx am' = false -> no_stray_source am').
    { intros am' H k (x & g & Ex & _). unfold has_ctx in H. rewrite Ex in H.
      discriminate. }
    assert (Hcreated : forall m',
              avoids_eerie m' = true -> forward m' = true ->
              no_stray_source (perform (created initialState deviceSampleRate) m')).
    { intros m' H1 H2. apply perform_no_stray_ctx; auto.
      - apply consistent_created.
      - apply gain_chain_created.
      - intros k Hk. exfalso.
        exact (created_silent initialState deviceSampleRate k Hk). }
    destruct m as [| | | | | | |type|s elapsed];
      try (apply Hsilent; reflexivity).
    + simpl. rewrite fresh_init. exact (Hcreated Init Hm Hf).
    + simpl. rewrite fresh_playClick. exact (Hcreated PlayClick Hm Hf).
    + simpl. rewrite fresh_playTransition. exact (Hcreated PlayTransition Hm Hf).
    + simpl. rewrite fresh_setAmbience. exact (Hcreated (SetAmbience type) Hm Hf).
Qed.

(** X15. An engine on which the eerie mood is never selected never leaves a
    sound behind: after any sequence of calls of its methods, with the
    timeouts of [stop()] coming due at any point and time going forward,
    every source that sounds in the ambience graph is one of the (at most
    two) nodes the engine tracks, so that the next teardown, whether by
    [stopAmbience()], by the timeout of [stop()] or by a switch of mood,
    silences all of what was sounding. *)
Theorem without_eerie_nothing_is_left_behind moves :
  forallb avoids_eerie moves = true ->
  forallb forward moves = true ->
  let am := play fresh moves in
  no_stray_source am /\
  (forall k, ~ ambience_live (exec stopAmbience am) k) /\
  (forall k, ~ ambience_live (exec stop_timeout am) k) /\
  (forall type k,
     currentAmbienceType am <> Some type ->
     ambience_live (exec (setAmbience type) am) k ->
     In k (graph_sources type (node_count (exec init am)))).
Proof.
  intros Ha Hf am.
  assert (H : reachable am /\ no_stray_source am).
  { subst am. unfold Engine.play.
    induction moves as [|m moves IH] using rev_ind.
    - split; [constructor|]. intros k Hk. exfalso. exact (fresh_silent k Hk).
    - rewrite forallb_app in Ha, Hf. simpl in Ha, Hf.
      apply andb_prop in Ha as [Ha1 Ha2]. apply andb_prop in Hf as [Hf1 Hf2].
      rewrite andb_true_r in Ha2, Hf2.
      destruct (IH Ha1 Hf1) as [Hr Hns].
      rewrite fold_left_app. simpl. split.
      + apply perform_reachable, Hr.
      + apply perform_no_stray; assumption. }
  destruct H as [Hr Hns].
  pose proof (reachable_consistent am Hr) as Hc.
  split; [exact Hns|].
  assert (Hdead : forall am', (forall k, ambience_live am' k <->
                                 ambience_live am k /\ ~ tracked am k) ->
                              forall k, ~ ambience_live am' k).
  { intros am' H k Hk. apply H in Hk as [H1 H2]. apply H2, Hns, H1. }
  destruct (has_ctx am) eqn:Hh.
  - split; [apply Hdead; intros k; apply stopAmbience_live; assumption|].
    split; [apply Hdead; intros k; apply stop_timeout_live; assumption|].
    intros type k Hty Hk.
    destruct (consistent_ctx am Hc Hh) as (x & mg & g & Hx & Em & Eg & _).
    apply (switch_live initialState deviceSampleRate type am x g Hx Eg
             (cons_well_formed am Hc) Hty) in Hk.
    rewrite (init_closed initialState deviceSampleRate am x Hx).
    unfold node_count. cbn [ctx with_ctx push nodes].
    destruct Hk as [Hk|[H1 H2]]; [exact Hk|exfalso; apply H2, Hns, H1].
  - pose proof (cons_fresh am Hc Hh) as E. rewrite E.
    split; [intros k (x & g & Ex & _); discriminate|].
    split; [intros k (x & g & Ex & _); discriminate|].
    intros type k Hty Hk. rewrite fresh_setAmbience in Hk. rewrite fresh_init.
    rewrite init_created_count.
    apply (switch_live initialState deviceSampleRate type
             (created initialState deviceSampleRate) _ 1 eq_refl eq_refl
             (cons_well_formed _ (consistent_created initialState deviceSampleRate)))
      in Hk; [|discriminate].
    destruct Hk as [Hk|[H1 _]]; [exact Hk|].
    exfalso. exact (created_silent initialState deviceSampleRate k H1).
Qed.

(** X16. The timeout of [stop()] is neither cancelled nor guarded: when a new
    mood is set after [stop()] and before the timeout comes due, the
    timeout tears the new ambience down: the node that was just created,
    tracked and sounding is stopped, and the engine is left with no mood
    and no tracked node, its context asked to suspend. *)
Theorem stop_timeout_is_not_cancelled type am :
  reachable am ->
  has_ctx am = true ->
  currentAmbienceType am <> Some type ->
  let am1 := exec stop_now am in
  let am2 := exec (setAmbience type) am1 in
  let am3 := exec stop_timeout am2 in
  let n := node_count am in
  ambienceNode am2 = Some n /\
  currentAmbienceType am2 = Some type /\
  ambience_live am2 n /\
  stopped (log am3) n = true /\
  ~ ambience_live am3 n /\
  currentAmbienceType am3 = None /\
  ambienceNode am3 = None /\
  lfo am3 = None /\
  (forall x, ctx am2 = Some x -> state x <> closed ->
     hd_error (log am3) = Some ctx_suspend).
Proof.
  intros Hr Hh Hty am1 am2 am3 n.
  assert (Hr1 : reachable am1) by (constructor; exact Hr).
  pose proof (reachable_consistent am1 Hr1) as Hc1.
  pose proof (reachable_consistent am Hr) as Hc.
  destruct (consistent_ctx am Hc Hh) as (x & mg & g & Hx & Em & Eg & _).
  assert (E1 : am1 = with_ctx (Some (push (mute_calls x (masterGain am)) 0 x)) am)
    by (apply stop_now_closed; exact Hx).
  assert (Hh1 : has_ctx am1 = true) by (rewrite E1; reflexivity).
  assert (Hty1 : currentAmbienceType am1 <> Some type) by (rewrite E1; exact Hty).
  assert (En : node_count am1 = n).
  { rewrite E1. subst n. unfold node_count. rewrite Hx. reflexivity. }
  destruct (switch_core initialState deviceSampleRate type am1 Hc1 Hh1 Hty1)
    as (H1 & H2 & H3 & H4 & H5 & H6 & _).
  fold am2 in H1, H2, H3, H4, H5, H6. rewrite En in *.
  assert (Hr2 : reachable am2) by (constructor; exact Hr1).
  pose proof (reachable_consistent am2 Hr2) as Hc2.
  assert (Hh2 : has_ctx am2 = true)
    by (apply setAmbience_keeps_ctx; assumption).
  assert (Hlive : ambience_live am2 n).
  { apply H6. left. destruct type; simpl; auto. }
  assert (Htr : tracked am2 n) by (left; exact H2).
  destruct (consistent_ctx am2 Hc2 Hh2) as (x2 & mg2 & g2 & Hx2 & _).
  assert (E3 : am3 = _) by (apply (stop_timeout_closed am2 x2 Hx2)).
  split; [exact H2|]. split; [exact H1|]. split; [exact Hlive|].
  split.
  { rewrite E3. unfold log. cbn [ctx push calls].
    apply stopped_In. rewrite !in_app_iff. left. right.
    apply teardown_In. exists n. auto. }
  split.
  { intros Hk. apply stop_timeout_live in Hk as [_ Hk]; auto. }
  rewrite E3. cbn [currentAmbienceType ambienceNode lfo].
  repeat (split; [reflexivity|]).
  intros x' Hx' Hst. rewrite Hx2 in Hx'. injection Hx' as <-.
  unfold log, suspend_calls. cbn [ctx push calls].
  rewrite bool_decide_eq_false_2 by exact Hst. reflexivity.
Qed.

(** X17. Once the timeout of [stop()] has come due the engine has no mood and
    tracks nothing, so that the next [setAmbience], whatever the mood (the
    one that was playing before the stop included) and whatever the
    browser has done to the context meanwhile, builds its graph anew: the
    nodes of the mood are created, the first of them is tracked and
    sounds. When that call finds the context suspended it asks for it to
    resume and ramps the master volume back to 0.5. *)
Theorem after_stop_every_mood_is_rebuilt type s t am :
  reachable am ->
  has_ctx am = true ->
  let am1 := exec stop_timeout (exec stop_now am) in
  let am2 := exec (setAmbience type) (browser_moves s t am1) in
  let n := node_count am in
  currentAmbienceType am1 = None /\
  ambienceNode am1 = None /\
  lfo am1 = None /\
  node_count am1 = n /\
  currentAmbienceType am2 = Some type /\
  node_count am2 = graph_size type + n /\
  ambienceNode am2 = Some n /\
  ambience_live am2 n /\
  (s = suspended ->
   In ctx_resume (log am2) /\
   exists mg, masterGain am2 = Some mg /\
              In (setTargetAtTime mg gain 0.5%Q t 0.1%Q) (log am2)).
Proof.
  intros Hr Hh am1 am2 n.
  assert (Hr0 : reachable (exec stop_now am)) by (constructor; exact Hr).
  pose proof (reachable_consistent am Hr) as Hc.
  destruct (consistent_ctx am Hc Hh) as (x & mg & g & Hx & Em & Eg & _).
  assert (E0 : exec stop_now am =
               with_ctx (Some (push (mute_calls x (masterGain am)) 0 x)) am)
    by (apply stop_now_closed; exact Hx).
  assert (E1 : am1 = _)
    by (apply (stop_timeout_closed (exec stop_now am) _
                 (eq_trans (f_equal ctx E0) eq_refl))).
  assert (Hr1 : reachable am1) by (constructor; exact Hr0).
  set (b := browser_moves s t am1) in *.
  assert (Hrb : reachable b) by (constructor; exact Hr1).
  pose proof (reachable_consistent b Hrb) as Hcb.
  assert (Hhb : has_ctx b = true) by (subst b; rewrite E1; reflexivity).
  assert (Htb : currentAmbienceType b <> Some type)
    by (subst b; rewrite E1; discriminate).
  assert (Enb : node_count b = n).
  { subst b n. rewrite E1. unfold node_count. rewrite Hx. reflexivity. }
  destruct (switch_core initialState deviceSampleRate type b Hcb Hhb Htb)
    as (H1 & H2 & H3 & H4 & _ & H6 & _).
  fold am2 in H1, H2, H3, H4, H6. rewrite Enb in *.
  split; [rewrite E1; reflexivity|]. split; [rewrite E1; reflexivity|].
  split; [rewrite E1; reflexivity|].
  split; [rewrite E1; subst n; unfold node_count; rewrite Hx; reflexivity|].
  split; [exact H1|]. split; [exact H4|]. split; [exact H2|]. split.
  { apply H6. left. destruct type; simpl; auto. }
  intros ->.
  destruct (consistent_ctx b Hcb Hhb) as (xb & mgb & gb & Hxb & Emb & Egb & _).
  assert (Est : state xb = suspended /\ currentTime xb = t).
  { subst b. rewrite E1 in Hxb. unfold browser_moves in Hxb. simpl in Hxb.
    injection Hxb as <-. split; reflexivity. }
  destruct Est as [Est Et].
  assert (E2 : am2 = _)
    by (apply (setAmbience_switch initialState deviceSampleRate type b xb gb
                 Hxb Egb Htb)).
  assert (Hw : wake_calls xb (masterGain b) =
               [setTargetAtTime mgb gain 0.5%Q t 0.1%Q; ctx_resume; ctx_resume]).
  { unfold wake_calls. rewrite Emb, Est, Et.
    rewrite bool_decide_eq_true_2 by reflexivity. reflexivity. }
  rewrite E2. unfold log. cbn [ctx calls masterGain]. rewrite Hw. split.
  - rewrite !in_app_iff. right. right. right. left. simpl. auto.
  - exists mgb. split; [exact Emb|].
    rewrite !in_app_iff. right. right. right. left. simpl. auto.
Qed.

End MoveFacts.

(** ** The typewriter and the game canvas *)

Section TypewriterMore.

Import Typewriter.

Lemma deps_tick n c : deps (tick n c) = deps c.
Proof.
  unfold tick. destruct (intervals c !! n) as [iv|]; [|reflexivity].
  destruct (i iv <? length (text iv)); [reflexivity|].
  destruct (onComplete iv); reflexivity.
Qed.

Lemma deps_render text cb c : deps (render text cb c) = Some (text, cb).
Proof. unfold render. case_bool_decide; [assumption|reflexivity]. Qed.

(** X18. Once the typewriter is unmounted, no interval of its own is left: no
    firing the browser may still deliver, in whatever number and order,
    changes the text on display or calls [onComplete]. The text revealed
    so far stays as it was. *)
Theorem unmounted_typewriter_is_inert c ids :
  reachable c ->
  let c' := unmount c in
  (forall n, intervals c' !! n = None) /\
  fold_left (fun d n => tick n d) ids c' = c' /\
  displayedText c' = displayedText c /\
  completions c' = completions c.
Proof.
  intros Hr c'.
  pose proof (run_cleanup_clears c (reachable_well_formed c Hr)) as Hnone.
  destruct (run_cleanup_frame c) as (Hd & _ & Hcompl).
  split; [exact Hnone|]. split; [|split; assumption].
  subst c'. unfold unmount. induction ids as [|n ids IH]; [reflexivity|].
  simpl. rewrite tick_cleared by apply Hnone. exact IH.
Qed.

(** A firing that finds part of the text still hidden. *)
Lemma tick_partial text cb d n k c :
  intervals c !! n = Some (mkInterval text k cb d) ->
  k < length text ->
  tick n c =
    {| displayedText := take (k + 1) text;
       intervals := <[n := mkInterval text (k + 1) cb d]> (intervals c);
       nextIntervalId := nextIntervalId c; deps := deps c;
       cleanup := cleanup c; completions := completions c |}.
Proof.
  intros Hiv Hk. unfold tick. rewrite Hiv. cbn [Typewriter.i Typewriter.text Typewriter.onComplete Typewriter.delay].
  rewrite (proj2 (Nat.ltb_lt _ _)) by exact Hk. reflexivity.
Qed.

(** [m] firings of an interval that stay short of the end of its text. *)
Lemma ticks_partial text cb d n : forall m k c,
  intervals c !! n = Some (mkInterval text k cb d) ->
  k + m <= length text ->
  displayedText c = take k text ->
  ticks m n c =
    {| displayedText := take (k + m) text;
       intervals := <[n := mkInterval text (k + m) cb d]> (intervals c);
       nextIntervalId := nextIntervalId c; deps := deps c;
       cleanup := cleanup c; completions := completions c |}.
Proof.
  induction m as [|m IH]; intros k c Hiv Hk Hd.
  - simpl. rewrite Nat.add_0_r, insert_id by exact Hiv. rewrite <- Hd.
    destruct c; reflexivity.
  - simpl. rewrite (tick_partial text cb d n k c Hiv) by lia.
    rewrite (IH (k + 1)); cbn [intervals displayedText nextIntervalId deps
                               cleanup completions];
      [|apply lookup_insert_eq|lia|reflexivity].
    rewrite insert_insert_eq. replace (k + 1 + m) with (k + S m) by lia.
    reflexivity.
Qed.

(** The firing that finds the whole text revealed. *)
Lemma tick_complete text cb d n c :
  intervals c !! n = Some (mkInterval text (length text) (Some cb) d) ->
  tick n c =
    {| displayedText := displayedText c;
       intervals := delete n (intervals c);
       nextIntervalId := nextIntervalId c; deps := deps c;
       cleanup := cleanup c; completions := cb :: completions c |}.
Proof.
  intros Hiv. unfold tick. rewrite Hiv. cbn [Typewriter.i Typewriter.text Typewriter.onComplete].
  rewrite Nat.ltb_irrefl. reflexivity.
Qed.

Lemma typewriter_ticks_snoc m n c : ticks (S m) n c = tick n (ticks m n c).
Proof.
  revert c. induction m as [|m IH]; intros c; [reflexivity|].
  change (ticks (S (S m)) n c) with (ticks (S m) n (tick n c)).
  rewrite IH. reflexivity.
Qed.

Lemma reachable_ticks m n c : reachable c -> reachable (ticks m n c).
Proof.
  revert c. induction m as [|m IH]; intros c H; [exact H|].
  simpl. apply IH. constructor. exact H.
Qed.

End TypewriterMore.

Section CanvasFacts.

Import Audio Canvas.
Variable initialState : ContextState.
Variable deviceSampleRate : Q.

Abbreviation effect := (effect initialState deviceSampleRate).
Abbreviation mount := (mount initialState deviceSampleRate).
Abbreviation scene_changes := (scene_changes initialState deviceSampleRate).
Abbreviation playTransition := (Audio.playTransition initialState deviceSampleRate).
Abbreviation setAmbience := (Audio.setAmbience initialState deviceSampleRate).

(** *** The invariant *)

Ltac canvas_fields :=
  cbn [renderedScenes showUI textComplete dirty timeouts nextTimeoutId cleanup
       typewriter nextCallback audio
       with_renderedScenes with_showUI with_textComplete with_dirty with_timeouts
       with_nextTimeoutId with_cleanup with_typewriter with_nextCallback with_audio
       setShowUI setTextComplete setTimeout clearTimeout fst snd].

Lemma sound_frame c c' :
  timeouts c' = timeouts c -> nextTimeoutId c' = nextTimeoutId c ->
  cleanup c' = cleanup c -> typewriter c' = typewriter c ->
  nextCallback c' = nextCallback c -> audio c' = audio c ->
  sound c -> sound c'.
Proof.
  intros E1 E2 E3 E4 E5 E6 [H1 H2 H3 H4 H5].
  split; rewrite ?E1, ?E2, ?E3, ?E4, ?E5, ?E6; assumption.
Qed.

Lemma sound_render c : sound c -> sound (render c).
Proof.
  intros Hs. pose proof Hs as [H1 H2 H3 H4 H5]. unfold render.
  destruct (activeScene c) as [a|]; [destruct (showUI c)|].
  - split; simpl; try assumption.
    + intros tw text cb [= <-] Hd. rewrite deps_render in Hd.
      injection Hd as _ <-. lia.
    + intros tw [= <-]. constructor.
      destruct (typewriter c) as [tw|] eqn:E; [apply H4; reflexivity|constructor].
  - split; simpl; try assumption; discriminate.
  - split; simpl; try assumption; discriminate.
Qed.

Lemma sound_flush c : sound c -> sound (flush c).
Proof.
  intros Hs. unfold flush. destruct (dirty c); [|exact Hs].
  apply sound_render. revert Hs. apply sound_frame; reflexivity.
Qed.

Lemma dirty_render c : dirty (render c) = dirty c.
Proof.
  unfold render. destruct (activeScene c); [destruct (showUI c)|]; reflexivity.
Qed.

Lemma dirty_flush c : dirty (flush c) = false.
Proof.
  unfold flush. destruct (dirty c) eqn:E; [|exact E].
  rewrite dirty_render. reflexivity.
Qed.

Lemma sound_run_cleanup c :
  sound c ->
  sound (run_cleanup c) /\
  (forall n, timeouts (run_cleanup c) !! n = None) /\
  cleanup (run_cleanup c) = None /\
  nextTimeoutId (run_cleanup c) = nextTimeoutId c.
Proof.
  intros [H1 H2 H3 H4 H5]. unfold run_cleanup.
  destruct (cleanup c) as [[u k]|] eqn:E.
  - assert (Hnone : forall n, delete k (delete u (timeouts c)) !! n = None).
    { intros n. destruct (decide (k = n)) as [->|Hk]; [apply lookup_delete_eq|].
      rewrite lookup_delete_ne by exact Hk.
      destruct (decide (u = n)) as [->|Hu]; [apply lookup_delete_eq|].
      rewrite lookup_delete_ne by exact Hu.
      destruct (timeouts c !! n) eqn:En; [|reflexivity].
      destruct (H1 n) as (u' & k' & [= <- <-] & [->| ->]); [eauto|congruence..]. }
    split; [|auto].
    split; simpl; try assumption.
    + intros n Hn. rewrite Hnone in Hn. destruct Hn; discriminate.
    + discriminate.
  - assert (Hnone : forall n, timeouts c !! n = None).
    { intros n. destruct (timeouts c !! n) eqn:En; [|reflexivity].
      destruct (H1 n) as (u' & k' & E' & _); [eauto|congruence]. }
    split; [|auto]. split; rewrite ?E; assumption.
Qed.

(** What the effect leaves, for a scene. *)
Lemma effect_fields scene c :
  let c' := effect (Some scene) c in
  let n := nextTimeoutId c in
  renderedScenes c' =
    match activeScene c with
    | Some top =>
        if bool_decide (id top = id scene) then renderedScenes c
        else renderedScenes c ++ [scene]
    | None => renderedScenes c ++ [scene]
    end /\
  showUI c' = false /\
  textComplete c' = false /\
  timeouts c' =
    <[S n := {| task := CleanupScenes; ms := 2500%N |}]>
      (<[n := {| task := ShowUI; ms := 2000%N |}]> (timeouts c)) /\
  nextTimeoutId c' = S (S n) /\
  cleanup c' = Some (n, S n) /\
  typewriter c' = typewriter c /\
  nextCallback c' = nextCallback c /\
  audio c' = exec (setAmbience (ambience scene)) (exec playTransition (audio c)) /\
  (showUI c = true -> dirty c' = true).
Proof.
  unfold Canvas.effect, setRenderedScenes, activeScene.
  cbn [renderedScenes with_audio].
  destruct (last (renderedScenes c)) as [top|]; [case_bool_decide|];
    canvas_fields; repeat split; auto;
    intros ->; rewrite ?orb_true_r; reflexivity.
Qed.

Lemma sound_effect scene c :
  sound c -> (forall n, timeouts c !! n = None) -> cleanup c = None ->
  sound (effect scene c).
Proof.
  intros Hs Hnone Hcl. destruct scene as [scene|]; [|exact Hs].
  destruct (effect_fields scene c) as (_ & _ & _ & E1 & E2 & E3 & E4 & E5 & E6 & _).
  destruct Hs as [H1 H2 H3 H4 H5].
  split; rewrite ?E1, ?E2, ?E3, ?E4, ?E5, ?E6; try assumption.
  - intros n Hn. exists (nextTimeoutId c), (S (nextTimeoutId c)).
    split; [reflexivity|].
    destruct (decide (S (nextTimeoutId c) = n)) as [<-|Hk]; [auto|].
    rewrite lookup_insert_ne in Hn by exact Hk.
    destruct (decide (nextTimeoutId c = n)) as [<-|Hu]; [auto|].
    rewrite lookup_insert_ne, Hnone in Hn by exact Hu. destruct Hn; discriminate.
  - intros u k [= <- <-]. lia.
  - repeat constructor. exact H5.
Qed.

(** *** What a render and a flush leave alone *)

Lemma render_frame c :
  renderedScenes (render c) = renderedScenes c /\
  showUI (render c) = showUI c /\
  textComplete (render c) = textComplete c /\
  timeouts (render c) = timeouts c /\
  nextTimeoutId (render c) = nextTimeoutId c /\
  cleanup (render c) = cleanup c /\
  audio (render c) = audio c.
Proof.
  unfold render. destruct (activeScene c); [destruct (showUI c) eqn:E|];
    repeat split; simpl; auto.
Qed.

Lemma flush_frame c :
  renderedScenes (flush c) = renderedScenes c /\
  showUI (flush c) = showUI c /\
  textComplete (flush c) = textComplete c /\
  timeouts (flush c) = timeouts c /\
  nextTimeoutId (flush c) = nextTimeoutId c /\
  cleanup (flush c) = cleanup c /\
  audio (flush c) = audio c.
Proof.
  unfold flush. destruct (dirty c); [|repeat split; reflexivity].
  destruct (render_frame (with_dirty false c)) as (-> & -> & -> & -> & -> & -> & ->).
  repeat split; reflexivity.
Qed.

Lemma run_cleanup_frame_canvas c :
  renderedScenes (run_cleanup c) = renderedScenes c /\
  showUI (run_cleanup c) = showUI c /\
  textComplete (run_cleanup c) = textComplete c /\
  dirty (run_cleanup c) = dirty c /\
  typewriter (run_cleanup c) = typewriter c /\
  nextCallback (run_cleanup c) = nextCallback c /\
  audio (run_cleanup c) = audio c.
Proof.
  unfold run_cleanup. destruct (cleanup c) as [[u k]|]; repeat split; reflexivity.
Qed.

(** A render without the UI shown, or without a scene, has no typewriter. *)
Lemma render_hidden c : showUI c = false -> typewriter (render c) = None.
Proof.
  intros H. unfold render. rewrite H. destruct (activeScene c); reflexivity.
Qed.

Lemma flush_hidden c :
  showUI c = false -> (dirty c = false -> typewriter c = None) ->
  typewriter (flush c) = None.
Proof.
  intros Hs Hd. unfold flush. destruct (dirty c); [|auto].
  apply render_hidden. exact Hs.
Qed.

(** What the effect leaves on show after the flush that follows it. *)
Lemma staged_hidden scene c :
  dirty c = false -> (showUI c = false -> typewriter c = None) ->
  typewriter (flush (effect (Some scene) c)) = None.
Proof.
  intros Hd Hh.
  destruct (effect_fields scene c) as (_ & E2 & _ & _ & _ & _ & E7 & _ & _ & E10).
  apply flush_hidden; [exact E2|].
  intros Hclean. rewrite E7.
  destruct (showUI c) eqn:Eu; [rewrite E10 in Hclean by reflexivity; discriminate|].
  apply Hh. reflexivity.
Qed.

Lemma well_formed_mount scene am : Audio.reachable am -> well_formed (mount scene am).
Proof.
  intros Hr. unfold Canvas.mount.
  set (c0 := render _).
  assert (Hs0 : sound c0).
  { apply sound_render. split; simpl; try discriminate; auto.
    intros n Hn. rewrite lookup_empty in Hn. destruct Hn; discriminate. }
  split; [|split; [apply dirty_flush|]].
  - apply sound_flush, sound_effect;
      [exact Hs0|intros n; apply lookup_empty|reflexivity].
  - intros _. destruct scene as [scene|].
    + apply staged_hidden; [reflexivity|reflexivity].
    + reflexivity.
Qed.

Lemma well_formed_scene_changes scene c :
  well_formed c -> well_formed (scene_changes scene c).
Proof.
  intros (Hs & Hd & Hh). unfold Canvas.scene_changes.
  destruct (sound_run_cleanup (render c) (sound_render c Hs)) as (H1 & H2 & H3 & _).
  destruct (run_cleanup_frame_canvas (render c)) as (_ & C2 & _ & C4 & C5 & _).
  destruct (render_frame c) as (_ & R2 & _).
  split; [|split; [apply dirty_flush|]].
  - apply sound_flush, sound_effect; assumption.
  - intros Hu. destruct scene as [scene|].
    + apply staged_hidden.
      * rewrite C4, dirty_render. exact Hd.
      * intros Hu0. rewrite C5. apply render_hidden. congruence.
    + simpl. apply flush_hidden.
      * destruct (flush_frame (run_cleanup (render c))) as (_ & F2 & _).
        simpl in Hu. rewrite F2 in Hu. exact Hu.
      * intros _. rewrite C5. apply render_hidden.
        destruct (flush_frame (run_cleanup (render c))) as (_ & F2 & _).
        simpl in Hu. rewrite F2 in Hu. congruence.
Qed.

Lemma well_formed_parent_renders c : well_formed c -> well_formed (parent_renders c).
Proof.
  intros (Hs & Hd & Hh). unfold parent_renders.
  split; [apply sound_render, Hs|]. split; [rewrite dirty_render; exact Hd|].
  intros Hu. apply render_hidden. destruct (render_frame c) as (_ & R2 & _).
  congruence.
Qed.

Lemma sound_delete id c : sound c -> sound (with_timeouts (delete id (timeouts c)) c).
Proof.
  intros [H1 H2 H3 H4 H5]. split; simpl; try assumption.
  intros n Hn. apply H1.
  destruct (decide (id = n)) as [->|Hne].
  - rewrite lookup_delete_eq in Hn. destruct Hn; discriminate.
  - rewrite lookup_delete_ne in Hn by exact Hne. exact Hn.
Qed.

Lemma well_formed_fire id c : well_formed c -> well_formed (fire id c).
Proof.
  intros (Hs & Hd & Hh). unfold fire.
  destruct (timeouts c !! id) as [t|]; [|exact (conj Hs (conj Hd Hh))].
  pose proof (sound_delete id c Hs) as Hs'.
  destruct (task t).
  - split; [|split; [apply dirty_flush|]].
    + apply sound_flush. revert Hs'. apply sound_frame; reflexivity.
    + intros Hu.
      match type of Hu with showUI (flush ?x) = _ =>
        destruct (flush_frame x) as (_ & F2 & _) end.
      rewrite F2 in Hu. discriminate.
  - split; [|split; [apply dirty_flush|]].
    + apply sound_flush. unfold setRenderedScenes.
      change (renderedScenes (with_timeouts (delete id (timeouts c)) c))
        with (renderedScenes c).
      destruct (1 <? length (renderedScenes c)); [|exact Hs'].
      destruct (last (renderedScenes c)); [|exact Hs'].
      revert Hs'. apply sound_frame; reflexivity.
    + intros Hu.
      match type of Hu with showUI (flush ?x) = _ =>
        destruct (flush_frame x) as (_ & F2 & _); set (e := x) in * end.
      rewrite F2 in Hu.
      assert (Hu' : showUI c = false /\ typewriter e = typewriter c).
      { subst e. unfold setRenderedScenes in *.
        change (renderedScenes (with_timeouts (delete id (timeouts c)) c))
          with (renderedScenes c) in *.
        destruct (1 <? length (renderedScenes c));
          [destruct (last (renderedScenes c))|]; auto. }
      destruct Hu' as [Hu' Et].
      apply flush_hidden; [exact Hu|]. intros _. rewrite Et. auto.
Qed.

Lemma well_formed_interval_fires id c :
  well_formed c -> well_formed (interval_fires id c).
Proof.
  intros (Hs & Hd & Hh). unfold interval_fires.
  destruct (typewriter c) as [tw|] eqn:E;
    [|split; [exact Hs|split; [exact Hd|intros _; exact E]]].
  assert (Hon : showUI c = true).
  { destruct (showUI c); [reflexivity|]. discriminate Hh. reflexivity. }
  assert (Hs' : sound (with_typewriter (Some (Typewriter.tick id tw)) c)).
  { destruct Hs as [H1 H2 H3 H4 H5]. split; simpl; try assumption.
    - intros tw' text cb [= <-] Hdeps. rewrite deps_tick in Hdeps. eauto.
    - intros tw' [= <-]. constructor. apply H4. exact E. }
  destruct (_ <? _).
  - split; [|split; [apply dirty_flush|]].
    + apply sound_flush. revert Hs'. apply sound_frame; reflexivity.
    + intros Hu.
      match type of Hu with showUI (flush ?x) = _ =>
        destruct (flush_frame x) as (_ & F2 & _) end.
      rewrite F2 in Hu. simpl in Hu. congruence.
  - split; [exact Hs'|]. split; [exact Hd|]. simpl. congruence.
Qed.

Lemma well_formed_with_audio am c :
  Audio.reachable am -> well_formed c -> well_formed (with_audio am c).
Proof.
  intros Hr ([H1 H2 H3 H4 H5] & Hd & Hh).
  split; [split; assumption|]. split; assumption.
Qed.

Lemma reachable_well_formed_canvas c :
  Canvas.reachable initialState deviceSampleRate c -> well_formed c.
Proof.
  induction 1 as [scene am Hr|scene c _ IH|c _ IH|id c _ IH|id c _ IH|am c _ IH Hr].
  - apply well_formed_mount, Hr.
  - apply well_formed_scene_changes, IH.
  - apply well_formed_parent_renders, IH.
  - apply well_formed_fire, IH.
  - apply well_formed_interval_fires, IH.
  - apply well_formed_with_audio; [exact Hr|exact IH].
Qed.

(** The mood after [setAmbience], on any engine the program can have
    reached. *)
Lemma setAmbience_mood type am :
  Audio.reachable am -> currentAmbienceType (exec (setAmbience type) am) = Some type.
Proof.
  intros Hr. pose proof (reachable_consistent am Hr) as Hc.
  assert (Hctx : forall a, consistent a -> has_ctx a = true ->
            currentAmbienceType (exec (setAmbience type) a) = Some type).
  { intros a Ha Hh.
    destruct (consistent_ctx a Ha Hh) as (x & mg & g & Hx & Hm & Hg & _).
    destruct (decide (currentAmbienceType a = Some type)) as [Hty|Hty].
    - rewrite (setAmbience_same initialState deviceSampleRate type a x Hx Hty).
      exact Hty.
    - rewrite (setAmbience_switch initialState deviceSampleRate type a x g Hx Hg Hty).
      reflexivity. }
  destruct (has_ctx am) eqn:Hh; [apply Hctx; assumption|].
  rewrite (cons_fresh am Hc Hh), fresh_setAmbience.
  apply Hctx; [apply consistent_created|reflexivity].
Qed.

(** X19. Its option buttons apart (their handler plays the click), the
    canvas touches the audio engine when its scene changes and at no other
    time: a new scene plays the transition sound and then selects the
    ambience of the scene, after which that ambience is the current mood of
    the engine; a change to no scene, a render caused by the parent, a
    timer coming due and a tick of the typewriter leave the engine exactly
    as it was. *)
Theorem canvas_mood_follows_scene scene c :
  Canvas.reachable initialState deviceSampleRate c ->
  let c' := scene_changes (Some scene) c in
  audio c' = exec (setAmbience (ambience scene)) (exec playTransition (audio c)) /\
  currentAmbienceType (audio c') = Some (ambience scene) /\
  audio (scene_changes None c) = audio c /\
  audio (parent_renders c) = audio c /\
  (forall id, audio (fire id c) = audio c) /\
  (forall id, audio (interval_fires id c) = audio c).
Proof.
  intros Hr c'.
  destruct (reachable_well_formed_canvas c Hr) as (Hs & _).
  assert (Ha : audio (run_cleanup (render c)) = audio c).
  { destruct (run_cleanup_frame_canvas (render c)) as (_ & _ & _ & _ & _ & _ & ->).
    apply render_frame. }
  assert (E : audio c' =
              exec (setAmbience (ambience scene)) (exec playTransition (audio c))).
  { subst c'. unfold Canvas.scene_changes.
    destruct (flush_frame (effect (Some scene) (run_cleanup (render c))))
      as (_ & _ & _ & _ & _ & _ & ->).
    destruct (effect_fields scene (run_cleanup (render c)))
      as (_ & _ & _ & _ & _ & _ & _ & _ & -> & _).
    rewrite Ha. reflexivity. }
  split; [exact E|]. split.
  { rewrite E. apply setAmbience_mood. constructor. apply (snd_audio c Hs). }
  split.
  { unfold Canvas.scene_changes.
    destruct (flush_frame (effect None (run_cleanup (render c))))
      as (_ & _ & _ & _ & _ & _ & ->). exact Ha. }
  split; [apply render_frame|]. split.
  - intros id. unfold fire. destruct (timeouts c !! id) as [t|]; [|reflexivity].
    destruct (task t).
    + match goal with |- audio (flush ?x) = _ =>
        destruct (flush_frame x) as (_ & _ & _ & _ & _ & _ & ->) end. reflexivity.
    + match goal with |- audio (flush ?x) = _ =>
        destruct (flush_frame x) as (_ & _ & _ & _ & _ & _ & ->) end.
      unfold setRenderedScenes.
      match goal with |- audio (match ?u with _ => _ end) = _ => destruct u end;
        reflexivity.
  - intros id. unfold interval_fires.
    destruct (typewriter c) as [tw|]; [|reflexivity].
    destruct (_ <? _); [|reflexivity].
    match goal with |- audio (flush ?x) = _ =>
      destruct (flush_frame x) as (_ & _ & _ & _ & _ & _ & ->) end. reflexivity.
Qed.

(** X20. A new scene takes the stage: it is appended to the rendered scenes,
    unless the last of them already has its [id], in which case the list is
    kept as it is; either way the active scene has the [id] of the new
    one. The UI is hidden and the typewriter unmounted, [textComplete] is
    reset, and exactly two timeouts are pending, the one that shows the
    UI after 2000ms and the one that trims the stage after 2500ms: those of
    the previous scene have been cleared, and no other timer does
    anything. *)
Theorem new_scene_takes_the_stage scene c :
  Canvas.reachable initialState deviceSampleRate c ->
  let c' := scene_changes (Some scene) c in
  let n := nextTimeoutId c in
  renderedScenes c' =
    match activeScene c with
    | Some top =>
        if bool_decide (id top = id scene) then renderedScenes c
        else renderedScenes c ++ [scene]
    | None => [scene]
    end /\
  (exists a, activeScene c' = Some a /\ id a = id scene) /\
  showUI c' = false /\
  textComplete c' = false /\
  shown c' = None /\
  timeouts c' !! n = Some {| task := ShowUI; ms := 2000%N |} /\
  timeouts c' !! S n = Some {| task := CleanupScenes; ms := 2500%N |} /\
  (forall id, id <> n -> id <> S n -> timeouts c' !! id = None /\ fire id c' = c').
Proof.
  intros Hr c' n.
  destruct (reachable_well_formed_canvas c Hr) as (Hs & Hd & Hh).
  set (c0 := run_cleanup (render c)).
  destruct (sound_run_cleanup (render c) (sound_render c Hs))
    as (Hs0 & Hnone & Hcl & Hn0).
  fold c0 in Hs0, Hnone, Hcl, Hn0.
  destruct (render_frame c) as (R1 & R2 & R3 & _ & R5 & _ & _).
  destruct (run_cleanup_frame_canvas (render c)) as (C1 & C2 & C3 & C4 & C5 & _).
  fold c0 in C1, C2, C3, C4, C5.
  assert (Hn : nextTimeoutId c0 = n) by (rewrite Hn0; exact R5).
  assert (Hactive : activeScene c0 = activeScene c)
    by (unfold activeScene; rewrite C1, R1; reflexivity).
  destruct (effect_fields scene c0)
    as (E1 & E2 & E3 & E4 & E5 & E6 & E7 & E8 & E9 & E10).
  destruct (flush_frame (effect (Some scene) c0))
    as (F1 & F2 & F3 & F4 & F5 & F6 & F7).
  assert (Hrs : renderedScenes c' =
            match activeScene c with
            | Some top =>
                if bool_decide (id top = id scene) then renderedScenes c
                else renderedScenes c ++ [scene]
            | None => [scene]
            end).
  { subst c'. unfold Canvas.scene_changes. fold c0. rewrite F1, E1, Hactive, C1, R1.
    destruct (activeScene c) as [top|] eqn:Ea; [reflexivity|].
    unfold activeScene in Ea. apply last_None in Ea. rewrite Ea. reflexivity. }
  assert (Htimeouts : timeouts c' =
            <[S n := {| task := CleanupScenes; ms := 2500%N |}]>
              (<[n := {| task := ShowUI; ms := 2000%N |}]> (timeouts c0))).
  { subst c'. unfold Canvas.scene_changes. fold c0. rewrite F4, E4, Hn. reflexivity. }
  split; [exact Hrs|]. split.
  { unfold activeScene at 1. rewrite Hrs.
    destruct (activeScene c) as [top|] eqn:Ea; [case_bool_decide|].
    - exists top. split; [exact Ea|assumption].
    - exists scene. split; [apply last_snoc|reflexivity].
    - exists scene. split; reflexivity. }
  split; [subst c'; unfold Canvas.scene_changes; fold c0; rewrite F2; exact E2|].
  split; [subst c'; unfold Canvas.scene_changes; fold c0; rewrite F3; exact E3|].
  split.
  { unfold shown. subst c'. unfold Canvas.scene_changes. fold c0.
    rewrite flush_hidden; [reflexivity|exact E2|].
    intros Hclean. rewrite E7, C5.
    destruct (showUI c0) eqn:Eu; [rewrite E10 in Hclean by reflexivity; discriminate|].
    apply render_hidden. congruence. }
  rewrite Htimeouts.
  split; [rewrite lookup_insert_ne by lia; apply lookup_insert_eq|].
  split; [apply lookup_insert_eq|].
  intros id H1 H2.
  assert (Hid : <[S n := {| task := CleanupScenes; ms := 2500%N |}]>
                  (<[n := {| task := ShowUI; ms := 2000%N |}]> (timeouts c0)) !! id
                = None).
  { rewrite !lookup_insert_ne by (intros E; symmetry in E; contradiction).
    apply Hnone. }
  split; [exact Hid|]. unfold fire. rewrite Htimeouts, Hid. reflexivity.
Qed.

(** *** The typewriter inside the canvas *)

(** A render while the UI is shown hands the typewriter a new arrow
    function, so its effect runs again. *)
Lemma render_restarts c a :
  sound c -> showUI c = true -> activeScene c = Some a ->
  exists tw',
    typewriter (render c) = Some tw' /\
    Typewriter.displayedText tw' = [] /\
    Typewriter.intervals tw' =
      {[ match typewriter c with
         | Some tw => Typewriter.nextIntervalId tw
         | None => 0
         end := Typewriter.mkInterval (narrative a) 0 (Some (nextCallback c)) 30 ]} /\
    Typewriter.completions tw' =
      match typewriter c with
      | Some tw => Typewriter.completions tw
      | None => []
      end /\
    Typewriter.deps tw' = Some (narrative a, Some (nextCallback c)) /\
    nextCallback (render c) = S (nextCallback c).
Proof.
  intros Hs Hu Ha. unfold render. rewrite Ha, Hu.
  set (child := match typewriter c with Some tw => tw | None => Typewriter.mounted end).
  assert (Hchild : Typewriter.reachable child).
  { subst child. destruct (typewriter c) as [tw|] eqn:E; [|constructor].
    apply (snd_typewriter c Hs). exact E. }
  assert (Hdeps : Typewriter.deps child <> Some (narrative a, Some (nextCallback c))).
  { subst child. destruct (typewriter c) as [tw|] eqn:E; [|discriminate].
    intros Hd. pose proof (snd_callback c Hs tw _ _ E Hd). lia. }
  pose proof (run_cleanup_clears child (reachable_well_formed child Hchild)) as Hnone.
  destruct (Typewriter.run_cleanup child) as [d iv nx dp cl co] eqn:Er.
  destruct (run_cleanup_frame child) as (_ & Hnext & Hcompl). rewrite Er in Hnext, Hcompl.
  simpl in Hnone, Hnext, Hcompl.
  eexists. split; [reflexivity|].
  rewrite render_changed by exact Hdeps. rewrite Er. unfold Typewriter.effect. simpl.
  assert (Hempty : iv = ∅) by (apply map_empty; exact Hnone).
  subst iv nx co child.
  repeat split; destruct (typewriter c); reflexivity.
Qed.

(** X21. Whenever the parent renders the canvas while the narrative is on
    show, the typewriter starts over: its interval is cleared, the text on
    display goes back to the empty string, and a new interval begins the
    narrative of the active scene from its first code unit, however far
    the reveal had got and even when it was complete. *)
Theorem every_render_restarts_the_reveal c a :
  Canvas.reachable initialState deviceSampleRate c ->
  showUI c = true ->
  activeScene c = Some a ->
  let c' := parent_renders c in
  shown c' = Some [] /\
  (exists id,
     live_intervals c' =
       {[ id := Typewriter.mkInterval (narrative a) 0 (Some (nextCallback c)) 30 ]}) /\
  nextCallback c' = S (nextCallback c) /\
  renderedScenes c' = renderedScenes c /\
  showUI c' = true /\
  textComplete c' = textComplete c.
Proof.
  intros Hr Hu Ha c'.
  destruct (reachable_well_formed_canvas c Hr) as (Hs & _).
  destruct (render_restarts c a Hs Hu Ha) as (tw' & E & H1 & H2 & _ & _ & H5).
  destruct (render_frame c) as (R1 & R2 & R3 & _).
  subst c'. unfold parent_renders, shown, live_intervals. rewrite E, H1, H2.
  split; [reflexivity|]. split; [eauto|].
  split; [exact H5|]. split; [exact R1|]. split; [congruence|exact R3].
Qed.

(** X22. When the timer that shows the UI comes due, the UI is shown and the
    typewriter is mounted: it displays the empty string and its one
    interval, the first of the new component, starts the narrative of the
    active scene. The rendered scenes and [textComplete] are as before, and
    the timer is spent. *)
Theorem ui_timer_mounts_the_typewriter c u t a :
  Canvas.reachable initialState deviceSampleRate c ->
  timeouts c !! u = Some t -> task t = ShowUI ->
  showUI c = false ->
  activeScene c = Some a ->
  let c' := fire u c in
  showUI c' = true /\
  shown c' = Some [] /\
  live_intervals c' =
    {[ 0 := Typewriter.mkInterval (narrative a) 0 (Some (nextCallback c)) 30 ]} /\
  renderedScenes c' = renderedScenes c /\
  textComplete c' = textComplete c /\
  timeouts c' !! u = None /\
  fire u c' = c'.
Proof.
  intros Hr Ht Htask Hu Ha c'.
  destruct (reachable_well_formed_canvas c Hr) as (Hs & Hd & Hh).
  set (e := with_dirty false (setShowUI true (with_timeouts (delete u (timeouts c)) c))).
  assert (Ec : c' = render e).
  { subst c' e. unfold fire. rewrite Ht, Htask. unfold flush, setShowUI.
    cbn [dirty with_dirty with_showUI showUI with_timeouts].
    rewrite Hu, Hd. reflexivity. }
  assert (Hse : sound e)
    by (subst e; generalize (sound_delete u c Hs); apply sound_frame; reflexivity).
  destruct (render_restarts e a Hse eq_refl Ha) as (tw' & E & H1 & H2 & _ & _ & _).
  assert (Etw : typewriter e = None) by (subst e; simpl; auto).
  rewrite Etw in H2.
  destruct (render_frame e) as (R1 & R2 & R3 & R4 & _).
  assert (Hgone : timeouts c' !! u = None)
    by (rewrite Ec, R4; subst e; simpl; apply lookup_delete_eq).
  rewrite Ec. unfold shown, live_intervals. rewrite E, H1, H2, R1, R2, R3.
  repeat (split; [reflexivity|]).
  split; [rewrite <- Ec; exact Hgone|].
  rewrite <- Ec. unfold fire. rewrite Hgone. reflexivity.
Qed.

(** X23. When the timer that trims the stage comes due, the active scene and
    nothing else is left rendered; [showUI] and [textComplete] are as
    before. With at most one scene rendered nothing changes and nothing is
    rendered again; with more than one, the component renders again, which
    while the UI is shown restarts the typewriter from the empty string. *)
Theorem cleanup_timer_keeps_the_active_scene c k t a :
  Canvas.reachable initialState deviceSampleRate c ->
  timeouts c !! k = Some t -> task t = CleanupScenes ->
  activeScene c = Some a ->
  let c' := fire k c in
  renderedScenes c' = [a] /\
  activeScene c' = Some a /\
  showUI c' = showUI c /\
  textComplete c' = textComplete c /\
  (length (renderedScenes c) <= 1 ->
   typewriter c' = typewriter c /\ nextCallback c' = nextCallback c) /\
  (1 < length (renderedScenes c) -> showUI c = true -> shown c' = Some []).
Proof.
  intros Hr Ht Htask Ha c'.
  destruct (reachable_well_formed_canvas c Hr) as (Hs & Hd & Hh).
  set (c1 := with_timeouts (delete k (timeouts c)) c).
  pose proof (sound_delete k c Hs) as Hs1. fold c1 in Hs1.
  unfold activeScene in Ha.
  destruct (Nat.ltb_spec 1 (length (renderedScenes c))) as [Hlen|Hlen].
  - set (e := with_dirty false (with_dirty true (with_renderedScenes [a] c1))).
    assert (Ec : c' = render e).
    { subst c' e c1. unfold fire. rewrite Ht, Htask. unfold flush, setRenderedScenes.
      cbn [renderedScenes with_timeouts].
      rewrite (proj2 (Nat.ltb_lt _ _) Hlen), Ha. reflexivity. }
    assert (Hse : sound e)
      by (subst e; revert Hs1; apply sound_frame; reflexivity).
    destruct (render_frame e) as (R1 & R2 & R3 & _).
    rewrite Ec, R1, R2, R3. unfold activeScene. rewrite R1.
    repeat (split; [reflexivity|]). split; [lia|].
    intros _ Hu.
    destruct (render_restarts e a Hse Hu eq_refl) as (tw' & E & H1 & _).
    unfold shown. rewrite E, H1. reflexivity.
  - assert (Ec : c' = c1).
    { subst c' c1. unfold fire. rewrite Ht, Htask. unfold flush, setRenderedScenes.
      cbn [renderedScenes with_timeouts].
      rewrite (proj2 (Nat.ltb_ge _ _) Hlen). cbn [dirty with_timeouts].
      rewrite Hd. reflexivity. }
    assert (El : renderedScenes c = [a]).
    { destruct (renderedScenes c) as [|s0 [|s1 l]]; simpl in *;
        [discriminate|congruence|lia]. }
    rewrite Ec. subst c1. unfold activeScene. simpl. rewrite El.
    repeat (split; [reflexivity|]). split; [intros _; split; reflexivity|].
    simpl. intros H. lia.
Qed.

Lemma fires_snoc m n c :
  interval_fires_times (S m) n c = interval_fires n (interval_fires_times m n c).
Proof.
  revert c. induction m as [|m IH]; intros c; [reflexivity|].
  change (interval_fires_times (S (S m)) n c)
    with (interval_fires_times (S m) n (interval_fires n c)).
  rewrite IH. reflexivity.
Qed.

(** Firings of the typewriter's interval that stay short of the end of
    the text are the typewriter's own business. *)
Lemma fires_partial text cb d n : forall m k c tw,
  typewriter c = Some tw ->
  Typewriter.intervals tw !! n = Some (Typewriter.mkInterval text k cb d) ->
  k + m <= length text ->
  interval_fires_times m n c = with_typewriter (Some (Typewriter.ticks m n tw)) c.
Proof.
  induction m as [|m IH]; intros k c tw Htw Hiv Hk.
  - simpl. destruct c; simpl in *; subst; reflexivity.
  - simpl. unfold interval_fires at 1. rewrite Htw.
    rewrite (tick_partial text cb d n k tw Hiv) by lia.
    cbn [Typewriter.completions]. rewrite Nat.ltb_irrefl.
    erewrite (IH (k + 1)); [reflexivity|reflexivity| |lia].
    simpl. apply lookup_insert_eq.
Qed.

(** One round of the reveal inside the canvas: the firings that reveal
    the text, and the one after them, which calls the arrow function. *)
Lemma reveal_round c tw n text cb :
  typewriter c = Some tw ->
  Typewriter.intervals tw !! n = Some (Typewriter.mkInterval text 0 (Some cb) 30) ->
  Typewriter.displayedText tw = [] ->
  (forall m, m <= length text ->
     shown (interval_fires_times m n c) = Some (take m text) /\
     textComplete (interval_fires_times m n c) = textComplete c) /\
  interval_fires_times (S (length text)) n c =
    flush (setTextComplete true
             (with_typewriter
                (Some {| Typewriter.displayedText := text;
                         Typewriter.intervals := delete n (Typewriter.intervals tw);
                         Typewriter.nextIntervalId := Typewriter.nextIntervalId tw;
                         Typewriter.deps := Typewriter.deps tw;
                         Typewriter.cleanup := Typewriter.cleanup tw;
                         Typewriter.completions := cb :: Typewriter.completions tw |})
                c)).
Proof.
  intros Htw Hiv Hd.
  assert (Hpart : forall m, m <= length text ->
            interval_fires_times m n c =
            with_typewriter
              (Some {| Typewriter.displayedText := take m text;
                       Typewriter.intervals :=
                         <[n := Typewriter.mkInterval text m (Some cb) 30]>
                           (Typewriter.intervals tw);
                       Typewriter.nextIntervalId := Typewriter.nextIntervalId tw;
                       Typewriter.deps := Typewriter.deps tw;
                       Typewriter.cleanup := Typewriter.cleanup tw;
                       Typewriter.completions := Typewriter.completions tw |}) c).
  { intros m Hm.
    rewrite (fires_partial text (Some cb) 30 n m 0 c tw Htw Hiv) by lia.
    rewrite (ticks_partial text (Some cb) 30 n m 0 tw Hiv) by (lia || exact Hd).
    reflexivity. }
  split.
  - intros m Hm. rewrite (Hpart m Hm). split; reflexivity.
  - rewrite fires_snoc, (Hpart (length text)) by lia.
    unfold interval_fires at 1. cbn [typewriter with_typewriter].
    rewrite (tick_complete text cb 30 n) by (simpl; apply lookup_insert_eq).
    cbn [Typewriter.completions Typewriter.displayedText Typewriter.intervals
         Typewriter.nextIntervalId Typewriter.deps Typewriter.cleanup].
    rewrite (proj2 (Nat.ltb_lt _ _)) by (simpl; lia).
    rewrite delete_insert_eq, take_ge by lia. reflexivity.
Qed.

(** X24. Left to itself, the canvas types a narrative out twice. Once the
    UI is shown with a typewriter that is starting on the narrative of the
    active scene, of [N] code units, and [textComplete] is false: the
    first [N]
    firings of the interval reveal the text one code unit at a time; the
    next one calls [onComplete], which sets [textComplete], and the render
    that this causes hands the typewriter a new arrow function, so that the
    display goes back to the empty string and a new interval starts the
    same text again; its first [N] firings reveal the text a second time;
    the firing after them calls the new arrow function, which changes
    nothing any more, so that no render follows, and the reveal is over:
    the whole narrative is on display, no interval is left, and
    [onComplete] has been called twice. *)
Theorem narrative_is_typed_twice c tw n a cb :
  Canvas.reachable initialState deviceSampleRate c ->
  showUI c = true ->
  textComplete c = false ->
  activeScene c = Some a ->
  typewriter c = Some tw ->
  Typewriter.intervals tw !! n =
    Some (Typewriter.mkInterval (narrative a) 0 (Some cb) 30) ->
  Typewriter.displayedText tw = [] ->
  let text := narrative a in
  let N := length text in
  let n' := Typewriter.nextIntervalId tw in
  let c1 := interval_fires_times (S N) n c in
  let c2 := interval_fires_times (S N) n' c1 in
  (forall m, m <= N ->
     shown (interval_fires_times m n c) = Some (take m text) /\
     textComplete (interval_fires_times m n c) = false) /\
  (textComplete c1 = true /\
   shown c1 = Some [] /\
   live_intervals c1 =
     {[ n' := Typewriter.mkInterval text 0 (Some (nextCallback c)) 30 ]}) /\
  (forall m, m <= N ->
     shown (interval_fires_times m n' c1) = Some (take m text) /\
     textComplete (interval_fires_times m n' c1) = true) /\
  (shown c2 = Some text /\
   textComplete c2 = true /\
   live_intervals c2 = ∅ /\
   (exists tw2, typewriter c2 = Some tw2 /\
      Typewriter.completions tw2 =
        nextCallback c :: cb :: Typewriter.completions tw) /\
   forall id, interval_fires id c2 = c2).
Proof.
  intros Hr Hu Htc Ha Htw Hiv Hd text N n' c1 c2.
  destruct (reachable_well_formed_canvas c Hr) as (Hs & Hdirty & _).
  destruct (reveal_round c tw n text cb Htw Hiv Hd) as [H1 H2].
  fold N in H1, H2. fold c1 in H2.
  (* the state the first completion leaves, before the render it causes *)
  set (tw1 := {| Typewriter.displayedText := text;
                 Typewriter.intervals := delete n (Typewriter.intervals tw);
                 Typewriter.nextIntervalId := Typewriter.nextIntervalId tw;
                 Typewriter.deps := Typewriter.deps tw;
                 Typewriter.cleanup := Typewriter.cleanup tw;
                 Typewriter.completions := cb :: Typewriter.completions tw |}) in *.
  set (e := with_dirty false (setTextComplete true (with_typewriter (Some tw1) c))).
  assert (E1 : c1 = render e).
  { rewrite H2. unfold flush, setTextComplete.
    cbn [dirty with_dirty with_textComplete textComplete with_typewriter].
    rewrite Htc, Hdirty. reflexivity. }
  assert (Htw1 : Typewriter.reachable tw1).
  { assert (E : tw1 = Typewriter.ticks (S N) n tw).
    { rewrite typewriter_ticks_snoc.
      rewrite (ticks_partial text (Some cb) 30 n N 0 tw Hiv) by (lia || exact Hd).
      rewrite (tick_complete text cb 30 n) by (simpl; apply lookup_insert_eq).
      subst tw1. simpl. rewrite delete_insert_eq, take_ge by (subst N; lia).
      reflexivity. }
    rewrite E. apply reachable_ticks. apply (snd_typewriter c Hs). exact Htw. }
  assert (Hse : sound e).
  { destruct Hs as [S1 S2 S3 S4 S5]. split; simpl; try assumption.
    - intros tw' t' cb' [= <-] Hdeps. simpl in Hdeps. eauto.
    - intros tw' [= <-]. exact Htw1. }
  destruct (render_restarts e a Hse Hu Ha) as (tw' & Et & R1 & R2 & R3 & R4 & R5).
  cbn [typewriter with_typewriter with_dirty setTextComplete with_textComplete
       nextCallback] in R2, R3, R4, R5. simpl in R2, R3.
  destruct (render_frame e) as (F1 & F2 & F3 & _).
  assert (Hc1 : textComplete c1 = true) by (rewrite E1, F3; reflexivity).
  assert (Hd1 : dirty c1 = false) by (rewrite H2; apply dirty_flush).
  assert (Htw' : typewriter c1 = Some tw') by (rewrite E1; exact Et).
  assert (Hiv' : Typewriter.intervals tw' !! n' =
                 Some (Typewriter.mkInterval text 0 (Some (nextCallback c)) 30)).
  { rewrite R2. apply lookup_singleton_eq. }
  destruct (reveal_round c1 tw' n' text (nextCallback c) Htw' Hiv' R1) as [G1 G2].
  fold N in G1, G2. fold c2 in G2.
  split.
  { intros m Hm. destruct (H1 m Hm) as [A B]. rewrite B. auto. }
  split.
  { split; [exact Hc1|]. unfold shown, live_intervals. rewrite Htw', R1, R2. auto. }
  split.
  { intros m Hm. destruct (G1 m Hm) as [A B]. rewrite B. auto. }
  assert (E2 : c2 = with_dirty false (with_textComplete true
                      (with_typewriter
                         (Some {| Typewriter.displayedText := text;
                                  Typewriter.intervals :=
                                    delete n' (Typewriter.intervals tw');
                                  Typewriter.nextIntervalId :=
                                    Typewriter.nextIntervalId tw';
                                  Typewriter.deps := Typewriter.deps tw';
                                  Typewriter.cleanup := Typewriter.cleanup tw';
                                  Typewriter.completions :=
                                    nextCallback c :: Typewriter.completions tw' |})
                         c1))).
  { rewrite G2. unfold flush, setTextComplete.
    cbn [dirty with_dirty with_textComplete textComplete with_typewriter].
    rewrite Hc1, Hd1. reflexivity. }
  assert (Hgone : delete n' (Typewriter.intervals tw') = ∅)
    by (rewrite R2; apply delete_singleton_eq).
  rewrite E2. unfold shown, live_intervals.
  cbn [typewriter with_typewriter with_textComplete textComplete with_dirty
       Typewriter.displayedText Typewriter.intervals Typewriter.completions].
  rewrite Hgone, R3.
  split; [reflexivity|]. split; [reflexivity|]. split; [reflexivity|].
  split; [eexists; split; reflexivity|].
  intros id. unfold interval_fires.
  cbn [typewriter with_typewriter with_textComplete with_dirty].
  rewrite tick_cleared by (simpl; apply lookup_empty).
  rewrite Nat.ltb_irrefl. reflexivity.
Qed.

(** X25. When the canvas is removed, the two timers of its last scene are
    cancelled and the typewriter goes: nothing is left pending, and no
    timeout or interval the browser may still deliver changes anything.
    The audio engine is not touched: the ambience of the last scene is
    left as it is. *)
Theorem unmounted_canvas_is_inert c :
  Canvas.reachable initialState deviceSampleRate c ->
  let c' := unmount c in
  timeouts c' = ∅ /\
  shown c' = None /\
  (forall id, fire id c' = c') /\
  (forall id, interval_fires id c' = c') /\
  audio c' = audio c.
Proof.
  intros Hr c'.
  destruct (reachable_well_formed_canvas c Hr) as (Hs & _).
  destruct (sound_run_cleanup c Hs) as (_ & Hnone & _).
  assert (Ht : timeouts c' = ∅) by (apply map_empty; exact Hnone).
  split; [exact Ht|]. split; [reflexivity|]. split; [|split].
  - intros id. unfold fire. rewrite Ht, lookup_empty. reflexivity.
  - intros id. reflexivity.
  - subst c'. unfold unmount. cbn [audio with_typewriter].
    apply run_cleanup_frame_canvas.
Qed.

End CanvasFacts.

(** ** The further properties on sample data *)

Section MoreInstances.

Import Audio App Sample Scenario Optional.

Lemma missing_key_sends_nothing_witness :
  truthy_value (Some empty_string) = false /\
  Gemini.generateSceneLogic (Some empty_string) backend nat parse_length
    (lit "open the door") (lit "A door.") Gemini.untouched =
    (Thrown, Gemini.untouched) /\
  Gemini.generateSceneImage (Some empty_string) backend (lit "a door")
    Gemini.untouched = (Thrown, Gemini.untouched).
Proof.
  split; [reflexivity|].
  exact (missing_key_sends_nothing (Some empty_string) backend nat parse_length
           (lit "open the door") (lit "A door.") (lit "a door") Gemini.untouched
           eq_refl).
Defined.

Lemma logic_rejects_empty_text_witness :
  truthy_value (Config.API_KEY dotenv) = true /\
  fst (Gemini.generateSceneLogic (Config.API_KEY dotenv) backend nat parse_length
         (lit "open the door") (lit "A door.") Gemini.untouched) = Normal 2 /\
  fst (Gemini.generateSceneLogic (Config.API_KEY dotenv) imageless nat parse_length
         (lit "open the door") (lit "A door.") Gemini.untouched) = Thrown.
Proof.
  assert (Hk : truthy_value (Config.API_KEY dotenv) = true) by reflexivity.
  split; [exact Hk|]. split.
  - destruct (logic_rejects_empty_text (Config.API_KEY dotenv) backend nat
                parse_length (lit "open the door") (lit "A door.") Gemini.untouched Hk)
      as (_ & _ & _ & _ & _ & H).
    apply (H _ (lit "{}") eq_refl eq_refl). discriminate.
  - destruct (logic_rejects_empty_text (Config.API_KEY dotenv) imageless nat
                parse_length (lit "open the door") (lit "A door.") Gemini.untouched Hk)
      as (_ & _ & _ & _ & H & _).
    apply (H _ eq_refl eq_refl).
Defined.

Lemma image_is_first_inline_part_witness :
  truthy_value (Config.API_KEY dotenv) = true /\
  forallb (fun p => negb (Gemini.has_image p)) [caption; hollow] = true /\
  fst (Gemini.generateSceneImage (Config.API_KEY dotenv) backend (lit "a door")
         Gemini.untouched) = Normal (lit "data:image/png;base64,iVBOR").
Proof.
  assert (Hk : truthy_value (Config.API_KEY dotenv) = true) by reflexivity.
  assert (Hs : forallb (fun p => negb (Gemini.has_image p)) [caption; hollow] = true)
    by reflexivity.
  split; [exact Hk|]. split; [exact Hs|].
  assert (Hne : lit "iVBOR" <> []) by discriminate.
  rewrite (image_is_first_inline_part (Config.API_KEY dotenv) backend (lit "a door")
             Gemini.untouched (candidate [caption; hollow; png; png]) [candidate []]
             [caption; hollow] png [png]
             {| Gemini.mimeType := Some (lit "image/png");
                Gemini.data := Some (lit "iVBOR") |}
             (lit "iVBOR") None Hk eq_refl eq_refl Hs eq_refl eq_refl Hne).
  reflexivity.
Defined.

Lemma image_failure_is_logged_once_witness :
  truthy_value (Config.API_KEY dotenv) = true /\
  fst (Gemini.generateSceneImage (Config.API_KEY dotenv) imageless (lit "a door")
         Gemini.untouched) = Thrown /\
  Gemini.consoleErrors
    (snd (Gemini.generateSceneImage (Config.API_KEY dotenv) imageless (lit "a door")
            Gemini.untouched)) = 1.
Proof.
  assert (Hk : truthy_value (Config.API_KEY dotenv) = true) by reflexivity.
  split; [exact Hk|].
  destruct (image_failure_is_logged_once (Config.API_KEY dotenv) imageless
              (lit "a door") Gemini.untouched Hk) as (_ & _ & H).
  assert (E : fst (Gemini.generateSceneImage (Config.API_KEY dotenv) imageless
                     (lit "a door") Gemini.untouched) = Thrown) by reflexivity.
  split; [exact E|]. rewrite E in H. exact H.
Defined.

Lemma failed_start_leaves_session_on_witness :
  truthy (trim premise) = true /\
  scene_of image_fails = None /\
  isPlaying (gameState (step running 44100%Q initialWorld (Start premise image_fails)))
    = true /\
  consoleErrors (step running 44100%Q initialWorld (Start premise image_fails)) = 2.
Proof.
  split; [reflexivity|]. split; [reflexivity|].
  destruct (failed_start_leaves_session_on running 44100%Q premise image_fails
              initialWorld eq_refl eq_refl) as (H1 & _ & _ & _ & _ & H2 & _).
  split; [exact H1|exact H2].
Defined.

Lemma start_sends_premise_as_typed_witness :
  truthy (trim (lit "  a cave ")) = true /\
  requests (step running 44100%Q initialWorld (Start (lit "  a cave ") narrative_fails))
    = [generateSceneLogic_request (lit "  a cave ")
         (lit "Start of a new adventure. The player has just entered.")].
Proof.
  split; [reflexivity|].
  exact (start_sends_premise_as_typed running 44100%Q (lit "  a cave ")
           narrative_fails initialWorld eq_refl).
Defined.

Lemma started_world_audio_reachable : Audio.reachable (audio started_world).
Proof.
  destruct (handleStartGame_outside running 44100%Q premise (answers cockpit "1")
              initialWorld eq_refl) as (_ & _ & E & _).
  unfold started_world, step. rewrite E.
  apply reach_playClick, reach_resume, reach_init. exact reach_fresh.
Defined.

Lemma reset_silences_audio_witness :
  Audio.reachable (audio started_world) /\
  stopTimeouts (step running 44100%Q started_world Reset) = 1 /\
  currentAmbienceType
    (audio (step running 44100%Q (step running 44100%Q started_world Reset)
              AudioStopFires)) = None.
Proof.
  split; [exact started_world_audio_reachable|].
  destruct (reset_silences_audio running 44100%Q started_world
              started_world_audio_reachable)
    as (H1 & _ & _ & _ & _ & _ & _ & H2 & _).
  split; [exact H1|exact H2].
Defined.

Lemma failed_first_start_needs_abort_witness :
  let stranded :=
    Page.react running 44100%Q
      (Page.react running 44100%Q typed_in (Start (input typed_in) narrative_fails))
      DismissError in
  truthy_value (Config.API_KEY dotenv) = true /\
  Page.at_rest (gameState typed_in) /\
  isPlaying (gameState typed_in) = false /\
  truthy (trim (input typed_in)) = true /\
  scene_of narrative_fails = None /\
  Page.view (Config.API_KEY dotenv) stranded = Page.Main true None (Some None) None None /\
  Page.offers (Config.API_KEY dotenv) stranded (Start premise (answers cockpit "1"))
    = false.
Proof.
  intros stranded.
  assert (Hk : truthy_value (Config.API_KEY dotenv) = true) by reflexivity.
  assert (Hr : Page.at_rest (gameState typed_in))
    by (repeat split; reflexivity).
  assert (Hp : isPlaying (gameState typed_in) = false) by reflexivity.
  assert (Hi : truthy (trim (input typed_in)) = true) by reflexivity.
  assert (Hs : scene_of narrative_fails = None) by reflexivity.
  assert (Hops : forallb (fun op => negb (is_reset op)) [DismissError] = true)
    by reflexivity.
  assert (Hses : Page.session running 44100%Q (Config.API_KEY dotenv)
                   (Page.react running 44100%Q typed_in
                      (Start (input typed_in) narrative_fails))
                   [DismissError] = Some stranded)
    by (vm_compute; reflexivity).
  do 5 (split; [assumption|]).
  destruct (failed_first_start_needs_abort running 44100%Q (Config.API_KEY dotenv)
              typed_in narrative_fails Hk Hr Hp Hi Hs)
    as (_ & _ & H).
  destruct (H [DismissError] stranded Hops Hses) as ((overlay & Hv) & Hoff & _).
  split.
  - rewrite Hv. f_equal. vm_compute in Hv. congruence.
  - destruct (Page.offers _ _ (Start premise (answers cockpit "1"))) eqn:E;
      [|reflexivity].
    destruct (Hoff _ E) as [D|[D|D]]; discriminate D.
Defined.

Lemma calm_playing_reachable : Audio.reachable calm_playing.
Proof. unfold calm_playing. apply reach_setAmbience, reach_fresh. Defined.

Lemma gains_are_built_once_witness :
  Audio.reachable calm_playing /\
  has_ctx calm_playing = true /\
  masterGain calm_playing = Some 0 /\
  node_count (exec (init suspended 8000%Q) calm_playing) = node_count calm_playing.
Proof.
  split; [exact calm_playing_reachable|]. split; [reflexivity|].
  destruct (gains_are_built_once calm_playing calm_playing_reachable eq_refl)
    as ((H1 & _) & H2).
  split; [exact H1|]. exact (proj1 (H2 suspended 8000%Q)).
Defined.

Lemma ui_sounds_leave_ambience_alone_witness :
  Audio.reachable calm_playing /\
  node_count (exec (playClick running 44100%Q) calm_playing) = 6 /\
  (ambience_live (exec (playTransition running 44100%Q) calm_playing) 2 <->
   ambience_live calm_playing 2).
Proof.
  split; [exact calm_playing_reachable|].
  destruct (ui_sounds_leave_ambience_alone running 44100%Q calm_playing
              calm_playing_reachable) as ((H1 & _) & _ & _ & _ & H2 & _).
  split; [exact H1|exact (H2 2)].
Defined.

Lemma switch_builds_the_graph_of_the_mood_witness :
  Audio.reachable calm_playing /\
  currentAmbienceType calm_playing <> Some mechanical /\
  node_count (exec (setAmbience running 44100%Q mechanical) calm_playing) = 8 /\
  lfo (exec (setAmbience running 44100%Q mechanical) calm_playing) = Some 5 /\
  stopped (log (exec (setAmbience running 44100%Q mechanical) calm_playing)) 2 = true.
Proof.
  assert (Hty : currentAmbienceType calm_playing <> Some mechanical)
    by (vm_compute; discriminate).
  split; [exact calm_playing_reachable|]. split; [exact Hty|].
  destruct (switch_builds_the_graph_of_the_mood running 44100%Q mechanical
              calm_playing calm_playing_reachable Hty)
    as (_ & _ & H3 & H4 & H5 & _).
  split; [exact H4|]. split; [exact H3|].
  apply (H5 2). left. reflexivity.
Defined.

Lemma without_eerie_nothing_is_left_behind_witness :
  forallb Engine.avoids_eerie quiet_evening = true /\
  forallb Engine.forward quiet_evening = true /\
  no_stray_source (Engine.play running 44100%Q fresh quiet_evening).
Proof.
  split; [reflexivity|]. split; [reflexivity|].
  exact (proj1 (without_eerie_nothing_is_left_behind running 44100%Q quiet_evening
                  eq_refl eq_refl)).
Defined.

Lemma stop_timeout_is_not_cancelled_witness :
  Audio.reachable calm_playing /\
  has_ctx calm_playing = true /\
  currentAmbienceType calm_playing <> Some chaos /\
  ambienceNode (exec (setAmbience running 44100%Q chaos) (exec stop_now calm_playing))
    = Some 4 /\
  currentAmbienceType
    (exec stop_timeout
       (exec (setAmbience running 44100%Q chaos) (exec stop_now calm_playing))) = None /\
  stopped
    (log (exec stop_timeout
            (exec (setAmbience running 44100%Q chaos) (exec stop_now calm_playing))))
    4 = true.
Proof.
  assert (Hty : currentAmbienceType calm_playing <> Some chaos)
    by (vm_compute; discriminate).
  split; [exact calm_playing_reachable|]. split; [reflexivity|]. split; [exact Hty|].
  destruct (stop_timeout_is_not_cancelled running 44100%Q chaos calm_playing
              calm_playing_reachable eq_refl Hty)
    as (H1 & _ & _ & H4 & _ & H6 & _).
  split; [exact H1|]. split; [exact H6|exact H4].
Defined.

Lemma after_stop_every_mood_is_rebuilt_witness :
  Audio.reachable calm_playing /\
  has_ctx calm_playing = true /\
  node_count
    (exec (setAmbience running 44100%Q calm)
       (browser_moves suspended 7%Q
          (exec stop_timeout (exec stop_now calm_playing)))) = 6 /\
  In ctx_resume
    (log (exec (setAmbience running 44100%Q calm)
            (browser_moves suspended 7%Q
               (exec stop_timeout (exec stop_now calm_playing))))).
Proof.
  split; [exact calm_playing_reachable|]. split; [reflexivity|].
  destruct (after_stop_every_mood_is_rebuilt running 44100%Q calm suspended 7%Q
              calm_playing calm_playing_reachable eq_refl)
    as (_ & _ & _ & _ & _ & H6 & _ & _ & H9).
  split; [exact H6|]. exact (proj1 (H9 eq_refl)).
Defined.

Lemma unmounted_typewriter_is_inert_witness :
  Typewriter.reachable mid_reveal /\
  fold_left (fun d n => Typewriter.tick n d) [0; 0; 1] (Typewriter.unmount mid_reveal)
    = Typewriter.unmount mid_reveal /\
  Typewriter.displayedText (Typewriter.unmount mid_reveal) = lit "he".
Proof.
  assert (H1 : Typewriter.reachable mid_reveal)
    by (unfold mid_reveal;
        apply Typewriter.reach_tick, Typewriter.reach_tick, Typewriter.reach_render,
          Typewriter.reach_mounted).
  split; [exact H1|].
  destruct (unmounted_typewriter_is_inert mid_reveal [0; 0; 1] H1)
    as (_ & H2 & H3 & _).
  split; [exact H2|]. rewrite H3. reflexivity.
Defined.

(** The sample canvases are ones the program can have reached. *)
Lemma empty_stage_reachable : Canvas.reachable running 44100%Q empty_stage.
Proof.
  unfold empty_stage. apply Canvas.reach_mount.
  unfold initialised. apply reach_init, reach_fresh.
Defined.

Lemma first_staged_reachable : Canvas.reachable running 44100%Q first_staged.
Proof. unfold first_staged. apply Canvas.reach_scene, empty_stage_reachable. Defined.

Lemma first_shown_reachable : Canvas.reachable running 44100%Q first_shown.
Proof. unfold first_shown. apply Canvas.reach_fire, first_staged_reachable. Defined.

Lemma revealing_reachable : Canvas.reachable running 44100%Q revealing.
Proof.
  unfold revealing. simpl.
  repeat apply Canvas.reach_interval. exact first_shown_reachable.
Defined.

Lemma second_staged_reachable : Canvas.reachable running 44100%Q second_staged.
Proof. unfold second_staged. apply Canvas.reach_scene, revealing_reachable. Defined.

Lemma canvas_mood_follows_scene_witness :
  Canvas.reachable running 44100%Q empty_stage /\
  currentAmbienceType (Canvas.audio first_staged) = Some chaos /\
  Canvas.audio (Canvas.fire 0 empty_stage) = Canvas.audio empty_stage.
Proof.
  split; [exact empty_stage_reachable|].
  destruct (canvas_mood_follows_scene running 44100%Q first_scene empty_stage
              empty_stage_reachable) as (_ & H2 & _ & _ & H5 & _).
  split; [exact H2|exact (H5 0)].
Defined.

Lemma new_scene_takes_the_stage_witness :
  Canvas.reachable running 44100%Q revealing /\
  Canvas.renderedScenes second_staged = [first_scene; second_scene] /\
  Canvas.shown second_staged = None /\
  Canvas.fire 0 second_staged = second_staged /\
  Canvas.fire 1 second_staged = second_staged.
Proof.
  split; [exact revealing_reachable|].
  destruct (new_scene_takes_the_stage running 44100%Q second_scene revealing
              revealing_reachable) as (H1 & _ & _ & _ & H5 & _ & _ & H8).
  split; [unfold second_staged; rewrite H1; vm_compute; reflexivity|].
  split; [exact H5|].
  split; [apply (H8 0)|apply (H8 1)]; vm_compute; discriminate.
Defined.

Lemma every_render_restarts_the_reveal_witness :
  Canvas.reachable running 44100%Q revealing /\
  Canvas.showUI revealing = true /\
  Canvas.activeScene revealing = Some first_scene /\
  Canvas.shown revealing = Some (lit "The") /\
  Canvas.shown (Canvas.parent_renders revealing) = Some [].
Proof.
  split; [exact revealing_reachable|].
  assert (H1 : Canvas.showUI revealing = true) by reflexivity.
  assert (H2 : Canvas.activeScene revealing = Some first_scene) by reflexivity.
  split; [exact H1|]. split; [exact H2|]. split; [reflexivity|].
  exact (proj1 (every_render_restarts_the_reveal running 44100%Q revealing first_scene
                  revealing_reachable H1 H2)).
Defined.

Lemma ui_timer_mounts_the_typewriter_witness :
  Canvas.reachable running 44100%Q first_staged /\
  Canvas.timeouts first_staged !! 0 =
    Some {| Canvas.task := Canvas.ShowUI; Canvas.ms := 2000%N |} /\
  Canvas.showUI first_staged = false /\
  Canvas.activeScene first_staged = Some first_scene /\
  Canvas.showUI first_shown = true /\
  Canvas.shown first_shown = Some [].
Proof.
  split; [exact first_staged_reachable|].
  assert (H1 : Canvas.timeouts first_staged !! 0 =
               Some {| Canvas.task := Canvas.ShowUI; Canvas.ms := 2000%N |})
    by reflexivity.
  assert (H2 : Canvas.showUI first_staged = false) by reflexivity.
  assert (H3 : Canvas.activeScene first_staged = Some first_scene) by reflexivity.
  split; [exact H1|]. split; [exact H2|]. split; [exact H3|].
  destruct (ui_timer_mounts_the_typewriter running 44100%Q first_staged 0 _
              first_scene first_staged_reachable H1 eq_refl H2 H3)
    as (G1 & G2 & _).
  split; [exact G1|exact G2].
Defined.

Lemma cleanup_timer_keeps_the_active_scene_witness :
  Canvas.reachable running 44100%Q second_staged /\
  Canvas.timeouts second_staged !! 3 =
    Some {| Canvas.task := Canvas.CleanupScenes; Canvas.ms := 2500%N |} /\
  Canvas.activeScene second_staged = Some second_scene /\
  Canvas.renderedScenes (Canvas.fire 3 second_staged) = [second_scene].
Proof.
  split; [exact second_staged_reachable|].
  assert (H1 : Canvas.timeouts second_staged !! 3 =
               Some {| Canvas.task := Canvas.CleanupScenes; Canvas.ms := 2500%N |})
    by reflexivity.
  assert (H2 : Canvas.activeScene second_staged = Some second_scene) by reflexivity.
  split; [exact H1|]. split; [exact H2|].
  exact (proj1 (cleanup_timer_keeps_the_active_scene running 44100%Q second_staged 3 _
                  second_scene second_staged_reachable H1 eq_refl H2)).
Defined.

Lemma narrative_is_typed_twice_witness :
  Canvas.reachable running 44100%Q first_shown /\
  Canvas.typewriter first_shown = Some first_typewriter /\
  Canvas.textComplete (Canvas.interval_fires_times 36 0 first_shown) = true /\
  Canvas.shown (Canvas.interval_fires_times 36 0 first_shown) = Some [] /\
  Canvas.shown
    (Canvas.interval_fires_times 36 1 (Canvas.interval_fires_times 36 0 first_shown))
    = Some (narrative first_scene).
Proof.
  split; [exact first_shown_reachable|].
  assert (H1 : Canvas.typewriter first_shown = Some first_typewriter) by reflexivity.
  split; [exact H1|].
  destruct (narrative_is_typed_twice running 44100%Q first_shown first_typewriter 0
              first_scene 0 first_shown_reachable eq_refl eq_refl eq_refl H1
              eq_refl eq_refl)
    as (_ & (G1 & G2 & _) & _ & (G3 & _)).
  split; [exact G1|]. split; [exact G2|exact G3].
Defined.

Lemma unmounted_canvas_is_inert_witness :
  Canvas.reachable running 44100%Q second_staged /\
  Canvas.timeouts second_staged !! 3 =
    Some {| Canvas.task := Canvas.CleanupScenes; Canvas.ms := 2500%N |} /\
  Canvas.timeouts (Canvas.unmount second_staged) = ∅ /\
  Canvas.fire 3 (Canvas.unmount second_staged) = Canvas.unmount second_staged.
Proof.
  split; [exact second_staged_reachable|]. split; [reflexivity|].
  destruct (unmounted_canvas_is_inert running 44100%Q second_staged
              second_staged_reachable) as (H1 & _ & H3 & _).
  split; [exact H1|exact (H3 3)].
Defined.

End MoreInstances.
